(** * A shallow embedding of the [sat] package (base.py, graph.py, solvers.py,
      parsing.py)

    The Python code is object-oriented and works by side effect: every
    [Atom] object carries a mutable [value], clauses share atoms, and the
    implication graph stores node objects in a [networkx.DiGraph].  The
    embedding keeps this structure:

    - an object whose identity matters carries an identity field
      ([aid] for atoms, [nid] for graph nodes); a clause of the solver's
      clause list is referred to by its index in that list, which only grows;
    - the [value] attributes of all atoms form a store, passed explicitly;
    - a Python [dict] is an association list in insertion order;
    - a Python [set] is the list of its elements in insertion order, and the
      order in which it is iterated is a parameter [set_order] of the
      development (it depends on string hashes in Python); what is proved
      of [resolve], [clear_decisions], [resolve_conflict] and [solve] is
      proved for every such order that is a permutation of the elements;
    - the [DiGraph] is its list of nodes and its list of edges, both in
      insertion order, which is the order of [nodes()], [successors()] and
      [in_edges()];
    - exceptions are values of type [error]; loops take fuel.

    [DimacsParser.parse] is embedded in two steps: the integers of the
    matches of the pattern, for a text of ASCII characters, and the loop over
    these integers, in which [Atom(name)] takes the next free identity.
    [BruteForceSatSolver.assign_next] threads the shared iterator through
    its calls.

    Not embedded: logging and the hooks (which do nothing by default),
    [decide_manual] (it reads the choice from the terminal), the [__repr__]
    and [__hash__] methods, and the script part of __init__.py. *)

From Stdlib Require Import Ascii String Bool Arith ZArith Lia Permutation List.
From Stdlib Require DecimalString.
Import ListNotations.

Local Open Scope string_scope.
Local Open Scope list_scope.

(* ================================================================== *)
(** * base.py                                                          *)
(* ================================================================== *)

(** [class Atom]: a name, and a mutable value kept in the store under the
    object's identity [aid]. *)
Record Atom := mkAtom { aid : nat; name : string }.

(** [class Literal]. *)
Record Literal := mkLiteral { atom : Atom; positive : bool }.

(** [class Clause]. *)
Record Clause := mkClause { literals : list Literal }.

(** The [value] attribute of every atom object: [None], [True] or [False]. *)
Definition Store := nat -> option bool.

Definition set_value (st : Store) (a : Atom) (v : option bool) : Store :=
  fun i => if Nat.eqb i (aid a) then v else st i.

Definition value (st : Store) (a : Atom) : option bool := st (aid a).

(** [Atom.__eq__]: atoms are compared by name. *)
Definition atom_eqb (a b : Atom) : bool := String.eqb (name a) (name b).

(** [Atom.has_value]. *)
Definition atom_has_value (st : Store) (a : Atom) : bool :=
  match value st a with Some _ => true | None => false end.

(** [Atom.__bool__]: [bool(self.value)]. *)
Definition atom_bool (st : Store) (a : Atom) : bool :=
  match value st a with Some true => true | _ => false end.

(** [Literal.has_value]. *)
Definition has_value (st : Store) (l : Literal) : bool :=
  atom_has_value st (atom l).

(** [Literal.__bool__]. *)
Definition literal_bool (st : Store) (l : Literal) : bool :=
  if positive l then atom_bool st (atom l) else negb (atom_bool st (atom l)).

(** [Literal.__eq__]. *)
Definition literal_eqb (l1 l2 : Literal) : bool :=
  atom_eqb (atom l1) (atom l2) && Bool.eqb (positive l1) (positive l2).

(** [Clause.is_satisfied]. *)
Definition is_satisfied (st : Store) (c : Clause) : bool :=
  existsb (literal_bool st) (filter (has_value st) (literals c)).

(** [Clause.is_unsatisfied]. *)
Definition is_unsatisfied (st : Store) (c : Clause) : bool :=
  if negb (forallb (has_value st) (literals c)) then false
  else negb (existsb (literal_bool st) (literals c)).

(** [Clause.is_unit].  The comparison is on Python integers:
    [len(self.literals) - 1] is [-1] for the empty clause. *)
Definition is_unit (st : Store) (c : Clause) : bool :=
  let assigned_literals := filter (has_value st) (literals c) in
  if Z.eqb (Z.of_nat (length assigned_literals))
           (Z.of_nat (length (literals c)) - 1)
  then negb (existsb (literal_bool st) assigned_literals)
  else false.

(** [Clause.is_unresolved]. *)
Definition is_unresolved (st : Store) (c : Clause) : bool :=
  negb (is_satisfied st c) && negb (is_unsatisfied st c) && negb (is_unit st c).

(** [set.add] on a set of literals: an element equal to one already present
    is not added. *)
Definition literal_set_add (l : Literal) (s : list Literal) : list Literal :=
  if existsb (literal_eqb l) s then s else s ++ [l].

(** The first loop of [Clause.resolve]: partition by polarity. *)
Fixpoint partition_literals (ls : list Literal) (pos neg : list Literal)
  : list Literal * list Literal :=
  match ls with
  | [] => (pos, neg)
  | l :: rest =>
      if positive l
      then partition_literals rest (literal_set_add l pos) neg
      else partition_literals rest pos (literal_set_add l neg)
  end.

(** [atom in map(lambda x: x.atom, s)]. *)
Definition atom_in (a : Atom) (s : list Literal) : bool :=
  existsb (fun x => atom_eqb a (atom x)) s.

Section SetOrder.

(** The order in which Python iterates over a set, given its elements in
    insertion order. *)
Variable set_order : forall A : Type, list A -> list A.

(** [Clause.resolve]. *)
Definition resolve (self other : Clause) : Clause :=
  let '(positive_literals, negative_literals) :=
    partition_literals (literals self ++ literals other) [] [] in
  let resolvent_literals :=
    filter (fun p => negb (atom_in (atom p) negative_literals))
           (set_order _ positive_literals) in
  mkClause
    (resolvent_literals ++
     filter (fun n => negb (atom_in (atom n) positive_literals))
            (set_order _ negative_literals)).

End SetOrder.

(** Iteration in insertion order, one admissible [set_order]. *)
Definition insertion_order : forall A : Type, list A -> list A :=
  fun _ l => l.

(** Membership of a literal in a clause, up to [Literal.__eq__]. *)
Definition literal_in (l : Literal) (c : Clause) : bool :=
  existsb (literal_eqb l) (literals c).

(** The literal over the same atom with the other polarity. *)
Definition complement (l : Literal) : Literal :=
  mkLiteral (atom l) (negb (positive l)).

(** Two clauses have the same set of literals. *)
Definition same_literals (c1 c2 : Clause) : Prop :=
  forall l, literal_in l c1 = literal_in l c2.

(** Some atom occurs in the clause with both polarities. *)
Definition has_complementary_pair (c : Clause) : bool :=
  existsb (fun l => literal_in (complement l) c) (literals c).

(* ================================================================== *)
(** * Exceptions                                                       *)
(* ================================================================== *)

(** Where a [next(...)] without default is evaluated. *)
Inductive site :=
| in_add_forced_decision   (* graph.py, the predecessor lookup *)
| in_add_conflict          (* graph.py, the predecessor lookup *)
| in_find_uips             (* graph.py, [next(paths)] *)
| in_bcp.                  (* solvers.py, the unassigned literal of a unit clause *)

Inductive error :=
| StopIteration (s : site)
| NodeNotFound          (* networkx: source or target of a path query not in the graph *)
| NetworkXError         (* networkx: successors of a node that is not in the graph *)
| AttributeError        (* attribute access on [None] *)
| ValueError            (* [max] of an empty dictionary *)
| OutOfFuel.            (* the model's loops are bounded *)

Inductive result (A : Type) :=
| Ok (a : A)
| Raise (e : error).

Arguments Ok {A} a.
Arguments Raise {A} e.

Definition bind {A B : Type} (r : result A) (k : A -> result B) : result B :=
  match r with
  | Ok a => k a
  | Raise e => Raise e
  end.

Notation "x <- r ;; k" := (bind r (fun x => k))
  (at level 61, r at next level, right associativity).
Notation "' p <- r ;; k" := (bind r (fun p => k))
  (at level 61, p pattern, r at next level, right associativity).

(* ================================================================== *)
(** * graph.py                                                         *)
(* ================================================================== *)

(** [class DecisionNode] and [class ConflictNode].  Neither class defines
    [__eq__], so nodes are compared by object identity, the field [nid]. *)
Inductive Node :=
| DecisionNode (nid : nat) (variable : Atom) (value : bool) (decision_level : nat)
| ConflictNode (nid : nat) (variable : Atom) (decision_level : nat).

Definition nid (n : Node) : nat :=
  match n with DecisionNode i _ _ _ | ConflictNode i _ _ => i end.

Definition variable (n : Node) : Atom :=
  match n with DecisionNode _ a _ _ | ConflictNode _ a _ => a end.

Definition node_level (n : Node) : nat :=
  match n with DecisionNode _ _ _ l | ConflictNode _ _ l => l end.

Definition is_decision_node (n : Node) : bool :=
  match n with DecisionNode _ _ _ _ => true | ConflictNode _ _ _ => false end.

Definition node_eqb (n m : Node) : bool := Nat.eqb (nid n) (nid m).

Definition node_in (n : Node) (l : list Node) : bool := existsb (node_eqb n) l.

(** An edge of the [networkx.DiGraph] with its [antecedent] attribute: the
    index of the clause in the solver's clause list. *)
Record Edge := mkEdge { source : Node; target : Node; antecedent : nat }.

(** [class ImplicationGraph].  [graph_nodes] and [graph_edges] are the
    [DiGraph], both in insertion order; [allocated] counts the node objects
    created so far. *)
Record ImplicationGraph := mkGraph {
  graph_nodes : list Node;
  graph_edges : list Edge;
  decisions : list Node;
  conflict_node : option Node;
  allocated : nat
}.

(** [ImplicationGraph.__init__]. *)
Definition new_graph : ImplicationGraph := mkGraph [] [] [] None 0.

(** [DiGraph.add_node]. *)
Definition nx_add_node (n : Node) (g : ImplicationGraph) : ImplicationGraph :=
  if node_in n (graph_nodes g) then g
  else mkGraph (graph_nodes g ++ [n]) (graph_edges g) (decisions g)
               (conflict_node g) (allocated g).

Fixpoint update_edge (u v : Node) (c : nat) (es : list Edge) : list Edge :=
  match es with
  | [] => [mkEdge u v c]
  | e :: rest =>
      if node_eqb (source e) u && node_eqb (target e) v
      then mkEdge (source e) (target e) c :: rest
      else e :: update_edge u v c rest
  end.

(** [DiGraph.add_edge(u, v, antecedent=c)]: both ends are added when they are
    missing; the attribute of an edge that exists is overwritten. *)
Definition nx_add_edge (u v : Node) (c : nat) (g : ImplicationGraph)
  : ImplicationGraph :=
  let g1 := nx_add_node v (nx_add_node u g) in
  mkGraph (graph_nodes g1) (update_edge u v c (graph_edges g1)) (decisions g1)
          (conflict_node g1) (allocated g1).

(** [DiGraph.remove_node] of a node of the graph: the node goes with the
    edges at it. *)
Definition nx_remove_node (n : Node) (g : ImplicationGraph) : ImplicationGraph :=
  mkGraph (filter (fun m => negb (node_eqb m n)) (graph_nodes g))
          (filter (fun e => negb (node_eqb (source e) n) &&
                            negb (node_eqb (target e) n)) (graph_edges g))
          (decisions g) (conflict_node g) (allocated g).

(** [DiGraph.successors]. *)
Definition nx_successors (g : ImplicationGraph) (n : Node) : list Node :=
  map target (filter (fun e => node_eqb (source e) n) (graph_edges g)).

(** [DiGraph.in_edges]. *)
Definition nx_in_edges (g : ImplicationGraph) (n : Node) : list Edge :=
  filter (fun e => node_eqb (target e) n) (graph_edges g).

(** [ImplicationGraph.add_decision]. *)
Definition add_decision (g : ImplicationGraph) (a : Atom) (v : bool)
    (decision_level : nat) : ImplicationGraph :=
  let decision_node := DecisionNode (allocated g) a v decision_level in
  nx_add_node decision_node
    (mkGraph (graph_nodes g) (graph_edges g) (decisions g ++ [decision_node])
             (conflict_node g) (S (allocated g))).

(** [next(filter(lambda n: n.variable == a, self.graph.nodes()))]. *)
Definition previous_decision (s : site) (g : ImplicationGraph) (a : Atom)
  : result Node :=
  match find (fun n => atom_eqb (variable n) a) (graph_nodes g) with
  | Some n => Ok n
  | None => Raise (StopIteration s)
  end.

(** The loop of [add_forced_decision] and of [add_conflict]: one edge from
    the node of each literal's atom to the new node. *)
Fixpoint add_antecedent_edges (s : site) (ls : list Literal) (new_node : Node)
    (c : nat) (g : ImplicationGraph) : result ImplicationGraph :=
  match ls with
  | [] => Ok g
  | l :: rest =>
      p <- previous_decision s g (atom l) ;;
      add_antecedent_edges s rest new_node c (nx_add_edge p new_node c g)
  end.

(** [ImplicationGraph.add_forced_decision]; the antecedent is given with its
    index [c] in the clause list. *)
Definition add_forced_decision (g : ImplicationGraph) (a : Atom) (v : bool)
    (c : nat) (antecedent_clause : Clause) (decision_level : nat)
  : result ImplicationGraph :=
  let decision_node := DecisionNode (allocated g) a v decision_level in
  let g1 := nx_add_node decision_node
              (mkGraph (graph_nodes g) (graph_edges g) (decisions g)
                       (conflict_node g) (S (allocated g))) in
  add_antecedent_edges in_add_forced_decision
    (filter (fun l => negb (atom_eqb (atom l) a)) (literals antecedent_clause))
    decision_node c g1.

(** [ImplicationGraph.add_conflict]. *)
Definition add_conflict (g : ImplicationGraph) (a : Atom) (c : nat)
    (clause : Clause) (decision_level : nat) : result ImplicationGraph :=
  let node := ConflictNode (allocated g) a decision_level in
  let g1 := nx_add_node node
              (mkGraph (graph_nodes g) (graph_edges g) (decisions g)
                       (Some node) (S (allocated g))) in
  add_antecedent_edges in_add_conflict (literals clause) node c g1.

(** The simple paths that extend [visited] (the path so far, last node
    first) to [tgt], depth first, successors in adjacency order. *)
Fixpoint simple_paths (fuel : nat) (g : ImplicationGraph) (tgt : Node)
    (visited : list Node) (current : Node) : list (list Node) :=
  match fuel with
  | O => []
  | S fuel' =>
      flat_map
        (fun child =>
           if node_in child visited then []
           else if node_eqb child tgt then [rev (child :: visited)]
           else simple_paths fuel' g tgt (child :: visited) child)
        (nx_successors g current)
  end.

(** [networkx.all_simple_paths(G, source, target)]: [NodeNotFound] when an
    end is not in the graph, otherwise the simple paths in depth-first
    order.  (The two ends are never the same node here: one is a decision
    node and the other the conflict node.) *)
Definition all_simple_paths (g : ImplicationGraph) (src tgt : Node)
  : result (list (list Node)) :=
  if negb (node_in src (graph_nodes g)) || negb (node_in tgt (graph_nodes g))
  then Raise NodeNotFound
  else if node_eqb src tgt then Ok []
  else Ok (simple_paths (length (graph_nodes g)) g tgt [src] src).

(** [ImplicationGraph.find_uips]. *)
Definition find_uips (g : ImplicationGraph) : result (option (list Node)) :=
  match conflict_node g with
  | None => Ok None
  | Some cn =>
      match rev (decisions g) with
      | [] => Ok None
      | last_decision :: _ =>
          paths <- all_simple_paths g last_decision cn ;;
          match paths with
          | [] => Raise (StopIteration in_find_uips)
          | first_path :: other_paths =>
              Ok (Some
                (fold_left
                   (fun common_nodes path =>
                      filter (fun n => node_in n common_nodes) path)
                   other_paths
                   (filter (fun n => negb (node_eqb n cn)) first_path)))
          end
      end
  end.

(** [ImplicationGraph.find_first_uip]. *)
Definition find_first_uip (g : ImplicationGraph) : result (option Node) :=
  uips <- find_uips g ;;
  match uips with
  | Some l => match rev l with
              | [] => Ok None
              | u :: _ => Ok (Some u)
              end
  | None => Ok None
  end.

(** [set.add] on a set of integers. *)
Definition nat_set_add (n : nat) (s : list nat) : list nat :=
  if existsb (Nat.eqb n) s then s else s ++ [n].

(** Insertion into a list sorted in descending order. *)
Fixpoint insert_descending (n : nat) (l : list nat) : list nat :=
  match l with
  | [] => [n]
  | m :: rest => if Nat.leb m n then n :: l else m :: insert_descending n rest
  end.

(** [sorted(s, reverse=True)]. *)
Definition sorted_reverse (l : list nat) : list nat :=
  fold_right insert_descending [] l.

(** The inner loop of [get_conflict_information], over the edges into one
    successor. *)
Definition conflict_information_of_edges (es : list Edge)
    (acc : list nat * list nat) : list nat * list nat :=
  fold_left
    (fun '(antecedents, decision_levels) predecessor_edge =>
       (nat_set_add (antecedent predecessor_edge) antecedents,
        nat_set_add (node_level (source predecessor_edge)) decision_levels))
    es acc.

Section GraphSetOrder.

Variable set_order : forall A : Type, list A -> list A.

(** [ImplicationGraph.get_conflict_information]: the set of antecedents
    (as inserted) and the decision levels in descending order. *)
Definition get_conflict_information (g : ImplicationGraph)
    (first_uip : option Node) : result (list nat * list nat) :=
  match first_uip with
  | None => Raise NetworkXError
  | Some u =>
      if negb (node_in u (graph_nodes g)) then Raise NetworkXError
      else
        let '(antecedents, decision_levels) :=
          fold_left
            (fun '(antecedents, decision_levels) successor =>
               conflict_information_of_edges (nx_in_edges g successor)
                 (antecedents,
                  nat_set_add (node_level successor) decision_levels))
            (nx_successors g u) ([], []) in
        Ok (antecedents, sorted_reverse (set_order _ decision_levels))
  end.

(** [k] times [list.pop()]. *)
Fixpoint pop_times (k : nat) (l : list Node) : list Node :=
  match k with
  | O => l
  | S k' => pop_times k' (removelast l)
  end.

(** [while len(self.decisions) > keep: self.decisions.pop()]. *)
Definition pop_decisions (keep : nat) (l : list Node) : list Node :=
  pop_times (length l - keep) l.

(** [ImplicationGraph.clear_decisions].  The conflict-node attribute of
    the graph is not assigned by this method. *)
Definition clear_decisions (g : ImplicationGraph) (st : Store)
    (last_decision_level_to_keep : nat) : ImplicationGraph * Store :=
  let g1 := mkGraph (graph_nodes g) (graph_edges g)
              (pop_decisions last_decision_level_to_keep (decisions g))
              (conflict_node g) (allocated g) in
  let nodes_to_delete :=
    filter (fun n => Nat.ltb last_decision_level_to_keep (node_level n))
           (graph_nodes g1) in
  let st1 := fold_left (fun st n => set_value st (variable n) None)
               nodes_to_delete st in
  (fold_left (fun g n => nx_remove_node n g) (set_order _ nodes_to_delete) g1,
   st1).

End GraphSetOrder.

(* ================================================================== *)
(** * solvers.py                                                       *)
(* ================================================================== *)

(** A [dict] keyed by names, in insertion order. *)
Definition NameDict := list (string * Atom).

Fixpoint dict_get (k : string) (d : NameDict) : option Atom :=
  match d with
  | [] => None
  | (k', a) :: rest => if String.eqb k k' then Some a else dict_get k rest
  end.

(** [variables.values()]. *)
Definition dict_values (d : NameDict) : list Atom := map snd d.

(** The inner loop of [canonize_clauses], over the literals of one clause:
    a name that is not yet a key is bound to the literal's own atom, and
    [variables[atom.name]] is then read back. *)
Fixpoint canonize_literals (variables : NameDict) (ls : list Literal)
  : NameDict * list Literal :=
  match ls with
  | [] => (variables, [])
  | literal :: rest =>
      let a := atom literal in
      let '(variables1, canon) :=
        match dict_get (name a) variables with
        | None => (variables ++ [(name a, a)], a)
        | Some canon => (variables, canon)
        end in
      let canon_literal := mkLiteral canon (positive literal) in
      let '(variables2, clause_literals) := canonize_literals variables1 rest in
      (variables2, canon_literal :: clause_literals)
  end.

(** The outer loop of [canonize_clauses]. *)
Fixpoint canonize_loop (variables : NameDict) (cs : list Clause)
  : NameDict * list Clause :=
  match cs with
  | [] => (variables, [])
  | clause :: rest =>
      let '(variables1, clause_literals) :=
        canonize_literals variables (literals clause) in
      let '(variables2, new_clauses) := canonize_loop variables1 rest in
      (variables2, mkClause clause_literals :: new_clauses)
  end.

(** [canonize_clauses]. *)
Definition canonize_clauses (cs : list Clause) : NameDict * list Clause :=
  canonize_loop [] cs.

(** The state of a [SimpleSatSolver] together with the values of the atoms.
    [solver_conflict_node] is the attribute [self.conflict_node] of the
    solver object, which [resolve_conflict] assigns. *)
Record Solver := mkSolver {
  variables : NameDict;
  clauses : list Clause;
  implication_graph : ImplicationGraph;
  decision_level : nat;
  solver_conflict_node : option Node;
  values : Store
}.

Definition with_graph (s : Solver) (g : ImplicationGraph) (st : Store) : Solver :=
  mkSolver (variables s) (clauses s) g (decision_level s)
           (solver_conflict_node s) st.

(** [SatSolver.get_assignment]: a dictionary keyed by atoms. *)
Definition AtomDict (V : Type) := list (Atom * V).

Fixpoint atom_dict_get {V : Type} (a : Atom) (d : AtomDict V) : option V :=
  match d with
  | [] => None
  | (k, v) :: rest => if atom_eqb a k then Some v else atom_dict_get a rest
  end.

(** [d[a] = v]: an existing key keeps its place (and its key object). *)
Fixpoint atom_dict_set {V : Type} (a : Atom) (v : V) (d : AtomDict V)
  : AtomDict V :=
  match d with
  | [] => [(a, v)]
  | (k, w) :: rest =>
      if atom_eqb a k then (k, v) :: rest else (k, w) :: atom_dict_set a v rest
  end.

Definition get_assignment (s : Solver) : AtomDict (option bool) :=
  fold_left (fun assignments var => atom_dict_set var (value (values s) var) assignments)
            (dict_values (variables s)) [].

(** The first element that satisfies [p], with its index. *)
Fixpoint find_indexed {A : Type} (p : A -> bool) (i : nat) (l : list A)
  : option (nat * A) :=
  match l with
  | [] => None
  | x :: rest => if p x then Some (i, x) else find_indexed p (S i) rest
  end.

(** [SimpleSatSolver.decide_simple]. *)
Definition decide_simple (s : Solver) : result (bool * Solver) :=
  match find (is_unresolved (values s)) (clauses s) with
  | None => Ok (false, s)
  | Some clause =>
      match find (fun v => negb (has_value (values s) v)) (literals clause) with
      | None => Raise AttributeError
      | Some v =>
          let st := set_value (values s) (atom v) (Some true) in
          Ok (true,
              with_graph s
                (add_decision (implication_graph s) (atom v) true (decision_level s))
                st)
      end
  end.

(** [d[a] += 1]. *)
Fixpoint atom_dict_incr (a : Atom) (d : AtomDict nat) : AtomDict nat :=
  match d with
  | [] => []
  | (k, n) :: rest =>
      if atom_eqb a k then (k, S n) :: rest else (k, n) :: atom_dict_incr a rest
  end.

Definition atom_dict_mem {V : Type} (a : Atom) (d : AtomDict V) : bool :=
  match atom_dict_get a d with Some _ => true | None => false end.

(** The body of the inner loop of [decide_dlis], for one unassigned literal. *)
Definition dlis_count_literal (counts : AtomDict nat * AtomDict nat) (l : Literal)
  : AtomDict nat * AtomDict nat :=
  let '(pos_count, neg_count) := counts in
  let '(pos_count, neg_count) :=
    if negb (atom_dict_mem (atom l) pos_count)
    then (atom_dict_set (atom l) 0 pos_count, atom_dict_set (atom l) 0 neg_count)
    else (pos_count, neg_count) in
  if positive l
  then (atom_dict_incr (atom l) pos_count, neg_count)
  else (pos_count, atom_dict_incr (atom l) neg_count).

(** The counting loops of [decide_dlis]: the two dictionaries and [count]. *)
Definition dlis_counts (st : Store) (cs : list Clause)
  : AtomDict nat * AtomDict nat * nat :=
  fold_left
    (fun '(counts, count) clause =>
       (fold_left dlis_count_literal
          (filter (fun v => negb (has_value st v)) (literals clause)) counts,
        S count))
    (filter (is_unresolved st) cs) (([], []), 0).

(** [max(d, key=lambda k: d[k])]: the first key with the largest count. *)
Fixpoint dict_max (d : AtomDict nat) : option (Atom * nat) :=
  match d with
  | [] => None
  | (k, n) :: rest =>
      match dict_max rest with
      | Some (k', n') => if Nat.ltb n n' then Some (k', n') else Some (k, n)
      | None => Some (k, n)
      end
  end.

(** [d[a]] for a key of the dictionary. *)
Definition count_of (a : Atom) (d : AtomDict nat) : nat :=
  match atom_dict_get a d with Some n => n | None => 0 end.

(** The choice of [decide_dlis]: the variable and its value. *)
Definition dlis_choice (pos_count neg_count : AtomDict nat)
  : result (Atom * bool) :=
  match dict_max pos_count, dict_max neg_count with
  | Some (max_pos, _), Some (max_neg, _) =>
      let chosen :=
        if Nat.ltb (count_of max_neg neg_count) (count_of max_pos pos_count)
        then max_pos else max_neg in
      Ok (chosen, Nat.ltb (count_of chosen neg_count) (count_of chosen pos_count))
  | _, _ => Raise ValueError
  end.

(** [SimpleSatSolver.decide_dlis]. *)
Definition decide_dlis (s : Solver) : result (bool * Solver) :=
  let '(pos_count, neg_count, count) := dlis_counts (values s) (clauses s) in
  if Nat.eqb count 0 then Ok (false, s)
  else
    '(chosen, v) <- dlis_choice pos_count neg_count ;;
    Ok (true,
        with_graph s
          (add_decision (implication_graph s) chosen v (decision_level s))
          (set_value (values s) chosen (Some v))).

(** The decision heuristics of [SimpleSatSolver.__init__] that take no
    input from the user. *)
Inductive Heuristic := simple | dlis.

(** [SimpleSatSolver.decide], with the default hooks (which do nothing). *)
Definition decide (h : Heuristic) (s : Solver) : result (bool * Solver) :=
  match h with
  | simple => decide_simple s
  | dlis => decide_dlis s
  end.

(** [SimpleSatSolver.bcp]; one round of the [while] loop per unit of fuel. *)
Fixpoint bcp (fuel : nat) (s : Solver) : result (bool * Solver) :=
  match fuel with
  | O => Raise OutOfFuel
  | S fuel' =>
      match find_indexed (is_unit (values s)) 0 (clauses s) with
      | None => Ok (true, s)
      | Some (i, unit_clause) =>
          match find (fun l => negb (has_value (values s) l)) (literals unit_clause) with
          | None => Raise (StopIteration in_bcp)
          | Some literal =>
              let st := set_value (values s) (atom literal) (Some (positive literal)) in
              g <- add_forced_decision (implication_graph s) (atom literal)
                     (positive literal) i unit_clause (decision_level s) ;;
              match find_indexed (is_unsatisfied st) 0 (clauses s) with
              | Some (j, clause) =>
                  g' <- add_conflict g (atom literal) j clause (decision_level s) ;;
                  Ok (false, with_graph s g' st)
              | None => bcp fuel' (with_graph s g st)
              end
          end
      end
  end.

Section SolverSetOrder.

Variable set_order : forall A : Type, list A -> list A.

(** The learned clause of [resolve_conflict]: resolution folded over the
    antecedents, from the empty clause. *)
Definition learn (cs : list Clause) (antecedents : list nat) : Clause :=
  fold_left
    (fun learned_clause i =>
       resolve set_order learned_clause (nth i cs (mkClause [])))
    (set_order _ antecedents) (mkClause []).

(** [SimpleSatSolver.resolve_conflict]. *)
Definition resolve_conflict (s : Solver) : result (bool * Solver) :=
  match conflict_node (implication_graph s) with
  | None => Ok (true, s)
  | Some _ =>
      if Nat.leb (decision_level s) 0 then Ok (false, s)
      else
        first_uip <- find_first_uip (implication_graph s) ;;
        '(antecedents, sorted_decision_levels) <-
          get_conflict_information set_order (implication_graph s) first_uip ;;
        match sorted_decision_levels with
        | _ :: level :: _ =>
            let '(g, st) :=
              clear_decisions set_order (implication_graph s) (values s) level in
            let learned_clause := learn (clauses s) antecedents in
            Ok (true,
                mkSolver (variables s) (clauses s ++ [learned_clause]) g level
                         None st)
        | _ => Ok (false, s)
        end
  end.

(** [while not self.bcp(): if not self.resolve_conflict(): return False].
    [inl] when the loop ends normally, [inr] on [return False]. *)
Fixpoint bcp_until_success (inner fuel : nat) (s : Solver)
  : result (Solver + Solver) :=
  match fuel with
  | O => Raise OutOfFuel
  | S fuel' =>
      '(ok, s1) <- bcp inner s ;;
      if ok then Ok (inl s1)
      else
        '(resolved, s2) <- resolve_conflict s1 ;;
        if resolved then bcp_until_success inner fuel' s2
        else Ok (inr s2)
  end.

(** The [while True] loop of [solve_internal]. *)
Fixpoint main_loop (h : Heuristic) (inner fuel : nat) (s : Solver)
  : result (bool * Solver) :=
  match fuel with
  | O => Raise OutOfFuel
  | S fuel' =>
      let s1 := mkSolver (variables s) (clauses s) (implication_graph s)
                  (decision_level s + 1) (solver_conflict_node s) (values s) in
      '(decided, s2) <- decide h s1 ;;
      if negb decided then Ok (true, s2)
      else
        r <- bcp_until_success inner inner s2 ;;
        match r with
        | inl s3 => main_loop h inner fuel' s3
        | inr s3 => Ok (false, s3)
        end
  end.

(** [SimpleSatSolver.solve_internal]: [true] for SAT, [false] for UNSAT,
    with the final state. *)
Definition solve_internal (h : Heuristic) (fuel : nat) (s : Solver)
  : result (bool * Solver) :=
  let s0 := mkSolver (variables s) (clauses s) new_graph 0
              (solver_conflict_node s) (values s) in
  '(_, s1) <- bcp fuel s0 ;;
  '(resolved, s2) <- resolve_conflict s1 ;;
  if negb resolved then Ok (false, s2)
  else main_loop h fuel fuel s2.

(** [SatSolver.solve], entered with the atoms' values [st]. *)
Definition solve (h : Heuristic) (fuel : nat) (cs : list Clause) (st : Store)
  : result (bool * Solver) :=
  let '(variables, clauses) := canonize_clauses cs in
  let st0 := fold_left (fun st var => set_value st var None)
               (dict_values variables) st in
  solve_internal h fuel (mkSolver variables clauses new_graph 0 None st0).

End SolverSetOrder.

(* ------------------------------------------------------------------ *)
(** ** [class BruteForceSatSolver] (solvers.py)                        *)
(* ------------------------------------------------------------------ *)

(** [all(any(clause.literals) for clause in self.clauses)]: [any] asks each
    literal for its [__bool__], without looking at [has_value]. *)
Definition all_clauses_true (st : Store) (cs : list Clause) : bool :=
  forallb (fun clause => existsb (literal_bool st) (literals clause)) cs.

(** [BruteForceSatSolver.assign_next].  The iterator over the variables is
    one object shared by all the calls, so what is left of it is threaded
    through them together with the values of the atoms; the result is the
    value returned ([None] or the clause list), the rest of the iterator and
    the values.  [variable.value = True] on [None] is an [AttributeError]. *)
Fixpoint assign_next (fuel : nat) (cs : list Clause) (variable : option Atom)
    (iterator : list Atom) (st : Store)
  : result (option (list Clause) * list Atom * Store) :=
  match fuel with
  | O => Raise OutOfFuel
  | S fuel' =>
      if match variable with None => true | Some _ => false end &&
         all_clauses_true st cs
      then Ok (Some cs, iterator, st)
      else
        let next_var := hd_error iterator in
        let iterator1 := tl iterator in
        match variable with
        | None => Raise AttributeError
        | Some v =>
            '(temp, iterator2, st2) <-
              assign_next fuel' cs next_var iterator1 (set_value st v (Some true)) ;;
            match temp with
            | Some t => Ok (Some t, iterator2, st2)
            | None =>
                '(temp, iterator3, st3) <-
                  assign_next fuel' cs next_var iterator2
                    (set_value st2 v (Some false)) ;;
                match temp with
                | Some t => Ok (Some t, iterator3, st3)
                | None => Ok (None, iterator3, st3)
                end
            end
        end
  end.

(** [BruteForceSatSolver.solve_internal], on the dictionary, the clauses
    and the values that [SatSolver.solve] has set up. *)
Definition brute_force_solve_internal (fuel : nat) (vs : NameDict)
    (cs : list Clause) (st : Store)
  : result (option (list Clause) * list Atom * Store) :=
  let iterator := dict_values vs in
  assign_next fuel cs (hd_error iterator) (tl iterator) st.

(** [SatSolver.solve] for a [BruteForceSatSolver]: the value returned and
    the values of the atoms. *)
Definition brute_force_solve (fuel : nat) (cs : list Clause) (st : Store)
  : result (option (list Clause) * Store) :=
  let '(variables, clauses) := canonize_clauses cs in
  let st0 := fold_left (fun st var => set_value st var None)
               (dict_values variables) st in
  '(answer, _, st1) <- brute_force_solve_internal fuel variables clauses st0 ;;
  Ok (answer, st1).

(* ================================================================== *)
(** * parsing.py                                                       *)
(* ================================================================== *)

(** The state of a scan for the pattern [-?\d+]: nothing matched yet, a
    minus sign that may start a match, or the digits matched so far. *)
Inductive scan_state :=
| Idle
| Minus
| Digits (negative : bool) (magnitude : Z).

(** The value of a decimal digit, for the ASCII digits. *)
Definition digit_of (c : Ascii.ascii) : option Z :=
  let n := Z.of_N (Ascii.N_of_ascii c) in
  if Z.leb 48 n && Z.leb n 57 then Some (n - 48)%Z else None.

(** [int(match)] for a match with the given sign and digits. *)
Definition int_of_match (negative : bool) (magnitude : Z) : Z :=
  if negative then (- magnitude)%Z else magnitude.

(** The match that ends when the scan leaves [state]. *)
Definition finished (state : scan_state) : list Z :=
  match state with
  | Digits negative magnitude => [int_of_match negative magnitude]
  | _ => []
  end.

(** [[int(match) for match in re.findall(r"(-?\d+)", text)]], for a text of
    ASCII characters: the matches are found from left to right, each as long
    as possible; a minus sign belongs to a match only when a digit follows
    it.  (In a text with other characters [\d] also matches the other
    decimal digits of Unicode, and recent versions of Python refuse to
    convert a numeral of more than 4300 digits; neither is modelled.) *)
Fixpoint findall_ints (state : scan_state) (text : string) : list Z :=
  match text with
  | EmptyString => finished state
  | String c rest =>
      match digit_of c with
      | Some d =>
          match state with
          | Digits negative magnitude =>
              findall_ints (Digits negative (10 * magnitude + d)%Z) rest
          | Minus => findall_ints (Digits true d) rest
          | Idle => findall_ints (Digits false d) rest
          end
      | None =>
          finished state ++
          findall_ints (if Ascii.eqb c "-"%char then Minus else Idle) rest
      end
  end.

(** [str(abs(result))]. *)
Definition str_of_abs (result : Z) : string :=
  DecimalString.NilZero.string_of_uint (N.to_uint (Z.abs_N result)).

(** The loop of [DimacsParser.parse] over the integers of the matches.
    [Atom(name)] creates an object, with the next free identity
    [next_id]. *)
Fixpoint parse_loop (matches : list Z) (clauses : list Clause)
    (clause : list Literal) (atoms : NameDict) (next_id : nat) : list Clause :=
  match matches with
  | [] => clauses
  | result :: rest =>
      if Z.eqb result 0
      then parse_loop rest (clauses ++ [mkClause clause]) [] atoms next_id
      else
        let name := str_of_abs result in
        let pos := Z.ltb 0 result in
        let '(atoms1, a, next_id1) :=
          match dict_get name atoms with
          | None => (atoms ++ [(name, mkAtom next_id name)],
                     mkAtom next_id name, S next_id)
          | Some a => (atoms, a, next_id)
          end in
        parse_loop rest clauses (clause ++ [mkLiteral a pos]) atoms1 next_id1
  end.

(** [DimacsParser.parse], from the integers of the matches on. *)
Definition parse_matches (matches : list Z) (next_id : nat) : list Clause :=
  parse_loop matches [] [] [] next_id.

(** [DimacsParser.parse] (and [parse_dimacs] of __init__.py). *)
Definition parse (text : string) (next_id : nat) : list Clause :=
  parse_matches (findall_ints Idle text) next_id.

(* ================================================================== *)
(** * Notions used in the statements                                   *)
(* ================================================================== *)

Definition b2n (b : bool) : nat := if b then 1 else 0.

(** How many of the four status predicates hold for a clause. *)
Definition status_count (st : Store) (c : Clause) : nat :=
  b2n (is_satisfied st c) + b2n (is_unsatisfied st c) +
  b2n (is_unit st c) + b2n (is_unresolved st c).

(** Two stores give the atoms of a clause the same values. *)
Definition agree_on (c : Clause) (st st' : Store) : Prop :=
  forall l, In l (literals c) -> value st' (atom l) = value st (atom l).

(** All the literals of a list of clauses. *)
Definition all_literals (cs : list Clause) : list Literal :=
  flat_map literals cs.

(** A clause has a literal that is true in the store. *)
Definition clause_true (st : Store) (c : Clause) : bool :=
  existsb (fun l => has_value st l && literal_bool st l) (literals c).

(** The truth value of a literal under a total assignment of the names. *)
Definition literal_holds (sigma : string -> bool) (l : Literal) : bool :=
  Bool.eqb (sigma (name (atom l))) (positive l).

(** A total assignment satisfies every clause. *)
Definition satisfies (sigma : string -> bool) (cs : list Clause) : bool :=
  forallb (fun c => existsb (literal_holds sigma) (literals c)) cs.

(* ================================================================== *)
(** * Concrete inputs                                                  *)
(* ================================================================== *)

(** The atoms that [DimacsParser.parse] creates for the names 1 to 4: one
    object per name. *)
Definition x1 : Atom := mkAtom 1 "1".
Definition x2 : Atom := mkAtom 2 "2".
Definition x3 : Atom := mkAtom 3 "3".
Definition x4 : Atom := mkAtom 4 "4".

Definition Pos (a : Atom) : Literal := mkLiteral a true.
Definition Neg (a : Atom) : Literal := mkLiteral a false.

(** Fresh atoms: no value yet. *)
Definition no_values : Store := fun _ => None.

(** The fourth clause of the built-in sample, [-2 4 2 0]. *)
Definition sample_clause_4 : Clause := mkClause [Neg x2; Pos x4; Pos x2].

(** [1 -2 0]. *)
Definition clause_1_not2 : Clause := mkClause [Pos x1; Neg x2].

(** Every key of the dictionary is the name of the atom stored under it. *)
Definition dict_wf (d : NameDict) : Prop :=
  forall k a, dict_get k d = Some a -> name a = k.

(** [d'] has the entries of [d]. *)
Definition dict_extends (d d' : NameDict) : Prop :=
  forall k a, dict_get k d = Some a -> dict_get k d' = Some a.

(** The implication graph in which the solver stops on [-1 2 0 -1 -2 0]:
    the decision 1 = true at level 1, the forced 2 = true with antecedent
    clause 0, and the conflict with clause 1. *)
Definition node_1 : Node := DecisionNode 0 x1 true 1.
Definition node_2 : Node := DecisionNode 1 x2 true 1.
Definition node_conflict : Node := ConflictNode 2 x2 1.

Definition conflict_graph : ImplicationGraph :=
  mkGraph [node_1; node_2; node_conflict]
          [mkEdge node_1 node_2 0; mkEdge node_1 node_conflict 1;
           mkEdge node_2 node_conflict 1]
          [node_1] (Some node_conflict) 3.

Definition conflict_values : Store :=
  set_value (set_value no_values x1 (Some true)) x2 (Some true).

(** The unassigned literals of the unresolved clauses, in the order in
    which [decide_dlis] visits them. *)
Definition open_literals (st : Store) (cs : list Clause) : list Literal :=
  flat_map (fun c => filter (fun v => negb (has_value st v)) (literals c))
           (filter (is_unresolved st) cs).

(** p(v) for [pol = true] and n(v) for [pol = false]: how often the
    variable named like [a] occurs with polarity [pol] among the unassigned
    literals of the unresolved clauses. *)
Definition occurrences (pol : bool) (st : Store) (cs : list Clause) (a : Atom)
  : nat :=
  length (filter (fun l => atom_eqb a (atom l) && Bool.eqb (positive l) pol)
                 (open_literals st cs)).

(** max(p(v), n(v)). *)
Definition dlis_score (st : Store) (cs : list Clause) (a : Atom) : nat :=
  Nat.max (occurrences true st cs a) (occurrences false st cs a).

(** [a] is the atom of an unassigned literal of an unresolved clause. *)
Definition dlis_candidate (st : Store) (cs : list Clause) (a : Atom) : Prop :=
  exists c l, In c cs /\ is_unresolved st c = true /\
              In l (literals c) /\ has_value st l = false /\ atom l = a.

(** The keys of a dictionary have distinct names. *)
Definition distinct_keys {V : Type} (d : AtomDict V) : Prop :=
  NoDup (map (fun kv => name (fst kv)) d).

(** [1 2 0 -1 3 0] before any assignment, at decision level 1. *)
Definition tie_state : Solver :=
  mkSolver [("1", x1); ("2", x2); ("3", x3)]
           [mkClause [Pos x1; Pos x2]; mkClause [Neg x1; Pos x3]]
           new_graph 1 None no_values.

(** The two dictionaries of [decide_dlis] have the same keys. *)
Definition same_keys (pos neg : AtomDict nat) : Prop :=
  forall a, atom_dict_mem a pos = atom_dict_mem a neg.

(** Every key of the dictionary is the atom of a literal of [ls]. *)
Definition keys_from (ls : list Literal) (d : AtomDict nat) : Prop :=
  forall k n, In (k, n) d -> exists l, In l ls /\ atom l = k.

(** The entries of the dictionary: each key is the name of its atom, and no
    key is bound twice. *)
Definition dict_entries_ok (d : NameDict) : Prop :=
  Forall (fun ka => name (snd ka) = fst ka) d /\ NoDup (map fst d).

(** [-1 -1 0]. *)
Definition twice_not1 : list Clause := [mkClause [Neg x1; Neg x1]].

(** [0]: the empty clause alone. *)
Definition only_empty_clause : list Clause := [mkClause []].

(** [-1 2 0 -1 -2 0]. *)
Definition not1_implies_both : list Clause :=
  [mkClause [Neg x1; Pos x2]; mkClause [Neg x1; Neg x2]].

(** [1 2 0]. *)
Definition one_or_two : list Clause := [mkClause [Pos x1; Pos x2]].

(** [a] is the atom object that stands for its name in the dictionary. *)
Definition canonical (V : NameDict) (a : Atom) : Prop :=
  dict_get (name a) V = Some a.

(** The decision nodes of the graph for the variable [a]. *)
Definition decision_nodes_of (g : ImplicationGraph) (a : Atom) : list Node :=
  filter (fun n => is_decision_node n && atom_eqb (variable n) a) (graph_nodes g).

(** The atoms of the input are objects: two of them with the same identity
    are the same atom. *)
Definition atoms_are_objects (cs : list Clause) : Prop :=
  forall l1 l2, In l1 (all_literals cs) -> In l2 (all_literals cs) ->
                aid (atom l1) = aid (atom l2) -> atom l1 = atom l2.

(** What a solver run keeps true of the dictionary and the clause list:
    the dictionary is well formed, its atoms are distinct objects, and the
    clauses only use these atoms. *)
Record clauses_invariant (V : NameDict) (cs : list Clause) : Prop := {
  inv_dict : dict_entries_ok V;
  inv_objects : forall a b, canonical V a -> canonical V b ->
                            aid a = aid b -> a = b;
  inv_literals : forall l, In l (all_literals cs) -> canonical V (atom l)
}.

(** What a solver run keeps true of the implication graph at decision
    level [dl] and of the values [st] of the atoms.  The sixth field is the
    link between the two: a variable has one decision node when it is
    assigned and none when it is not.  The last field says that a conflict
    node is at the current level, is recorded by the graph, and sits next to
    the decision node of its variable at that level. *)
Record graph_invariant (V : NameDict) (g : ImplicationGraph) (dl : nat)
    (st : Store) : Prop := {
  inv_node_atoms : forall n, In n (graph_nodes g) -> canonical V (variable n);
  inv_node_levels : forall n, In n (graph_nodes g) -> node_level n <= dl;
  inv_node_ids : forall n, In n (graph_nodes g) -> nid n < allocated g;
  inv_node_distinct : NoDup (map nid (graph_nodes g));
  inv_edge_ends : forall e, In e (graph_edges g) ->
      In (source e) (graph_nodes g) /\ In (target e) (graph_nodes g);
  inv_one_node : forall a, canonical V a ->
      length (decision_nodes_of g a) = b2n (atom_has_value st a);
  inv_conflict_nodes : forall n, In n (graph_nodes g) ->
      is_decision_node n = false ->
      node_level n = dl /\ conflict_node g <> None /\
      exists m, In m (graph_nodes g) /\ is_decision_node m = true /\
                variable m = variable n /\ node_level m = dl
}.

Definition solver_invariant (s : Solver) : Prop :=
  clauses_invariant (variables s) (clauses s) /\
  graph_invariant (variables s) (implication_graph s) (decision_level s)
                  (values s).

(** No conflict node is in the graph. *)
Definition no_conflict_node (g : ImplicationGraph) : Prop :=
  forall n, In n (graph_nodes g) -> is_decision_node n = true.

(** The exceptions of the predecessor lookups of [add_forced_decision] and
    [add_conflict]. *)
Definition is_lookup_error (e : error) : bool :=
  match e with
  | StopIteration in_add_forced_decision => true
  | StopIteration in_add_conflict => true
  | _ => false
  end.

(** The state in which [solve] enters [solve_internal]. *)
Definition initial_state (cs : list Clause) (st : Store) : Solver :=
  mkSolver (fst (canonize_clauses cs)) (snd (canonize_clauses cs)) new_graph 0
           None
           (fold_left (fun st var => set_value st var None)
                      (dict_values (fst (canonize_clauses cs))) st).

(** The list goes down from left to right. *)
Fixpoint descending (l : list nat) : Prop :=
  match l with
  | [] => True
  | x :: rest => (forall y, In y rest -> y <= x) /\ descending rest
  end.

(** A clause holds under a total assignment of the names. *)
Definition clause_holds (sigma : string -> bool) (c : Clause) : bool :=
  existsb (literal_holds sigma) (literals c).

(** The atoms that occur with both polarities in the two clauses taken
    together all have one name: the clauses clash on one variable. *)
Definition single_pivot (c1 c2 : Clause) : bool :=
  let u := mkClause (literals c1 ++ literals c2) in
  forallb
    (fun l =>
       forallb
         (fun l' =>
            negb (literal_in (complement l) u) ||
            negb (literal_in (complement l') u) ||
            atom_eqb (atom l) (atom l'))
         (literals u))
    (literals u).

(** Every value of [st] is a value of [st']: atoms were assigned, none was
    changed or reset. *)
Definition store_extends (st st' : Store) : Prop :=
  forall i b, st i = Some b -> st' i = Some b.

(** Each element is below the one before it. *)
Fixpoint strictly_descending (l : list nat) : Prop :=
  match l with
  | [] => True
  | x :: rest =>
      match rest with
      | [] => True
      | y :: _ => y < x /\ strictly_descending rest
      end
  end.

(** [1 2 0] and [-1 3 0]. *)
Definition clause_1_2 : Clause := mkClause [Pos x1; Pos x2].
Definition clause_not1_3 : Clause := mkClause [Neg x1; Pos x3].

(** [-1 2 0] with 1 = true: a unit clause. *)
Definition clause_not1_2 : Clause := mkClause [Neg x1; Pos x2].
Definition values_1_true : Store := set_value no_values x1 (Some true).

(** How many literal occurrences of the clause list have no value: what a
    round of [bcp] makes smaller. *)
Definition unassigned_occurrences (st : Store) (cs : list Clause) : nat :=
  length (filter (fun l => negb (has_value st l)) (all_literals cs)).

(** The values of the store are those of the total assignment [sigma], on
    the atoms of the clause list. *)
Definition store_agrees (sigma : string -> bool) (st : Store) (cs : list Clause)
  : Prop :=
  forall l b, In l (all_literals cs) -> value st (atom l) = Some b ->
              sigma (name (atom l)) = b.

(** [1 0 -1 2 0]. *)
Definition unit_then_chain : list Clause :=
  [mkClause [Pos x1]; mkClause [Neg x1; Pos x2]].

(** [1 0 -1 0]. *)
Definition one_and_not_one : list Clause :=
  [mkClause [Pos x1]; mkClause [Neg x1]].

(** [-1 -2 3 0 -1 -2 -3 0]. *)
Definition backjump_clauses : list Clause :=
  [mkClause [Neg x1; Neg x2; Pos x3]; mkClause [Neg x1; Neg x2; Neg x3]].

(** What a literal says: the name of its variable and its polarity. *)
Definition literal_signature (l : Literal) : string * bool :=
  (name (atom l), positive l).

(** In the clause list a name belongs to one atom object. *)
Definition names_determine_atoms (cs : list Clause) : Prop :=
  forall l1 l2, In l1 (all_literals cs) -> In l2 (all_literals cs) ->
                name (atom l1) = name (atom l2) -> atom l1 = atom l2.

(** The state in which the solver meets its first conflict on
    [-1 -2 3 0 -1 -2 -3 0] with the simple heuristic: 1 = true decided at
    level 1, 2 = true decided at level 2, 3 = true forced by clause 0, and
    clause 1 unsatisfied. *)
Definition backjump_node_1 : Node := DecisionNode 0 x1 true 1.
Definition backjump_node_2 : Node := DecisionNode 1 x2 true 2.
Definition backjump_node_3 : Node := DecisionNode 2 x3 true 2.
Definition backjump_conflict : Node := ConflictNode 3 x3 2.

Definition backjump_values : Store :=
  set_value
    (set_value
       (set_value (values (initial_state backjump_clauses no_values))
          x1 (Some true))
       x2 (Some true))
    x3 (Some true).

Definition backjump_state : Solver :=
  mkSolver [("1", x1); ("2", x2); ("3", x3)] backjump_clauses
    (mkGraph
       [backjump_node_1; backjump_node_2; backjump_node_3; backjump_conflict]
       [mkEdge backjump_node_1 backjump_node_3 0;
        mkEdge backjump_node_2 backjump_node_3 0;
        mkEdge backjump_node_1 backjump_conflict 1;
        mkEdge backjump_node_2 backjump_conflict 1;
        mkEdge backjump_node_3 backjump_conflict 1]
       [backjump_node_1; backjump_node_2] (Some backjump_conflict) 4)
    2 None backjump_values.

(** The state in which [main_loop] calls [decide]: the next level. *)
Definition next_level (s : Solver) : Solver :=
  mkSolver (variables s) (clauses s) (implication_graph s)
           (decision_level s + 1) (solver_conflict_node s) (values s).

(** Every clause has a literal without negation. *)
Definition all_clauses_have_positive (cs : list Clause) : bool :=
  forallb (fun clause => existsb positive (literals clause)) cs.

(** [-1 0]. *)
Definition only_not1 : list Clause := [mkClause [Neg x1]].

(** The name and the polarity that the parser gives the literal of a
    non-zero integer. *)
Definition token_signature (result : Z) : string * bool :=
  (str_of_abs result, Z.ltb 0 result).

(** The integers before each zero, group by group; what follows the last
    zero belongs to no group. *)
Fixpoint groups_before_zeros (matches : list Z) (current : list Z)
  : list (list Z) :=
  match matches with
  | [] => []
  | z :: rest =>
      if Z.eqb z 0 then current :: groups_before_zeros rest []
      else groups_before_zeros rest (current ++ [z])
  end.

(** A character that can be part of a match. *)
Definition in_pattern (c : Ascii.ascii) : bool :=
  match digit_of c with Some _ => true | None => Ascii.eqb c "-"%char end.

(** The text with every character that cannot be part of a match replaced
    by a space. *)
Fixpoint blank_others (text : string) : string :=
  match text with
  | EmptyString => EmptyString
  | String c rest =>
      String (if in_pattern c then c else " "%char) (blank_others rest)
  end.

(** [test_instance_string] of __init__.py. *)
Definition test_instance_string : string :=
  "1 2 0 -1 -2 0 3 4 0 -2 4 2 0 -3 -4 0".

(** The assignment of the names that a final state stands for: the value of
    the atom that the dictionary holds for the name, with [False] for an
    atom without value and for a name that is not a key. *)
Definition assignment_of (s : Solver) : string -> bool :=
  fun k =>
    match dict_get k (variables s) with
    | Some a => atom_bool (values s) a
    | None => false
    end.

(** The decision stack holds one node per decision level, from level 1 up
    to the current level. *)
Definition stack_follows_levels (s : Solver) : Prop :=
  map node_level (decisions (implication_graph s)) = seq 1 (decision_level s).

(* ================================================================== *)
(** * Proofs: clause status (base.py)                                  *)
(* ================================================================== *)

Section BaseFacts.

Lemma filter_length_le {A} (f : A -> bool) l : length (filter f l) <= length l.
Proof. induction l as [|x l IH]; simpl; [lia|]. destruct (f x); simpl; lia. Qed.

Lemma forallb_filter_id {A} (f : A -> bool) l :
  forallb f l = true -> filter f l = l.
Proof.
  induction l as [|x l IH]; simpl; [reflexivity|].
  intros H. apply andb_prop in H as [Hx Hl]. rewrite Hx, IH by assumption. reflexivity.
Qed.

Lemma existsb_filter_weaken {A} (f p : A -> bool) l :
  existsb p (filter f l) = true -> existsb p l = true.
Proof.
  rewrite !existsb_exists. intros [x [Hin Hp]].
  apply filter_In in Hin as [Hin _]. eauto.
Qed.

Lemma satisfied_not_unsatisfied st c :
  is_satisfied st c = true -> is_unsatisfied st c = false.
Proof.
  unfold is_satisfied, is_unsatisfied. intros H.
  apply existsb_filter_weaken in H. rewrite H.
  destruct (negb _); reflexivity.
Qed.

Lemma unit_not_satisfied st c :
  is_unit st c = true -> is_satisfied st c = false.
Proof.
  unfold is_unit, is_satisfied.
  destruct (Z.eqb _ _); [|discriminate].
  intros H. apply negb_true_iff in H. exact H.
Qed.

Lemma unit_not_unsatisfied st c :
  is_unit st c = true -> is_unsatisfied st c = false.
Proof.
  unfold is_unit, is_unsatisfied.
  destruct (Z.eqb_spec (Z.of_nat (length (filter (has_value st) (literals c))))
                       (Z.of_nat (length (literals c)) - 1)) as [E|]; [|discriminate].
  intros _. destruct (forallb (has_value st) (literals c)) eqn:F; [|reflexivity].
  rewrite (forallb_filter_id _ _ F) in E. lia.
Qed.

Lemma status_exclusive_exhaustive st c : status_count st c = 1.
Proof.
  unfold status_count, is_unresolved.
  pose proof (satisfied_not_unsatisfied st c).
  pose proof (unit_not_satisfied st c).
  pose proof (unit_not_unsatisfied st c).
  destruct (is_satisfied st c), (is_unsatisfied st c), (is_unit st c);
    simpl; try reflexivity;
    repeat match goal with H : true = true -> _ |- _ => specialize (H eq_refl) end;
    discriminate.
Qed.

Lemma has_value_agree st st' l :
  value st' (atom l) = value st (atom l) -> has_value st' l = has_value st l.
Proof. unfold has_value, atom_has_value. intros ->. reflexivity. Qed.

Lemma literal_bool_agree st st' l :
  value st' (atom l) = value st (atom l) -> literal_bool st' l = literal_bool st l.
Proof. unfold literal_bool, atom_bool. intros ->. reflexivity. Qed.

Lemma filter_ext_in' {A} (f g : A -> bool) l :
  (forall x, In x l -> f x = g x) -> filter f l = filter g l.
Proof.
  induction l as [|x l IH]; simpl; intros H; [reflexivity|].
  rewrite (H x) by (left; reflexivity). rewrite IH by (intros; apply H; right; assumption).
  reflexivity.
Qed.

Lemma existsb_ext_in {A} (f g : A -> bool) l :
  (forall x, In x l -> f x = g x) -> existsb f l = existsb g l.
Proof.
  induction l as [|x l IH]; simpl; intros H; [reflexivity|].
  rewrite (H x) by (left; reflexivity). rewrite IH by (intros; apply H; right; assumption).
  reflexivity.
Qed.

Lemma forallb_ext_in {A} (f g : A -> bool) l :
  (forall x, In x l -> f x = g x) -> forallb f l = forallb g l.
Proof.
  induction l as [|x l IH]; simpl; intros H; [reflexivity|].
  rewrite (H x) by (left; reflexivity). rewrite IH by (intros; apply H; right; assumption).
  reflexivity.
Qed.

Lemma status_agree st st' c :
  agree_on c st st' ->
  is_satisfied st' c = is_satisfied st c /\
  is_unsatisfied st' c = is_unsatisfied st c /\
  is_unit st' c = is_unit st c /\
  is_unresolved st' c = is_unresolved st c.
Proof.
  intros H.
  assert (Hf : filter (has_value st') (literals c) = filter (has_value st) (literals c)).
  { apply filter_ext_in'. intros l Hl. apply has_value_agree, H, Hl. }
  assert (Ha : forallb (has_value st') (literals c) = forallb (has_value st) (literals c)).
  { apply forallb_ext_in. intros l Hl. apply has_value_agree, H, Hl. }
  assert (He : existsb (literal_bool st') (literals c) = existsb (literal_bool st) (literals c)).
  { apply existsb_ext_in. intros l Hl. apply literal_bool_agree, H, Hl. }
  assert (Hg : existsb (literal_bool st') (filter (has_value st) (literals c)) =
               existsb (literal_bool st) (filter (has_value st) (literals c))).
  { apply existsb_ext_in. intros l Hl. apply filter_In in Hl as [Hl _].
    apply literal_bool_agree, H, Hl. }
  assert (S : is_satisfied st' c = is_satisfied st c).
  { unfold is_satisfied. rewrite Hf, Hg. reflexivity. }
  assert (U : is_unsatisfied st' c = is_unsatisfied st c).
  { unfold is_unsatisfied. rewrite Ha, He. reflexivity. }
  assert (N : is_unit st' c = is_unit st c).
  { unfold is_unit. rewrite Hf, Hg. reflexivity. }
  repeat split; try assumption.
  unfold is_unresolved. rewrite S, U, N. reflexivity.
Qed.

End BaseFacts.

(** C7.  For every clause and every store exactly one of the four status
    predicates [is_satisfied], [is_unsatisfied], [is_unit], [is_unresolved]
    holds, and the four values are the same in any store that gives the
    atoms of the clause the same values. *)
Theorem clause_status_partition (st : Store) (c : Clause) :
  status_count st c = 1 /\
  (forall st', agree_on c st st' ->
     is_satisfied st' c = is_satisfied st c /\
     is_unsatisfied st' c = is_unsatisfied st c /\
     is_unit st' c = is_unit st c /\
     is_unresolved st' c = is_unresolved st c).
Proof.
  split.
  - apply status_exclusive_exhaustive.
  - intros st'. apply status_agree.
Qed.

(* ================================================================== *)
(** * Proofs: resolution (base.py)                                     *)
(* ================================================================== *)

Lemma atom_eqb_refl a : atom_eqb a a = true.
Proof. apply String.eqb_refl. Qed.

Lemma atom_eqb_sym a b : atom_eqb a b = atom_eqb b a.
Proof. apply String.eqb_sym. Qed.

Lemma atom_eqb_eq a b : atom_eqb a b = true <-> name a = name b.
Proof. apply String.eqb_eq. Qed.

Lemma atom_eqb_compat a b c : atom_eqb a b = true -> atom_eqb a c = atom_eqb b c.
Proof. unfold atom_eqb. intros H. apply String.eqb_eq in H. rewrite H. reflexivity. Qed.

Lemma literal_eqb_true l x :
  literal_eqb l x = true <-> atom_eqb (atom l) (atom x) = true /\ positive l = positive x.
Proof.
  unfold literal_eqb. rewrite andb_true_iff, Bool.eqb_true_iff. reflexivity.
Qed.

Lemma literal_eqb_compat l l' x :
  literal_eqb l l' = true -> literal_eqb l x = literal_eqb l' x.
Proof.
  intros H. apply literal_eqb_true in H as [Ha Hp]. unfold literal_eqb.
  rewrite (atom_eqb_compat _ _ _ Ha), Hp. reflexivity.
Qed.

Lemma literal_eqb_sym l x : literal_eqb l x = literal_eqb x l.
Proof.
  unfold literal_eqb. rewrite atom_eqb_sym. f_equal.
  destruct (positive l), (positive x); reflexivity.
Qed.

Lemma existsb_filter {A} (f g : A -> bool) l :
  existsb g (filter f l) = existsb (fun x => f x && g x) l.
Proof.
  induction l as [|x l IH]; simpl; [reflexivity|].
  destruct (f x); simpl; rewrite IH; reflexivity.
Qed.

Lemma existsb_andb_const {A} (b : bool) (g : A -> bool) l :
  existsb (fun x => b && g x) l = b && existsb g l.
Proof.
  induction l as [|x l IH]; simpl.
  - rewrite andb_false_r. reflexivity.
  - rewrite IH. destruct b; reflexivity.
Qed.

Lemma existsb_const_false {A} (l : list A) : existsb (fun _ => false) l = false.
Proof. induction l; simpl; auto. Qed.

Lemma existsb_perm {A} (f : A -> bool) l l' :
  Permutation l l' -> existsb f l = existsb f l'.
Proof.
  induction 1; simpl.
  - reflexivity.
  - rewrite IHPermutation. reflexivity.
  - destruct (f x), (f y); reflexivity.
  - congruence.
Qed.

Lemma literal_set_add_mem (g : Literal -> bool) x s :
  (forall y, literal_eqb x y = true -> g y = g x) ->
  existsb g (literal_set_add x s) = g x || existsb g s.
Proof.
  intros Hg. unfold literal_set_add.
  destruct (existsb (literal_eqb x) s) eqn:E.
  - destruct (g x) eqn:G; [|reflexivity]. simpl.
    apply existsb_exists in E as [y [Hy Hxy]].
    apply existsb_exists. exists y. split; [assumption|].
    apply Hg. exact Hxy.
  - rewrite existsb_app. simpl. rewrite orb_false_r. apply orb_comm.
Qed.

(** What the partition loop collects, for a test [g] that does not
    distinguish equal literals. *)
Lemma partition_literals_mem (g : Literal -> bool) ls :
  (forall x y, literal_eqb x y = true -> g y = g x) ->
  forall pos neg,
    existsb g (fst (partition_literals ls pos neg)) =
      existsb g pos || existsb (fun x => positive x && g x) ls /\
    existsb g (snd (partition_literals ls pos neg)) =
      existsb g neg || existsb (fun x => negb (positive x) && g x) ls.
Proof.
  intros Hg. induction ls as [|x ls IH]; intros pos neg; simpl.
  - rewrite !orb_false_r. split; reflexivity.
  - destruct (positive x); simpl.
    + destruct (IH (literal_set_add x pos) neg) as [-> ->].
      rewrite literal_set_add_mem by (intros; apply Hg; assumption).
      split; [|reflexivity].
      destruct (existsb g pos), (g x); reflexivity.
    + destruct (IH pos (literal_set_add x neg)) as [-> ->].
      rewrite literal_set_add_mem by (intros; apply Hg; assumption).
      split; [reflexivity|].
      destruct (existsb g neg), (g x); reflexivity.
Qed.

Lemma literal_eqb_test_compat l x y :
  literal_eqb x y = true -> literal_eqb l y = literal_eqb l x.
Proof.
  intros H. rewrite (literal_eqb_sym l y), (literal_eqb_sym l x).
  symmetry. apply literal_eqb_compat. exact H.
Qed.

Lemma atom_eqb_test_compat a x y :
  literal_eqb x y = true -> atom_eqb a (atom y) = atom_eqb a (atom x).
Proof.
  intros H. apply literal_eqb_true in H as [H _].
  rewrite (atom_eqb_sym a (atom y)), (atom_eqb_sym a (atom x)).
  symmetry. apply atom_eqb_compat. exact H.
Qed.

Lemma complement_eqb l x :
  literal_eqb (complement l) x =
  atom_eqb (atom l) (atom x) && negb (Bool.eqb (positive l) (positive x)).
Proof.
  unfold literal_eqb, complement. simpl.
  destruct (positive l), (positive x); reflexivity.
Qed.

Section ResolveFacts.

Variable set_order : forall A : Type, list A -> list A.
Hypothesis set_order_perm : forall A (l : list A), Permutation (set_order A l) l.

(** The literals of a resolvent: those of the two operands whose atom does
    not occur with the other polarity in either operand. *)
Lemma resolve_literals c1 c2 l :
  literal_in l (resolve set_order c1 c2) =
  literal_in l (mkClause (literals c1 ++ literals c2)) &&
  negb (literal_in (complement l) (mkClause (literals c1 ++ literals c2))).
Proof.
  unfold resolve, literal_in. simpl.
  set (ls := literals c1 ++ literals c2).
  destruct (partition_literals ls [] []) as [pos neg] eqn:E.
  simpl. rewrite existsb_app, !existsb_filter.
  rewrite (existsb_perm _ _ _ (set_order_perm _ pos)).
  rewrite (existsb_perm _ _ _ (set_order_perm _ neg)).
  assert (Hpos : forall g, (forall x y, literal_eqb x y = true -> g y = g x) ->
            existsb g pos = existsb (fun x => positive x && g x) ls).
  { intros g Hg. pose proof (proj1 (partition_literals_mem g ls Hg [] [])) as H.
    rewrite E in H. exact H. }
  assert (Hneg : forall g, (forall x y, literal_eqb x y = true -> g y = g x) ->
            existsb g neg = existsb (fun x => negb (positive x) && g x) ls).
  { intros g Hg. pose proof (proj2 (partition_literals_mem g ls Hg [] [])) as H.
    rewrite E in H. exact H. }
  assert (Ain : forall a, atom_in a neg =
            existsb (fun x => negb (positive x) && atom_eqb a (atom x)) ls).
  { intros a. unfold atom_in. apply Hneg. intros x y. apply atom_eqb_test_compat. }
  assert (Aip : forall a, atom_in a pos =
            existsb (fun x => positive x && atom_eqb a (atom x)) ls).
  { intros a. unfold atom_in. apply Hpos. intros x y. apply atom_eqb_test_compat. }
  (* the two filters test the atom only, so they do not distinguish equal literals *)
  assert (F1 : existsb (fun x => negb (atom_in (atom x) neg) && literal_eqb l x) pos =
               negb (atom_in (atom l) neg) && existsb (fun x => positive x && literal_eqb l x) ls).
  { rewrite <- (Hpos (literal_eqb l)) by (intros x y; apply literal_eqb_test_compat).
    rewrite (existsb_ext_in _ (fun x => negb (atom_in (atom l) neg) && literal_eqb l x)).
    - apply existsb_andb_const.
    - intros x _. destruct (literal_eqb l x) eqn:Q; [|rewrite !andb_false_r; reflexivity].
      apply literal_eqb_true in Q as [Q _].
      unfold atom_in. f_equal. f_equal. apply existsb_ext_in. intros y _.
      symmetry. apply atom_eqb_compat. exact Q. }
  assert (F2 : existsb (fun x => negb (atom_in (atom x) pos) && literal_eqb l x) neg =
               negb (atom_in (atom l) pos) && existsb (fun x => negb (positive x) && literal_eqb l x) ls).
  { rewrite <- (Hneg (literal_eqb l)) by (intros x y; apply literal_eqb_test_compat).
    rewrite (existsb_ext_in _ (fun x => negb (atom_in (atom l) pos) && literal_eqb l x)).
    - apply existsb_andb_const.
    - intros x _. destruct (literal_eqb l x) eqn:Q; [|rewrite !andb_false_r; reflexivity].
      apply literal_eqb_true in Q as [Q _].
      unfold atom_in. f_equal. f_equal. apply existsb_ext_in. intros y _.
      symmetry. apply atom_eqb_compat. exact Q. }
  rewrite F1, F2, Ain, Aip. clear F1 F2 Ain Aip Hpos Hneg E pos neg.
  (* by cases on the polarity of [l] *)
  destruct (positive l) eqn:P.
  - rewrite (existsb_ext_in (fun x => positive x && literal_eqb l x) (literal_eqb l)).
    2:{ intros x _. destruct (literal_eqb l x) eqn:Q; [|apply andb_false_r].
        apply literal_eqb_true in Q as [_ Q]. rewrite <- Q, P. reflexivity. }
    rewrite (existsb_ext_in (fun x => negb (positive x) && literal_eqb l x) (fun _ => false)).
    2:{ intros x _. destruct (literal_eqb l x) eqn:Q; [|apply andb_false_r].
        apply literal_eqb_true in Q as [_ Q]. rewrite <- Q, P. reflexivity. }
    rewrite (existsb_ext_in (literal_eqb (complement l))
               (fun x => negb (positive x) && atom_eqb (atom l) (atom x))).
    2:{ intros x _. rewrite complement_eqb, P.
        destruct (positive x), (atom_eqb (atom l) (atom x)); reflexivity. }
    rewrite existsb_const_false, andb_false_r, orb_false_r. apply andb_comm.
  - rewrite (existsb_ext_in (fun x => negb (positive x) && literal_eqb l x) (literal_eqb l)).
    2:{ intros x _. destruct (literal_eqb l x) eqn:Q; [|apply andb_false_r].
        apply literal_eqb_true in Q as [_ Q]. rewrite <- Q, P. reflexivity. }
    rewrite (existsb_ext_in (fun x => positive x && literal_eqb l x) (fun _ => false)).
    2:{ intros x _. destruct (literal_eqb l x) eqn:Q; [|apply andb_false_r].
        apply literal_eqb_true in Q as [_ Q]. rewrite <- Q, P. reflexivity. }
    rewrite (existsb_ext_in (literal_eqb (complement l))
               (fun x => positive x && atom_eqb (atom l) (atom x))).
    2:{ intros x _. rewrite complement_eqb, P.
        destruct (positive x), (atom_eqb (atom l) (atom x)); reflexivity. }
    rewrite existsb_const_false, andb_false_r. simpl. apply andb_comm.
Qed.

Lemma no_complement_of_member c l :
  has_complementary_pair c = false ->
  literal_in l c = true -> literal_in (complement l) c = false.
Proof.
  unfold has_complementary_pair. intros H Hl.
  unfold literal_in in Hl. apply existsb_exists in Hl as [x [Hx Hlx]].
  assert (Hc : literal_in (complement x) c = false).
  { destruct (literal_in (complement x) c) eqn:Q; [|reflexivity].
    assert (existsb (fun l0 => literal_in (complement l0) c) (literals c) = true)
      by (apply existsb_exists; eauto).
    congruence. }
  rewrite <- Hc. unfold literal_in. apply existsb_ext_in. intros y _.
  rewrite !complement_eqb.
  apply literal_eqb_true in Hlx as [Ha Hp].
  rewrite (atom_eqb_compat _ _ _ Ha), Hp. reflexivity.
Qed.

(** C6 (amended).  Resolving a clause with the empty clause, in either
    order, keeps exactly the literals of the clause whose atom does not
    occur in it with the other polarity; when no atom occurs in the clause
    with both polarities the resolvent has the same set of literals as
    the clause. *)
Theorem resolve_with_empty_clause (c : Clause) :
  (forall l,
     literal_in l (resolve set_order c (mkClause [])) =
       literal_in l c && negb (literal_in (complement l) c) /\
     literal_in l (resolve set_order (mkClause []) c) =
       literal_in l c && negb (literal_in (complement l) c)) /\
  (has_complementary_pair c = false ->
     same_literals (resolve set_order c (mkClause [])) c /\
     same_literals (resolve set_order (mkClause []) c) c).
Proof.
  assert (G : forall l,
     literal_in l (resolve set_order c (mkClause [])) =
       literal_in l c && negb (literal_in (complement l) c) /\
     literal_in l (resolve set_order (mkClause []) c) =
       literal_in l c && negb (literal_in (complement l) c)).
  { intros l. rewrite !resolve_literals. simpl. rewrite app_nil_r.
    destruct c as [ls]. split; reflexivity. }
  split; [exact G|].
  intros H. split; intros l; destruct (G l) as [G1 G2].
  - rewrite G1. destruct (literal_in l c) eqn:Q; [|reflexivity].
    rewrite (no_complement_of_member c l H Q). reflexivity.
  - rewrite G2. destruct (literal_in l c) eqn:Q; [|reflexivity].
    rewrite (no_complement_of_member c l H Q). reflexivity.
Qed.

End ResolveFacts.

Lemma insertion_order_perm A (l : list A) : Permutation (insertion_order A l) l.
Proof. apply Permutation_refl. Qed.

Lemma resolve_with_empty_clause_witness :
  has_complementary_pair clause_1_not2 = false /\
  same_literals (resolve insertion_order clause_1_not2 (mkClause [])) clause_1_not2 /\
  same_literals (resolve insertion_order (mkClause []) clause_1_not2) clause_1_not2.
Proof.
  split; [reflexivity|].
  exact (proj2 (resolve_with_empty_clause insertion_order insertion_order_perm
                  clause_1_not2) eq_refl).
Defined.

(** C6 as stated fails on the clause [-2 4 2 0] of the built-in sample:
    resolving it with the empty clause leaves only the literal 4, so the
    literal 2 of the clause is not in the resolvent. *)
Lemma resolve_with_empty_clause_drops_pairs :
  literal_in (Pos x2) sample_clause_4 = true /\
  literal_in (Pos x2) (resolve insertion_order sample_clause_4 (mkClause [])) = false /\
  literals (resolve insertion_order sample_clause_4 (mkClause [])) = [Pos x4] /\
  literals (resolve insertion_order (mkClause []) sample_clause_4) = [Pos x4].
Proof. repeat split; reflexivity. Qed.

(* ================================================================== *)
(** * Proofs: canonicalisation (solvers.py)                            *)
(* ================================================================== *)

Lemma dict_get_app k d k' a :
  dict_get k (d ++ [(k', a)]) =
  match dict_get k d with
  | Some x => Some x
  | None => if String.eqb k k' then Some a else None
  end.
Proof.
  induction d as [|[k0 a0] d IH]; simpl.
  - reflexivity.
  - destruct (String.eqb k k0); [reflexivity|exact IH].
Qed.

Lemma dict_wf_nil : dict_wf [].
Proof. intros k a H. discriminate. Qed.

Lemma dict_wf_add d a :
  dict_wf d -> dict_wf (d ++ [(name a, a)]).
Proof.
  intros W k b. rewrite dict_get_app.
  destruct (dict_get k d) eqn:E.
  - intros H. injection H as <-. apply W. exact E.
  - destruct (String.eqb_spec k (name a)); [|discriminate].
    intros H. injection H as <-. congruence.
Qed.

Lemma dict_extends_refl d : dict_extends d d.
Proof. intros k a H. exact H. Qed.

Lemma dict_extends_trans d1 d2 d3 :
  dict_extends d1 d2 -> dict_extends d2 d3 -> dict_extends d1 d3.
Proof. intros H1 H2 k a H. apply H2, H1, H. Qed.

Lemma dict_extends_add d k a : dict_extends d (d ++ [(k, a)]).
Proof. intros k0 b H. rewrite dict_get_app, H. reflexivity. Qed.

(** The canonical literals of one clause: the dictionary only grows, stays
    well formed, binds the atom of every literal produced, and a second
    pass from the same dictionary changes nothing. *)
Lemma canonize_literals_facts ls :
  forall vs vs' out,
    dict_wf vs ->
    canonize_literals vs ls = (vs', out) ->
    dict_wf vs' /\ dict_extends vs vs' /\
    (forall l, In l out -> dict_get (name (atom l)) vs' = Some (atom l)) /\
    canonize_literals vs out = (vs', out).
Proof.
  induction ls as [|l rest IH]; intros vs vs' out W H; simpl in H.
  - injection H as <- <-. repeat split; auto using dict_extends_refl.
    intros l [].
  - destruct (dict_get (name (atom l)) vs) as [canon|] eqn:G.
    + destruct (canonize_literals vs rest) as [vs2 cl] eqn:R.
      injection H as <- <-.
      destruct (IH _ _ _ W R) as (W2 & X2 & M2 & A2).
      pose proof (W _ _ G) as Hn.
      repeat split; auto.
      * intros l0 [<-|Hin]; [|apply M2, Hin]. simpl.
        apply X2. rewrite Hn. exact G.
      * simpl. rewrite Hn, G, A2. reflexivity.
    + destruct (canonize_literals (vs ++ [(name (atom l), atom l)]) rest)
        as [vs2 cl] eqn:R.
      injection H as <- <-.
      destruct (IH _ _ _ (dict_wf_add _ _ W) R) as (W2 & X2 & M2 & A2).
      repeat split; auto.
      * eapply dict_extends_trans; [apply dict_extends_add|exact X2].
      * intros l0 [<-|Hin]; [|apply M2, Hin]. simpl.
        apply X2. rewrite dict_get_app, G, String.eqb_refl. reflexivity.
      * simpl. rewrite G, A2. reflexivity.
Qed.

Lemma canonize_loop_facts cs :
  forall vs vs' out,
    dict_wf vs ->
    canonize_loop vs cs = (vs', out) ->
    dict_wf vs' /\ dict_extends vs vs' /\
    (forall l, In l (all_literals out) -> dict_get (name (atom l)) vs' = Some (atom l)) /\
    canonize_loop vs out = (vs', out).
Proof.
  induction cs as [|c rest IH]; intros vs vs' out W H; simpl in H.
  - injection H as <- <-. repeat split; auto using dict_extends_refl.
    intros l [].
  - destruct (canonize_literals vs (literals c)) as [vs1 cl] eqn:L.
    destruct (canonize_loop vs1 rest) as [vs2 ncs] eqn:R.
    injection H as <- <-.
    destruct (canonize_literals_facts _ _ _ _ W L) as (W1 & X1 & M1 & A1).
    destruct (IH _ _ _ W1 R) as (W2 & X2 & M2 & A2).
    repeat split; auto.
    + eapply dict_extends_trans; eassumption.
    + intros l Hin. unfold all_literals in Hin. simpl in Hin.
      apply in_app_or in Hin as [Hin|Hin].
      * apply X2, M1, Hin.
      * apply M2, Hin.
    + simpl. rewrite A1, A2. reflexivity.
Qed.

(** C9.  Canonicalising the clauses that [canonize_clauses] returned gives
    the same dictionary and the same clauses again (same order, same
    literals and polarities, same atom objects), and in these clauses two
    literals over the same name carry the same atom object. *)
Theorem canonize_clauses_idempotent (cs : list Clause) :
  canonize_clauses (snd (canonize_clauses cs)) = canonize_clauses cs /\
  (forall l1 l2,
     In l1 (all_literals (snd (canonize_clauses cs))) ->
     In l2 (all_literals (snd (canonize_clauses cs))) ->
     name (atom l1) = name (atom l2) -> atom l1 = atom l2).
Proof.
  unfold canonize_clauses.
  destruct (canonize_loop [] cs) as [vs out] eqn:E.
  destruct (canonize_loop_facts _ _ _ _ dict_wf_nil E) as (_ & _ & M & A).
  simpl. split; [exact A|].
  intros l1 l2 H1 H2 Hn.
  pose proof (M _ H1) as G1. pose proof (M _ H2) as G2.
  rewrite Hn in G1. congruence.
Qed.

(* ================================================================== *)
(** * Proofs: truncation of the implication graph (graph.py)           *)
(* ================================================================== *)

Lemma pop_times_firstn k (l : list Node) :
  pop_times k l = firstn (length l - k) l.
Proof.
  revert l. induction k as [|k IH]; intros l; simpl.
  - rewrite Nat.sub_0_r, firstn_all. reflexivity.
  - rewrite IH, removelast_firstn_len, firstn_firstn.
    rewrite length_firstn. f_equal. lia.
Qed.

Lemma pop_decisions_firstn keep (l : list Node) :
  pop_decisions keep l = firstn keep l.
Proof.
  unfold pop_decisions. rewrite pop_times_firstn.
  destruct (Nat.le_gt_cases keep (length l)).
  - f_equal. lia.
  - replace (length l - (length l - keep)) with (length l) by lia.
    rewrite firstn_all, firstn_all2 by lia. reflexivity.
Qed.

Lemma remove_nodes_decisions ds g :
  decisions (fold_left (fun g n => nx_remove_node n g) ds g) = decisions g /\
  conflict_node (fold_left (fun g n => nx_remove_node n g) ds g) = conflict_node g /\
  allocated (fold_left (fun g n => nx_remove_node n g) ds g) = allocated g.
Proof.
  revert g. induction ds as [|d ds IH]; intros g; simpl; [auto|].
  destruct (IH (nx_remove_node d g)) as (-> & -> & ->). auto.
Qed.

Lemma remove_nodes_nodes ds g :
  graph_nodes (fold_left (fun g n => nx_remove_node n g) ds g) =
  filter (fun m => negb (node_in m ds)) (graph_nodes g).
Proof.
  revert g. induction ds as [|d ds IH]; intros g; simpl.
  - induction (graph_nodes g) as [|x l IHl]; simpl; [reflexivity|].
    rewrite <- IHl. reflexivity.
  - rewrite IH. simpl.
    induction (graph_nodes g) as [|x l IHl]; simpl; [reflexivity|].
    destruct (node_eqb x d); simpl; [exact IHl|].
    destruct (node_in x ds); simpl; [exact IHl|]. rewrite IHl. reflexivity.
Qed.

Lemma remove_nodes_edges ds g :
  graph_edges (fold_left (fun g n => nx_remove_node n g) ds g) =
  filter (fun e => negb (node_in (source e) ds) && negb (node_in (target e) ds))
         (graph_edges g).
Proof.
  revert g. induction ds as [|d ds IH]; intros g; simpl.
  - induction (graph_edges g) as [|x l IHl]; simpl; [reflexivity|].
    rewrite <- IHl. reflexivity.
  - rewrite IH. simpl.
    induction (graph_edges g) as [|x l IHl]; simpl; [reflexivity|].
    destruct (node_eqb (source x) d), (node_eqb (target x) d); simpl;
      try exact IHl;
      try (destruct (node_in (source x) ds); simpl; exact IHl).
    destruct (node_in (source x) ds), (node_in (target x) ds); simpl;
      try exact IHl.
    rewrite IHl. reflexivity.
Qed.

Lemma node_in_In n l : In n l -> node_in n l = true.
Proof.
  intros H. apply existsb_exists. exists n. split; [exact H|].
  apply Nat.eqb_refl.
Qed.

Lemma reset_values_get ds st i :
  fold_left (fun st n => set_value st (variable n) None) ds st i =
  if existsb (fun n => Nat.eqb i (aid (variable n))) ds then None else st i.
Proof.
  revert st. induction ds as [|d ds IH]; intros st; simpl; [reflexivity|].
  rewrite IH. unfold set_value.
  destruct (Nat.eqb i (aid (variable d))); simpl; [|reflexivity].
  destruct (existsb _ ds); reflexivity.
Qed.

(** When the node objects of the graph are distinct, removing the nodes of
    a list by identity is removing the members of the list. *)
Lemma filter_not_node_in (p : Node -> bool) l :
  NoDup (map nid l) ->
  forall ds, Permutation ds (filter p l) ->
  filter (fun m => negb (node_in m ds)) l = filter (fun m => negb (p m)) l.
Proof.
  intros ND ds HP. apply filter_ext_in'. intros x Hx. f_equal.
  unfold node_in. rewrite (existsb_perm _ _ _ HP).
  destruct (p x) eqn:Px.
  - apply existsb_exists. exists x. split.
    + apply filter_In. auto.
    + apply Nat.eqb_refl.
  - destruct (existsb (node_eqb x) (filter p l)) eqn:E; [|reflexivity].
    apply existsb_exists in E as [y [Hy Hxy]].
    apply filter_In in Hy as [Hy Py].
    apply Nat.eqb_eq in Hxy.
    assert (x = y); [|congruence].
    clear - ND Hx Hy Hxy. induction l as [|z l IH]; [contradiction|].
    simpl in ND. inversion ND as [|? ? Hn ND']; subst.
    destruct Hx as [->|Hx], Hy as [->|Hy]; auto.
    + exfalso. apply Hn. rewrite Hxy. apply in_map. exact Hy.
    + exfalso. apply Hn. rewrite <- Hxy. apply in_map. exact Hx.
Qed.

Section ClearDecisions.

Variable set_order : forall A : Type, list A -> list A.
Hypothesis set_order_perm : forall A (l : list A), Permutation (set_order A l) l.

Lemma clear_decisions_nodes g st keep :
  graph_nodes (fst (clear_decisions set_order g st keep)) =
  filter (fun m => negb (node_in m
            (filter (fun n => Nat.ltb keep (node_level n)) (graph_nodes g))))
         (graph_nodes g).
Proof.
  unfold clear_decisions. simpl. rewrite remove_nodes_nodes. simpl.
  apply filter_ext_in'. intros x _. f_equal. unfold node_in.
  apply existsb_perm, set_order_perm.
Qed.

(** The conflict-node attribute of the graph is what it was. *)
Lemma clear_decisions_conflict_node g st keep :
  conflict_node (fst (clear_decisions set_order g st keep)) = conflict_node g.
Proof.
  unfold clear_decisions. simpl.
  destruct (remove_nodes_decisions
              (set_order _ (filter (fun n => Nat.ltb keep (node_level n)) (graph_nodes g)))
              (mkGraph (graph_nodes g) (graph_edges g)
                 (pop_decisions keep (decisions g)) (conflict_node g) (allocated g)))
    as (_ & -> & _). reflexivity.
Qed.

(** C4 (amended).  After [clear_decisions] with level [keep]: every node
    left in the graph was there before and has level at most [keep]; every
    node of a higher level is gone and its variable is unassigned; when the
    node objects are distinct the nodes left are exactly those of level at
    most [keep]; the decision stack is cut to its first [keep] entries, so
    to [keep] entries when it held that many and otherwise to what it held;
    an atom that is the variable of no node above [keep] keeps its value. *)
Theorem clear_decisions_effect (g : ImplicationGraph) (st : Store) (keep : nat) :
  let r := clear_decisions set_order g st keep in
  (forall n, In n (graph_nodes (fst r)) ->
             In n (graph_nodes g) /\ node_level n <= keep) /\
  (forall n, In n (graph_nodes g) -> keep < node_level n ->
             ~ In n (graph_nodes (fst r)) /\ value (snd r) (variable n) = None) /\
  (NoDup (map nid (graph_nodes g)) ->
     graph_nodes (fst r) =
       filter (fun n => Nat.leb (node_level n) keep) (graph_nodes g)) /\
  decisions (fst r) = firstn keep (decisions g) /\
  length (decisions (fst r)) = Nat.min keep (length (decisions g)) /\
  (forall a, (forall n, In n (graph_nodes g) -> keep < node_level n ->
                        aid (variable n) <> aid a) ->
             value (snd r) a = value st a).
Proof.
  intros r.
  assert (D : decisions (fst r) = firstn keep (decisions g)).
  { unfold r, clear_decisions. simpl.
    destruct (remove_nodes_decisions
                (set_order _ (filter (fun n => Nat.ltb keep (node_level n)) (graph_nodes g)))
                (mkGraph (graph_nodes g) (graph_edges g)
                   (pop_decisions keep (decisions g)) (conflict_node g) (allocated g)))
      as (-> & _ & _). simpl. apply pop_decisions_firstn. }
  assert (V : forall i, snd r i =
            if existsb (fun n => Nat.eqb i (aid (variable n)))
                 (filter (fun n => Nat.ltb keep (node_level n)) (graph_nodes g))
            then None else st i).
  { intros i. unfold r, clear_decisions. simpl. apply reset_values_get. }
  repeat split.
  - unfold r in H. rewrite clear_decisions_nodes in H.
    apply filter_In in H. tauto.
  - unfold r in H. rewrite clear_decisions_nodes in H.
    apply filter_In in H as [Hin Hd].
    destruct (Nat.le_gt_cases (node_level n) keep) as [|Hgt]; [assumption|].
    rewrite node_in_In in Hd; [discriminate|].
    apply filter_In. split; [assumption|]. apply Nat.ltb_lt. exact Hgt.
  - unfold r. rewrite clear_decisions_nodes. intros Hin.
    apply filter_In in Hin as [_ Hd].
    rewrite node_in_In in Hd; [discriminate|].
    apply filter_In. split; [assumption|]. apply Nat.ltb_lt. assumption.
  - unfold value. rewrite V.
    replace (existsb _ _) with true; [reflexivity|].
    symmetry. apply existsb_exists. exists n. split.
    + apply filter_In. split; [assumption|]. apply Nat.ltb_lt. assumption.
    + apply Nat.eqb_refl.
  - intros ND. unfold r. rewrite clear_decisions_nodes.
    rewrite (filter_not_node_in _ _ ND _ (Permutation_refl _)).
    apply filter_ext_in'. intros x _.
    destruct (Nat.ltb_spec keep (node_level x)), (Nat.leb_spec (node_level x) keep);
      simpl; try reflexivity; lia.
  - exact D.
  - rewrite D, length_firstn. reflexivity.
  - intros a Ha. unfold value. rewrite V.
    destruct (existsb _ _) eqn:E; [|reflexivity].
    apply existsb_exists in E as [n [Hn Hi]].
    apply filter_In in Hn as [Hin Hl]. apply Nat.ltb_lt in Hl.
    apply Nat.eqb_eq in Hi. exfalso. apply (Ha n Hin Hl). congruence.
Qed.

End ClearDecisions.

Lemma clear_decisions_effect_witness :
  let r := clear_decisions insertion_order conflict_graph conflict_values 0 in
  (forall n, In n (graph_nodes (fst r)) ->
             In n (graph_nodes conflict_graph) /\ node_level n <= 0) /\
  (forall n, In n (graph_nodes conflict_graph) -> 0 < node_level n ->
             ~ In n (graph_nodes (fst r)) /\ value (snd r) (variable n) = None) /\
  (NoDup (map nid (graph_nodes conflict_graph)) ->
     graph_nodes (fst r) =
       filter (fun n => Nat.leb (node_level n) 0) (graph_nodes conflict_graph)) /\
  decisions (fst r) = firstn 0 (decisions conflict_graph) /\
  length (decisions (fst r)) = Nat.min 0 (length (decisions conflict_graph)) /\
  (forall a, (forall n, In n (graph_nodes conflict_graph) -> 0 < node_level n ->
                        aid (variable n) <> aid a) ->
             value (snd r) a = value conflict_values a).
Proof.
  exact (clear_decisions_effect insertion_order insertion_order_perm
           conflict_graph conflict_values 0).
Defined.

(** C4 as stated fails: in the graph of a conflict at level 1, with one
    decision on the stack, [clear_decisions(2)] leaves the stack with one
    entry, not two, and the graph still records its conflict node. *)
Lemma clear_decisions_keeps_short_stack :
  length (decisions (fst (clear_decisions insertion_order conflict_graph
                            conflict_values 2))) = 1 /\
  conflict_node (fst (clear_decisions insertion_order conflict_graph
                        conflict_values 2)) = Some node_conflict.
Proof. split; reflexivity. Qed.

(* ================================================================== *)
(** * Proofs: the DLIS heuristic (solvers.py)                          *)
(* ================================================================== *)

Lemma atom_dict_get_set {V} (a k : Atom) (v : V) d :
  atom_dict_get a (atom_dict_set k v d) =
  if atom_eqb a k then Some v else atom_dict_get a d.
Proof.
  induction d as [|[k0 w] d IH]; simpl.
  - reflexivity.
  - destruct (atom_eqb k k0) eqn:K; simpl.
    + destruct (atom_eqb a k0) eqn:A.
      * rewrite (atom_eqb_sym k k0) in K.
        rewrite (atom_eqb_sym a k), <- (atom_eqb_compat _ _ _ K), atom_eqb_sym, A.
        reflexivity.
      * destruct (atom_eqb a k) eqn:B; [|reflexivity].
        rewrite (atom_eqb_compat _ _ _ B), K in A. discriminate.
    + destruct (atom_eqb a k0) eqn:A.
      * destruct (atom_eqb a k) eqn:B; [|reflexivity].
        rewrite (atom_eqb_compat _ _ _ B), K in A. discriminate.
      * exact IH.
Qed.

Lemma atom_dict_get_incr (a k : Atom) d :
  atom_dict_get a (atom_dict_incr k d) =
  if atom_eqb a k then option_map S (atom_dict_get a d) else atom_dict_get a d.
Proof.
  induction d as [|[k0 w] d IH]; simpl.
  - destruct (atom_eqb a k); reflexivity.
  - destruct (atom_eqb k k0) eqn:K; simpl.
    + destruct (atom_eqb a k0) eqn:A.
      * rewrite (atom_eqb_sym k k0) in K.
        rewrite (atom_eqb_sym a k), <- (atom_eqb_compat _ _ _ K), atom_eqb_sym, A.
        reflexivity.
      * destruct (atom_eqb a k) eqn:B; [|reflexivity].
        rewrite (atom_eqb_compat _ _ _ B), K in A. discriminate.
    + destruct (atom_eqb a k0) eqn:A.
      * destruct (atom_eqb a k) eqn:B; [|reflexivity].
        rewrite (atom_eqb_compat _ _ _ B), K in A. discriminate.
      * exact IH.
Qed.

Lemma atom_dict_get_compat {V} (a b : Atom) (d : AtomDict V) :
  atom_eqb a b = true -> atom_dict_get a d = atom_dict_get b d.
Proof.
  intros H. induction d as [|[k w] d IH]; simpl; [reflexivity|].
  rewrite (atom_eqb_compat _ _ _ H), IH. reflexivity.
Qed.

Lemma atom_dict_mem_compat {V} (a b : Atom) (d : AtomDict V) :
  atom_eqb a b = true -> atom_dict_mem a d = atom_dict_mem b d.
Proof.
  intros H. unfold atom_dict_mem. rewrite (atom_dict_get_compat a b d H). reflexivity.
Qed.

Lemma atom_dict_mem_set {V} (a k : Atom) (v : V) d :
  atom_dict_mem a (atom_dict_set k v d) = atom_eqb a k || atom_dict_mem a d.
Proof.
  unfold atom_dict_mem. rewrite atom_dict_get_set.
  destruct (atom_eqb a k); reflexivity.
Qed.

Lemma atom_dict_mem_incr (a k : Atom) d :
  atom_dict_mem a (atom_dict_incr k d) = atom_dict_mem a d.
Proof.
  unfold atom_dict_mem. rewrite atom_dict_get_incr.
  destruct (atom_eqb a k), (atom_dict_get a d); reflexivity.
Qed.

Lemma count_of_set_new (a k : Atom) d :
  atom_dict_mem k d = false -> count_of a (atom_dict_set k 0 d) = count_of a d.
Proof.
  intros H. unfold count_of. rewrite atom_dict_get_set.
  destruct (atom_eqb a k) eqn:A; [|reflexivity].
  rewrite <- (atom_dict_mem_compat a k d A) in H.
  unfold atom_dict_mem in H. destruct (atom_dict_get a d); [discriminate|reflexivity].
Qed.

Lemma count_of_incr (a k : Atom) d :
  atom_dict_mem k d = true ->
  count_of a (atom_dict_incr k d) = count_of a d + b2n (atom_eqb a k).
Proof.
  intros H. unfold count_of. rewrite atom_dict_get_incr.
  destruct (atom_eqb a k) eqn:A; simpl; [|lia].
  rewrite <- (atom_dict_mem_compat a k d A) in H.
  unfold atom_dict_mem in H. destruct (atom_dict_get a d); [simpl; lia|discriminate].
Qed.

Lemma atom_dict_set_keys {V} (k : Atom) (v : V) d :
  map (fun kv => name (fst kv)) (atom_dict_set k v d) =
  if atom_dict_mem k d then map (fun kv => name (fst kv)) d
  else map (fun kv => name (fst kv)) d ++ [name k].
Proof.
  unfold atom_dict_mem. induction d as [|[k0 w] d IH]; simpl; [reflexivity|].
  destruct (atom_eqb k k0); simpl; [reflexivity|].
  rewrite IH. destruct (atom_dict_get k d); reflexivity.
Qed.

Lemma atom_dict_incr_keys (k : Atom) d :
  map (fun kv => name (fst kv)) (atom_dict_incr k d) = map (fun kv => name (fst kv)) d.
Proof.
  induction d as [|[k0 w] d IH]; simpl; [reflexivity|].
  destruct (atom_eqb k k0); simpl; [reflexivity|]. rewrite IH. reflexivity.
Qed.

Lemma atom_dict_mem_keys {V} (k : Atom) (d : AtomDict V) :
  atom_dict_mem k d = true <-> In (name k) (map (fun kv => name (fst kv)) d).
Proof.
  unfold atom_dict_mem. induction d as [|[k0 w] d IH]; simpl.
  - split; [discriminate|contradiction].
  - destruct (atom_eqb k k0) eqn:E.
    + apply atom_eqb_eq in E. split; auto.
    + rewrite IH. split; auto. intros [H|H]; [|exact H].
      symmetry in H. apply atom_eqb_eq in H. congruence.
Qed.

Lemma distinct_keys_set {V} (k : Atom) (v : V) d :
  distinct_keys d -> distinct_keys (atom_dict_set k v d).
Proof.
  unfold distinct_keys. rewrite atom_dict_set_keys.
  destruct (atom_dict_mem k d) eqn:M; [auto|].
  intros ND. apply NoDup_app; auto.
  - constructor; [intros []|constructor].
  - intros x Hx [<-|[]]. apply atom_dict_mem_keys in Hx. congruence.
Qed.

Lemma distinct_keys_incr (k : Atom) d :
  distinct_keys d -> distinct_keys (atom_dict_incr k d).
Proof. unfold distinct_keys. rewrite atom_dict_incr_keys. auto. Qed.

Lemma atom_dict_set_key_in {V} (a k : Atom) (v n : V) d :
  In (k, n) (atom_dict_set a v d) -> k = a \/ exists n', In (k, n') d.
Proof.
  induction d as [|[k0 w] d IH]; simpl.
  - intros [H|[]]. injection H as <- <-. auto.
  - destruct (atom_eqb a k0); simpl.
    + intros [H|H]; [injection H as <- <-|]; right; eauto.
    + intros [H|H]; [right; eauto|].
      destruct (IH H) as [?|[n' ?]]; [auto|right; eauto].
Qed.

Lemma atom_dict_incr_key_in (a k : Atom) n d :
  In (k, n) (atom_dict_incr a d) -> exists n', In (k, n') d.
Proof.
  induction d as [|[k0 w] d IH]; simpl; [intros []|].
  destruct (atom_eqb a k0); simpl.
  - intros [H|H]; [injection H as <- <-|]; eauto.
  - intros [H|H]; [eauto|]. destruct (IH H) as [n' ?]; eauto.
Qed.

Lemma atom_dict_get_in (k : Atom) (n : nat) d :
  distinct_keys d -> In (k, n) d -> atom_dict_get k d = Some n.
Proof.
  unfold distinct_keys. induction d as [|[k0 w] d IH]; simpl; [intros _ []|].
  intros ND [H|H].
  - injection H as <- <-. rewrite atom_eqb_refl. reflexivity.
  - inversion ND as [|? ? Hn ND']; subst.
    destruct (atom_eqb k k0) eqn:E; [|auto].
    exfalso. apply Hn. apply atom_eqb_eq in E. rewrite <- E.
    change (name k) with ((fun kv : Atom * nat => name (fst kv)) (k, n)).
    apply in_map. exact H.
Qed.

Lemma atom_dict_get_some (a : Atom) (n : nat) d :
  atom_dict_get a d = Some n -> exists k, In (k, n) d /\ atom_eqb a k = true.
Proof.
  induction d as [|[k0 w] d IH]; simpl; [discriminate|].
  destruct (atom_eqb a k0) eqn:E.
  - intros H. injection H as <-. eauto.
  - intros H. destruct (IH H) as [k [? ?]]. eauto.
Qed.

Lemma dict_max_spec d k n :
  dict_max d = Some (k, n) ->
  In (k, n) d /\ forall k' n', In (k', n') d -> n' <= n.
Proof.
  revert k n. induction d as [|[k0 w] d IH]; intros k n; simpl; [discriminate|].
  destruct (dict_max d) as [[k1 n1]|] eqn:M.
  - destruct (IH _ _ eq_refl) as [Hin Hmax].
    destruct (Nat.ltb_spec w n1) as [Hlt|Hge]; intros H; injection H as <- <-.
    + split; [auto|]. intros k' n' [Q|Q]; [injection Q as <- <-; lia|eauto].
    + split; [auto|]. intros k' n' [Q|Q]; [injection Q as <- <-; lia|].
      specialize (Hmax _ _ Q). lia.
  - intros H. injection H as <- <-. split; [auto|].
    destruct d as [|[k2 n2] d]; [|simpl in M; destruct (dict_max d) as [[? ?]|];
      [destruct (Nat.ltb n2 n)|]; discriminate].
    intros k' n' [Q|[]]. injection Q as <- <-. lia.
Qed.

Lemma dict_max_some d a :
  atom_dict_mem a d = true -> exists k n, dict_max d = Some (k, n).
Proof.
  destruct d as [|[k0 w] d]; [discriminate|]. intros _. simpl.
  destruct (dict_max d) as [[k1 n1]|]; [destruct (Nat.ltb w n1)|]; eauto.
Qed.

(** The count of the key that [max] returns bounds every count. *)
Lemma dict_max_count d k n :
  distinct_keys d -> dict_max d = Some (k, n) ->
  count_of k d = n /\ forall a, count_of a d <= n.
Proof.
  intros ND M. destruct (dict_max_spec _ _ _ M) as [Hin Hmax].
  unfold count_of. rewrite (atom_dict_get_in _ _ _ ND Hin). split; [reflexivity|].
  intros a. destruct (atom_dict_get a d) as [m|] eqn:G; [|lia].
  destruct (atom_dict_get_some _ _ _ G) as [k' [Hk _]]. eauto.
Qed.

Lemma dlis_count_literal_keys pos neg l ls :
  distinct_keys pos -> distinct_keys neg -> keys_from ls pos -> keys_from ls neg ->
  distinct_keys (fst (dlis_count_literal (pos, neg) l)) /\
  distinct_keys (snd (dlis_count_literal (pos, neg) l)) /\
  keys_from (ls ++ [l]) (fst (dlis_count_literal (pos, neg) l)) /\
  keys_from (ls ++ [l]) (snd (dlis_count_literal (pos, neg) l)).
Proof.
  intros Dp Dn Kp Kn.
  assert (W : forall d, keys_from ls d -> keys_from (ls ++ [l]) d).
  { intros d Kd k n H. destruct (Kd k n H) as [x [? ?]]. exists x.
    split; [apply in_or_app; auto|assumption]. }
  assert (Ws : forall d, keys_from ls d ->
                keys_from (ls ++ [l]) (atom_dict_set (atom l) 0 d)).
  { intros d Kd k n H. apply atom_dict_set_key_in in H as [->|[n' H]].
    - exists l. split; [apply in_or_app; right; left|]; reflexivity.
    - apply (W d Kd k n' H). }
  assert (Wi : forall d, keys_from (ls ++ [l]) d ->
                keys_from (ls ++ [l]) (atom_dict_incr (atom l) d)).
  { intros d Kd k n H. apply atom_dict_incr_key_in in H as [n' H]. eauto. }
  unfold dlis_count_literal.
  destruct (negb (atom_dict_mem (atom l) pos)); destruct (positive l); simpl;
    repeat split;
    auto using distinct_keys_set, distinct_keys_incr.
Qed.

(** What one step of the counting loop does to the entries of [a]. *)
Lemma dlis_count_literal_step pos neg l :
  same_keys pos neg ->
  let r := dlis_count_literal (pos, neg) l in
  same_keys (fst r) (snd r) /\
  (forall a, atom_dict_mem a (fst r) = atom_eqb a (atom l) || atom_dict_mem a pos) /\
  (forall a, count_of a (fst r) =
             count_of a pos + b2n (atom_eqb a (atom l) && Bool.eqb (positive l) true)) /\
  (forall a, count_of a (snd r) =
             count_of a neg + b2n (atom_eqb a (atom l) && Bool.eqb (positive l) false)).
Proof.
  intros K. unfold dlis_count_literal.
  destruct (atom_dict_mem (atom l) pos) eqn:M; simpl.
  - pose proof (K (atom l)) as M'. rewrite M in M'. symmetry in M'.
    destruct (positive l); simpl.
    + repeat split; intros a.
      * rewrite atom_dict_mem_incr. apply K.
      * rewrite atom_dict_mem_incr.
        destruct (atom_eqb a (atom l)) eqn:A; [|reflexivity].
        rewrite (atom_dict_mem_compat _ _ _ A), M. reflexivity.
      * rewrite count_of_incr by assumption. rewrite andb_true_r. reflexivity.
      * rewrite andb_false_r. simpl. lia.
    + repeat split; intros a.
      * rewrite atom_dict_mem_incr. apply K.
      * destruct (atom_eqb a (atom l)) eqn:A; [|reflexivity].
        rewrite (atom_dict_mem_compat _ _ _ A), M. reflexivity.
      * rewrite andb_false_r. simpl. lia.
      * rewrite count_of_incr by assumption. rewrite andb_true_r. reflexivity.
  - pose proof (K (atom l)) as M'. rewrite M in M'. symmetry in M'.
    assert (Mp : atom_dict_mem (atom l) (atom_dict_set (atom l) 0 pos) = true)
      by (rewrite atom_dict_mem_set, atom_eqb_refl; reflexivity).
    assert (Mn : atom_dict_mem (atom l) (atom_dict_set (atom l) 0 neg) = true)
      by (rewrite atom_dict_mem_set, atom_eqb_refl; reflexivity).
    destruct (positive l); simpl.
    + repeat split; intros a.
      * rewrite atom_dict_mem_incr, !atom_dict_mem_set, K. reflexivity.
      * rewrite atom_dict_mem_incr, atom_dict_mem_set. reflexivity.
      * rewrite count_of_incr by assumption.
        rewrite count_of_set_new by assumption. rewrite andb_true_r. reflexivity.
      * rewrite count_of_set_new by assumption. rewrite andb_false_r. simpl. lia.
    + repeat split; intros a.
      * rewrite atom_dict_mem_incr, !atom_dict_mem_set, K. reflexivity.
      * rewrite atom_dict_mem_set. reflexivity.
      * rewrite count_of_set_new by assumption. rewrite andb_false_r. simpl. lia.
      * rewrite count_of_incr by assumption.
        rewrite count_of_set_new by assumption. rewrite andb_true_r. reflexivity.
Qed.

(** The counting loop over a list of literals. *)
Lemma dlis_count_literals ls :
  forall pos neg,
    same_keys pos neg ->
    let r := fold_left dlis_count_literal ls (pos, neg) in
    same_keys (fst r) (snd r) /\
    (forall a, atom_dict_mem a (fst r) =
               existsb (fun l => atom_eqb a (atom l)) ls || atom_dict_mem a pos) /\
    (forall a, count_of a (fst r) = count_of a pos +
       length (filter (fun l => atom_eqb a (atom l) && Bool.eqb (positive l) true) ls)) /\
    (forall a, count_of a (snd r) = count_of a neg +
       length (filter (fun l => atom_eqb a (atom l) && Bool.eqb (positive l) false) ls)).
Proof.
  induction ls as [|l ls IH]; intros pos neg K.
  - simpl. repeat split; auto.
  - pose proof (dlis_count_literal_step pos neg l K) as S.
    cbv zeta. cbn [fold_left filter existsb].
    destruct (dlis_count_literal (pos, neg) l) as [pos1 neg1] eqn:E.
    simpl in S. destruct S as (K1 & M1 & P1 & N1).
    destruct (IH pos1 neg1 K1) as (K2 & M2 & P2 & N2).
    repeat split; auto; intros a.
    + rewrite M2, M1. destruct (existsb _ ls), (atom_eqb a (atom l)); reflexivity.
    + rewrite P2, P1.
      destruct (atom_eqb a (atom l) && Bool.eqb (positive l) true); simpl; lia.
    + rewrite N2, N1.
      destruct (atom_eqb a (atom l) && Bool.eqb (positive l) false); simpl; lia.
Qed.

(** The nested loops of [decide_dlis] are one loop over [open_literals]. *)
Lemma dlis_counts_flat st cs :
  dlis_counts st cs =
  (fold_left dlis_count_literal (open_literals st cs) ([], []),
   length (filter (is_unresolved st) cs)).
Proof.
  unfold dlis_counts, open_literals.
  generalize (filter (is_unresolved st) cs) as us.
  assert (G : forall us counts n,
    fold_left
      (fun '(counts, count) clause =>
         (fold_left dlis_count_literal
            (filter (fun v => negb (has_value st v)) (literals clause)) counts,
          S count)) us (counts, n) =
    (fold_left dlis_count_literal
       (flat_map (fun c => filter (fun v => negb (has_value st v)) (literals c)) us)
       counts, n + length us)).
  { induction us as [|c us IH]; intros counts n; simpl.
    - rewrite Nat.add_0_r. reflexivity.
    - rewrite IH, fold_left_app. f_equal. lia. }
  intros us. apply G.
Qed.

Lemma dlis_count_literals_keys ls :
  forall pre pos neg,
    distinct_keys pos -> distinct_keys neg ->
    keys_from pre pos -> keys_from pre neg ->
    distinct_keys (fst (fold_left dlis_count_literal ls (pos, neg))) /\
    distinct_keys (snd (fold_left dlis_count_literal ls (pos, neg))) /\
    keys_from (pre ++ ls) (fst (fold_left dlis_count_literal ls (pos, neg))) /\
    keys_from (pre ++ ls) (snd (fold_left dlis_count_literal ls (pos, neg))).
Proof.
  induction ls as [|l ls IH]; intros pre pos neg Dp Dn Kp Kn.
  - simpl. rewrite app_nil_r. auto.
  - cbn [fold_left].
    pose proof (dlis_count_literal_keys pos neg l pre Dp Dn Kp Kn) as S.
    destruct (dlis_count_literal (pos, neg) l) as [pos1 neg1].
    simpl in S. destruct S as (Dp1 & Dn1 & Kp1 & Kn1).
    replace (pre ++ l :: ls) with ((pre ++ [l]) ++ ls)
      by (rewrite <- app_assoc; reflexivity).
    apply IH; assumption.
Qed.

Lemma unresolved_has_unassigned st c :
  is_unresolved st c = true ->
  exists l, In l (literals c) /\ has_value st l = false.
Proof.
  unfold is_unresolved. intros H.
  apply andb_prop in H as [H _]. apply andb_prop in H as [Hs Hu].
  apply negb_true_iff in Hs. apply negb_true_iff in Hu.
  destruct (forallb (has_value st) (literals c)) eqn:F.
  - exfalso. unfold is_satisfied in Hs. unfold is_unsatisfied in Hu.
    rewrite (forallb_filter_id _ _ F) in Hs. rewrite F, Hs in Hu. discriminate.
  - clear Hs Hu. induction (literals c) as [|x l IH]; [discriminate|].
    simpl in F. destruct (has_value st x) eqn:X.
    + destruct (IH F) as [y [? ?]]. exists y. split; [right|]; assumption.
    + exists x. split; [left; reflexivity|assumption].
Qed.

Lemma open_literals_in st cs l :
  In l (open_literals st cs) <->
  exists c, In c cs /\ is_unresolved st c = true /\
            In l (literals c) /\ has_value st l = false.
Proof.
  unfold open_literals. rewrite in_flat_map. split.
  - intros [c [Hc Hl]]. apply filter_In in Hc as [Hc Hu].
    apply filter_In in Hl as [Hl Hv]. apply negb_true_iff in Hv. eauto 6.
  - intros [c (Hc & Hu & Hl & Hv)]. exists c. split.
    + apply filter_In. auto.
    + apply filter_In. split; [assumption|]. rewrite Hv. reflexivity.
Qed.

(** What the counting loops of [decide_dlis] return. *)
Lemma dlis_counts_spec st cs pos neg count :
  dlis_counts st cs = (pos, neg, count) ->
  count = length (filter (is_unresolved st) cs) /\
  same_keys pos neg /\
  (forall a, atom_dict_mem a pos =
             existsb (fun l => atom_eqb a (atom l)) (open_literals st cs)) /\
  (forall a, count_of a pos = occurrences true st cs a) /\
  (forall a, count_of a neg = occurrences false st cs a) /\
  distinct_keys pos /\ distinct_keys neg /\
  keys_from (open_literals st cs) pos /\ keys_from (open_literals st cs) neg.
Proof.
  rewrite dlis_counts_flat. intros E.
  assert (K0 : same_keys [] []) by (intros a; reflexivity).
  pose proof (dlis_count_literals (open_literals st cs) [] [] K0) as C.
  assert (D0 : @distinct_keys nat []) by constructor.
  assert (F0 : keys_from [] []) by (intros k n []).
  pose proof (dlis_count_literals_keys (open_literals st cs) [] [] [] D0 D0 F0 F0) as C'.
  cbv zeta in C.
  injection E as E <-.
  match type of C with
  | same_keys (fst ?t) _ /\ _ =>
      assert (Et : t = (pos, neg)) by exact E; rewrite Et in C
  end.
  match type of C' with
  | distinct_keys (fst ?t) /\ _ =>
      assert (Et' : t = (pos, neg)) by exact E; rewrite Et' in C'
  end.
  simpl in C, C'.
  destruct C as (K & M & P & N). destruct C' as (Dp & Dn & Kp & Kn).
  repeat split; auto.
  intros a. rewrite M. apply orb_false_r.
Qed.

(** What [decide_dlis] does when some clause is unresolved. *)
Lemma decide_dlis_decides (s : Solver) :
  (exists c, In c (clauses s) /\ is_unresolved (values s) c = true) ->
  exists chosen v,
    decide_dlis s =
      Ok (true,
          with_graph s
            (add_decision (implication_graph s) chosen v (decision_level s))
            (set_value (values s) chosen (Some v))) /\
    dlis_candidate (values s) (clauses s) chosen /\
    (forall a, dlis_score (values s) (clauses s) a <=
               dlis_score (values s) (clauses s) chosen) /\
    v = Nat.ltb (occurrences false (values s) (clauses s) chosen)
                (occurrences true (values s) (clauses s) chosen).
Proof.
  intros [c [Hc Hu]].
  set (st := values s). set (cs := clauses s).
  unfold decide_dlis. fold st cs.
  destruct (dlis_counts st cs) as [[pos neg] count] eqn:E.
  destruct (dlis_counts_spec _ _ _ _ _ E) as (-> & K & M & P & N & Dp & Dn & Kp & Kn).
  pose proof P as Pc. pose proof N as Nc.
  (* at least one clause is counted *)
  assert (L : length (filter (is_unresolved st) cs) <> 0).
  { assert (In c (filter (is_unresolved st) cs)) by (apply filter_In; auto).
    destruct (filter (is_unresolved st) cs); [contradiction|simpl; lia]. }
  apply Nat.eqb_neq in L. rewrite L.
  (* the dictionaries have a key *)
  destruct (unresolved_has_unassigned st c Hu) as [l0 [Hl0 Hv0]].
  assert (O : In l0 (open_literals st cs)) by (apply open_literals_in; eauto 6).
  assert (Mp : atom_dict_mem (atom l0) pos = true).
  { rewrite M. apply existsb_exists.
    exists l0. split; [assumption|apply atom_eqb_refl]. }
  assert (Mn : atom_dict_mem (atom l0) neg = true) by (rewrite <- K; assumption).
  destruct (dict_max_some pos _ Mp) as (max_pos & np & Xp).
  destruct (dict_max_some neg _ Mn) as (max_neg & nn & Xn).
  destruct (dict_max_count _ _ _ Dp Xp) as [Cp Bp].
  destruct (dict_max_count _ _ _ Dn Xn) as [Cn Bn].
  unfold dlis_choice. rewrite Xp, Xn. simpl.
  set (chosen := if Nat.ltb (count_of max_neg neg) (count_of max_pos pos)
                 then max_pos else max_neg).
  exists chosen, (Nat.ltb (count_of chosen neg) (count_of chosen pos)).
  split; [reflexivity|]. split; [|split].
  - (* the chosen atom is the atom of an open literal *)
    assert (Q : exists l, In l (open_literals st cs) /\ atom l = chosen).
    { unfold chosen. destruct (Nat.ltb _ _).
      - apply (Kp max_pos np). apply (dict_max_spec _ _ _ Xp).
      - apply (Kn max_neg nn). apply (dict_max_spec _ _ _ Xn). }
    destruct Q as [l [Hl Ha]]. apply open_literals_in in Hl.
    destruct Hl as [c' (? & ? & ? & ?)]. exists c', l. auto.
  - intros a. unfold dlis_score. rewrite <- !Pc, <- !Nc.
    pose proof (Bp a). pose proof (Bn a). pose proof (Bp chosen). pose proof (Bn chosen).
    unfold chosen in *.
    destruct (Nat.ltb_spec (count_of max_neg neg) (count_of max_pos pos)); lia.
  - rewrite Pc, Nc. reflexivity.
Qed.

(** C8 (amended).  When some clause is unresolved, [decide_dlis] decides:
    it picks the atom of an unassigned literal of an unresolved clause whose
    max(p, n) is the largest of all, assigns it true when p > n and false
    otherwise (so false on a tie), and records the decision at the current
    level. *)
Theorem decide_dlis_choice (s : Solver) :
  (exists c, In c (clauses s) /\ is_unresolved (values s) c = true) ->
  exists chosen v,
    decide_dlis s =
      Ok (true,
          with_graph s
            (add_decision (implication_graph s) chosen v (decision_level s))
            (set_value (values s) chosen (Some v))) /\
    dlis_candidate (values s) (clauses s) chosen /\
    (forall a, dlis_score (values s) (clauses s) a <=
               dlis_score (values s) (clauses s) chosen) /\
    v = Nat.ltb (occurrences false (values s) (clauses s) chosen)
                (occurrences true (values s) (clauses s) chosen).
Proof. apply decide_dlis_decides. Qed.

Lemma decide_dlis_choice_witness :
  (exists c, In c (clauses tie_state) /\ is_unresolved (values tie_state) c = true) /\
  exists chosen v,
    decide_dlis tie_state =
      Ok (true,
          with_graph tie_state
            (add_decision (implication_graph tie_state) chosen v
               (decision_level tie_state))
            (set_value (values tie_state) chosen (Some v))) /\
    dlis_candidate (values tie_state) (clauses tie_state) chosen /\
    (forall a, dlis_score (values tie_state) (clauses tie_state) a <=
               dlis_score (values tie_state) (clauses tie_state) chosen) /\
    v = Nat.ltb (occurrences false (values tie_state) (clauses tie_state) chosen)
                (occurrences true (values tie_state) (clauses tie_state) chosen).
Proof.
  assert (H : exists c, In c (clauses tie_state) /\
                        is_unresolved (values tie_state) c = true).
  { exists (mkClause [Pos x1; Pos x2]). split; [left|]; reflexivity. }
  split; [exact H|]. exact (decide_dlis_choice tie_state H).
Defined.

(** C8 as stated fails on a tie: on [1 2 0 -1 3 0] variable 1 occurs once
    positively and once negatively among the unassigned literals of the
    unresolved clauses, [decide_dlis] chooses it, and assigns it false. *)
Lemma decide_dlis_tie_is_false :
  occurrences true (values tie_state) (clauses tie_state) x1 = 1 /\
  occurrences false (values tie_state) (clauses tie_state) x1 = 1 /\
  exists s',
    decide_dlis tie_state = Ok (true, s') /\
    value (values s') x1 = Some false /\
    decisions (implication_graph s') = [DecisionNode 0 x1 false 1].
Proof.
  split; [reflexivity|]. split; [reflexivity|].
  eexists. split; [reflexivity|]. split; reflexivity.
Qed.

(* ================================================================== *)
(** * Proofs: runs of the solver on concrete formulas (solvers.py)     *)
(* ================================================================== *)

(** C1 fails on [-1 -1 0], for every iteration order of sets, every bound
    of at least two rounds and whatever values the atoms had before: the
    solver answers SAT, the assignment it reports is 1 = true, and under it
    the only clause has no true literal. *)
Theorem solve_sat_with_false_clause
    (set_order : forall A : Type, list A -> list A) (fuel : nat) (st : Store) :
  exists s,
    solve set_order simple (S (S fuel)) twice_not1 st = Ok (true, s) /\
    get_assignment s = [(x1, Some true)] /\
    forallb (clause_true (values s)) twice_not1 = false /\
    satisfies (fun _ => false) twice_not1 = true.
Proof.
  eexists. split; [reflexivity|]. repeat split.
Qed.

(** C2 fails on [-1 2 0 -1 -2 0]: the solver answers UNSAT at decision
    level 1, while the assignment that makes every variable false satisfies
    both clauses. *)
Theorem solve_unsat_on_satisfiable
    (set_order : forall A : Type, list A -> list A)
    (set_order_perm : forall A (l : list A), Permutation (set_order A l) l)
    (fuel : nat) (st : Store) :
  exists s,
    solve set_order simple (S fuel) not1_implies_both st = Ok (false, s) /\
    decision_level s = 1 /\
    conflict_node (implication_graph s) = Some node_conflict /\
    satisfies (fun _ => false) not1_implies_both = true.
Proof.
  assert (P1 : set_order nat [1] = [1]).
  { apply Permutation_length_1_inv, Permutation_sym, set_order_perm. }
  eexists. split.
  - cbv. rewrite P1. reflexivity.
  - repeat split.
Qed.

Lemma solve_unsat_on_satisfiable_witness :
  exists s,
    solve insertion_order simple 1 not1_implies_both no_values = Ok (false, s) /\
    decision_level s = 1 /\
    conflict_node (implication_graph s) = Some node_conflict /\
    satisfies (fun _ => false) not1_implies_both = true.
Proof.
  exact (solve_unsat_on_satisfiable insertion_order insertion_order_perm 0 no_values).
Defined.

(** C3 fails on the formula that consists of the empty clause: no clause
    is unit, so [bcp] reports success without looking for a falsified
    clause, no conflict node is created, [decide] finds nothing to decide,
    and the solver answers SAT. *)
Theorem solve_sat_on_empty_clause
    (set_order : forall A : Type, list A -> list A) (fuel : nat) (st : Store) :
  exists s,
    solve set_order simple (S fuel) only_empty_clause st = Ok (true, s) /\
    conflict_node (implication_graph s) = None /\
    decisions (implication_graph s) = [] /\
    is_unsatisfied (values s) (mkClause []) = true.
Proof.
  eexists. split; [reflexivity|]. repeat split.
Qed.

(** C5 as stated fails on [1 2 0]: the solver decides 1 = true, every
    clause is then satisfied, it answers SAT, and the assignment it reports
    leaves variable 2 unassigned. *)
Lemma assignment_leaves_variable_unassigned :
  exists s,
    solve insertion_order simple 10 one_or_two no_values = Ok (true, s) /\
    get_assignment s = [(x1, Some true); (x2, None)].
Proof.
  eexists. split; reflexivity.
Qed.

(* ================================================================== *)
(** * Proofs: the reported assignment (solvers.py)                     *)
(* ================================================================== *)

(** Case analysis on a computation that returned. *)
Ltac bind_ok H :=
  match type of H with
  | bind ?r _ = Ok _ =>
      let E := fresh "E" in
      destruct r eqn:E; simpl in H; [|discriminate H]
  end.

Lemma bcp_variables fuel :
  forall s b s', bcp fuel s = Ok (b, s') -> variables s' = variables s.
Proof.
  induction fuel as [|fuel IH]; intros s b s' H; simpl in H; [discriminate|].
  destruct (find_indexed (is_unit (values s)) 0 (clauses s)) as [[i c]|].
  - destruct (find _ (literals c)) as [l|]; [|discriminate].
    bind_ok H.
    destruct (find_indexed _ 0 (clauses s)) as [[j c']|].
    + bind_ok H. injection H as <- <-. reflexivity.
    + apply IH in H. exact H.
  - injection H as <- <-. reflexivity.
Qed.

Lemma decide_variables h s b s' :
  decide h s = Ok (b, s') -> variables s' = variables s.
Proof.
  destruct h; simpl.
  - unfold decide_simple.
    destruct (find _ (clauses s)) as [c|].
    + destruct (find _ (literals c)); [|discriminate].
      intros H. injection H as <- <-. reflexivity.
    + intros H. injection H as <- <-. reflexivity.
  - unfold decide_dlis.
    destruct (dlis_counts (values s) (clauses s)) as [[pos neg] count].
    destruct (Nat.eqb count 0).
    + intros H. injection H as <- <-. reflexivity.
    + intros H. bind_ok H. destruct a as [chosen v].
      injection H as <- <-. reflexivity.
Qed.

Section SolveVariables.

Variable set_order : forall A : Type, list A -> list A.

Lemma resolve_conflict_variables s b s' :
  resolve_conflict set_order s = Ok (b, s') -> variables s' = variables s.
Proof.
  unfold resolve_conflict.
  destruct (conflict_node (implication_graph s)).
  - destruct (Nat.leb (decision_level s) 0).
    + intros H. injection H as <- <-. reflexivity.
    + intros H. bind_ok H. bind_ok H. destruct a0 as [ants levels].
      destruct levels as [|l0 [|l1 rest]];
        injection H as <- <-; reflexivity.
  - intros H. injection H as <- <-. reflexivity.
Qed.

Lemma bcp_until_success_variables inner fuel :
  forall s r, bcp_until_success set_order inner fuel s = Ok r ->
    variables (match r with inl s' | inr s' => s' end) = variables s.
Proof.
  induction fuel as [|fuel IH]; intros s r H; simpl in H; [discriminate|].
  bind_ok H. destruct a as [ok s1]. apply bcp_variables in E.
  destruct ok.
  - injection H as <-. exact E.
  - bind_ok H. destruct a as [resolved s2].
    apply resolve_conflict_variables in E0.
    destruct resolved.
    + apply IH in H. congruence.
    + injection H as <-. congruence.
Qed.

Lemma main_loop_variables h inner fuel :
  forall s b s', main_loop set_order h inner fuel s = Ok (b, s') ->
    variables s' = variables s.
Proof.
  induction fuel as [|fuel IH]; intros s b s' H; simpl in H; [discriminate|].
  bind_ok H. destruct a as [decided s2]. apply decide_variables in E. simpl in E.
  destruct decided; simpl in H.
  - bind_ok H. apply bcp_until_success_variables in E0.
    destruct a as [s3|s3].
    + apply IH in H. congruence.
    + injection H as <- <-. congruence.
  - injection H as <- <-. exact E.
Qed.

Lemma solve_variables h fuel cs st b s :
  solve set_order h fuel cs st = Ok (b, s) ->
  variables s = fst (canonize_clauses cs).
Proof.
  unfold solve. destruct (canonize_clauses cs) as [vs ncs]. simpl.
  unfold solve_internal. simpl. intros H.
  bind_ok H. destruct a as [ok s1]. apply bcp_variables in E. simpl in E.
  bind_ok H. destruct a as [resolved s2]. apply resolve_conflict_variables in E0.
  destruct resolved; simpl in H.
  - apply main_loop_variables in H. congruence.
  - injection H as <- <-. congruence.
Qed.

End SolveVariables.

Lemma dict_get_none k d : dict_get k d = None <-> ~ In k (map fst d).
Proof.
  induction d as [|[k0 a0] d IH]; simpl.
  - split; auto.
  - destruct (String.eqb_spec k k0) as [->|N].
    + split; [discriminate|]. intros H. exfalso. apply H. left. reflexivity.
    + rewrite IH. split.
      * intros H [Q|Q]; [congruence|contradiction].
      * intros H Q. apply H. right. exact Q.
Qed.

Lemma dict_entries_ok_add d a :
  dict_entries_ok d -> dict_get (name a) d = None ->
  dict_entries_ok (d ++ [(name a, a)]).
Proof.
  intros [F N] G. split.
  - apply Forall_app. split; [exact F|]. constructor; [reflexivity|constructor].
  - rewrite map_app. simpl. apply NoDup_app; auto.
    + constructor; [intros []|constructor].
    + intros x Hx [<-|[]]. apply dict_get_none in G. contradiction.
Qed.

Lemma dict_entries_ok_wf d : dict_entries_ok d -> dict_wf d.
Proof.
  intros [F _] k a. induction d as [|[k0 a0] d IH]; simpl; [discriminate|].
  inversion F as [|? ? Hn F']; subst. simpl in Hn.
  destruct (String.eqb_spec k k0) as [->|N].
  - intros H. injection H as <-. exact Hn.
  - apply IH. exact F'.
Qed.

(** Every name of the input is bound by the dictionary that comes out. *)
Lemma canonize_literals_keys ls :
  forall vs vs' out,
    dict_entries_ok vs ->
    canonize_literals vs ls = (vs', out) ->
    dict_entries_ok vs' /\ dict_extends vs vs' /\
    (forall l, In l ls -> exists a, dict_get (name (atom l)) vs' = Some a).
Proof.
  induction ls as [|l rest IH]; intros vs vs' out W H; simpl in H.
  - injection H as <- <-. split; [assumption|]. split; [apply dict_extends_refl|].
    intros l [].
  - destruct (dict_get (name (atom l)) vs) as [canon|] eqn:G.
    + destruct (canonize_literals vs rest) as [vs2 cl] eqn:R.
      injection H as <- <-.
      destruct (IH _ _ _ W R) as (W2 & X2 & M2).
      split; [exact W2|]. split; [exact X2|].
      intros l0 [<-|Hin]; [|apply M2, Hin]. exists canon. apply X2, G.
    + destruct (canonize_literals (vs ++ [(name (atom l), atom l)]) rest)
        as [vs2 cl] eqn:R.
      injection H as <- <-.
      destruct (IH _ _ _ (dict_entries_ok_add _ _ W G) R) as (W2 & X2 & M2).
      split; [exact W2|]. split.
      * eapply dict_extends_trans; [apply dict_extends_add|exact X2].
      * intros l0 [<-|Hin]; [|apply M2, Hin]. exists (atom l).
        apply X2. rewrite dict_get_app, G, String.eqb_refl. reflexivity.
Qed.

Lemma canonize_loop_keys cs :
  forall vs vs' out,
    dict_entries_ok vs ->
    canonize_loop vs cs = (vs', out) ->
    dict_entries_ok vs' /\ dict_extends vs vs' /\
    (forall l, In l (all_literals cs) -> exists a, dict_get (name (atom l)) vs' = Some a).
Proof.
  induction cs as [|c rest IH]; intros vs vs' out W H; simpl in H.
  - injection H as <- <-. split; [assumption|]. split; [apply dict_extends_refl|].
    intros l [].
  - destruct (canonize_literals vs (literals c)) as [vs1 cl] eqn:L.
    destruct (canonize_loop vs1 rest) as [vs2 ncs] eqn:R.
    injection H as <- <-.
    destruct (canonize_literals_keys _ _ _ _ W L) as (W1 & X1 & M1).
    destruct (IH _ _ _ W1 R) as (W2 & X2 & M2).
    split; [exact W2|]. split.
    + eapply dict_extends_trans; eassumption.
    + intros l Hin. unfold all_literals in Hin. simpl in Hin.
      apply in_app_or in Hin as [Hin|Hin].
      * destruct (M1 _ Hin) as [a Ha]. exists a. apply X2, Ha.
      * apply M2, Hin.
Qed.

Lemma dict_entries_ok_nil : dict_entries_ok [].
Proof. split; constructor. Qed.

Lemma canonize_clauses_keys cs :
  dict_entries_ok (fst (canonize_clauses cs)) /\
  (forall l, In l (all_literals cs) ->
     exists a, dict_get (name (atom l)) (fst (canonize_clauses cs)) = Some a).
Proof.
  unfold canonize_clauses. destruct (canonize_loop [] cs) as [vs out] eqn:E.
  destruct (canonize_loop_keys _ _ _ _ dict_entries_ok_nil E) as (W & _ & M).
  simpl. auto.
Qed.

Lemma dict_values_names d :
  dict_entries_ok d -> map name (dict_values d) = map fst d.
Proof.
  intros [F _]. unfold dict_values. induction F as [|[k a] d Hn F IH]; simpl.
  - reflexivity.
  - simpl in Hn. rewrite Hn, IH. reflexivity.
Qed.

Lemma find_dict_values d b a :
  dict_entries_ok d -> dict_get (name b) d = Some a ->
  find (fun v => atom_eqb b v) (dict_values d) = Some a.
Proof.
  intros [F _]. induction F as [|[k a0] d Hn F IH]; simpl; [discriminate|].
  simpl in Hn. unfold atom_eqb at 1. rewrite Hn.
  destruct (String.eqb (name b) k); [intros H; exact H|exact IH].
Qed.

(** The dictionary that the loop of [get_assignment] builds, for atoms of
    distinct names. *)
Lemma assignment_loop_get st vals :
  NoDup (map name vals) ->
  forall b acc,
    atom_dict_get b
      (fold_left (fun assignments var => atom_dict_set var (value st var) assignments)
                 vals acc) =
    match find (fun v => atom_eqb b v) vals with
    | Some a => Some (value st a)
    | None => atom_dict_get b acc
    end.
Proof.
  induction vals as [|v vals IH]; intros ND b acc; simpl; [reflexivity|].
  inversion ND as [|? ? Hn ND']; subst.
  rewrite (IH ND'), atom_dict_get_set.
  destruct (atom_eqb b v) eqn:E; [|reflexivity].
  destruct (find (fun v0 => atom_eqb b v0) vals) as [a|] eqn:F; [|reflexivity].
  exfalso. apply find_some in F as [Hin Hb]. apply Hn.
  apply atom_eqb_eq in E, Hb. rewrite <- E, Hb. apply in_map. exact Hin.
Qed.

Lemma get_assignment_entry s b a :
  dict_entries_ok (variables s) ->
  dict_get (name b) (variables s) = Some a ->
  atom_dict_get b (get_assignment s) = Some (value (values s) a).
Proof.
  intros W G. unfold get_assignment.
  rewrite assignment_loop_get.
  - rewrite (find_dict_values _ _ _ W G). reflexivity.
  - rewrite dict_values_names by assumption. apply W.
Qed.

(** C5 (amended).  After a run that answered SAT, the dictionary of
    [get_assignment] has an entry for every variable of the input clauses;
    the entry is the current value of the one atom that stands for the name,
    which is true, false or unassigned. *)
Theorem assignment_covers_variables
    (set_order : forall A : Type, list A -> list A)
    (h : Heuristic) (fuel : nat) (cs : list Clause) (st : Store) (s : Solver) :
  solve set_order h fuel cs st = Ok (true, s) ->
  forall l, In l (all_literals cs) ->
    exists a,
      dict_get (name (atom l)) (variables s) = Some a /\
      name a = name (atom l) /\
      atom_dict_get (atom l) (get_assignment s) = Some (value (values s) a).
Proof.
  intros H l Hl.
  pose proof (solve_variables _ _ _ _ _ _ _ H) as V.
  destruct (canonize_clauses_keys cs) as [W K].
  rewrite <- V in W, K.
  destruct (K l Hl) as [a Ha]. exists a. split; [exact Ha|]. split.
  - apply (dict_entries_ok_wf _ W _ _ Ha).
  - apply get_assignment_entry; assumption.
Qed.

Lemma assignment_covers_variables_witness :
  exists s,
    solve insertion_order simple 10 one_or_two no_values = Ok (true, s) /\
    forall l, In l (all_literals one_or_two) ->
      exists a,
        dict_get (name (atom l)) (variables s) = Some a /\
        name a = name (atom l) /\
        atom_dict_get (atom l) (get_assignment s) = Some (value (values s) a).
Proof.
  eexists. split; [reflexivity|].
  apply (assignment_covers_variables insertion_order simple 10 one_or_two no_values).
  reflexivity.
Defined.

(* ================================================================== *)
(** * Proofs: the implication graph follows the assignment             *)
(* ================================================================== *)

Lemma canonical_same_name V a b :
  canonical V a -> canonical V b -> name a = name b -> a = b.
Proof. unfold canonical. intros Ha Hb E. rewrite E in Ha. congruence. Qed.

Lemma value_set_same st a v : value (set_value st a v) a = v.
Proof. unfold value, set_value. rewrite Nat.eqb_refl. reflexivity. Qed.

Lemma value_set_other st a v b :
  aid b <> aid a -> value (set_value st a v) b = value st b.
Proof.
  unfold value, set_value. intros H.
  destruct (Nat.eqb_spec (aid b) (aid a)); [contradiction|reflexivity].
Qed.

Lemma has_value_set_some st a v l :
  has_value st l = true -> has_value (set_value st a (Some v)) l = true.
Proof.
  unfold has_value, atom_has_value, value, set_value.
  destruct (Nat.eqb (aid (atom l)) (aid a)); auto.
Qed.

Lemma fresh_node_not_in (ns : list Node) (k : nat) (n : Node) :
  (forall m, In m ns -> nid m < k) -> nid n = k -> node_in n ns = false.
Proof.
  intros H E. unfold node_in.
  destruct (existsb (node_eqb n) ns) eqn:X; [|reflexivity].
  apply existsb_exists in X as [m [Hm Q]]. apply Nat.eqb_eq in Q.
  specialize (H m Hm). lia.
Qed.

Lemma decision_nodes_of_app g a ns es D cn k :
  graph_nodes g = ns ->
  forall n,
    decision_nodes_of (mkGraph (ns ++ [n]) es D cn k) a =
    decision_nodes_of g a ++
    (if is_decision_node n && atom_eqb (variable n) a then [n] else []).
Proof.
  intros <- n. unfold decision_nodes_of. simpl. rewrite filter_app. reflexivity.
Qed.

(** A new decision node for an unassigned variable, together with the
    assignment of the variable. *)
Lemma graph_invariant_new_decision V cs g dl st a v D :
  clauses_invariant V cs ->
  graph_invariant V g dl st ->
  no_conflict_node g ->
  canonical V a ->
  atom_has_value st a = false ->
  graph_invariant V
    (mkGraph (graph_nodes g ++ [DecisionNode (allocated g) a v dl])
             (graph_edges g) D (conflict_node g) (S (allocated g)))
    dl (set_value st a (Some v)) /\
  no_conflict_node
    (mkGraph (graph_nodes g ++ [DecisionNode (allocated g) a v dl])
             (graph_edges g) D (conflict_node g) (S (allocated g))).
Proof.
  intros C G NC Ca Ua. destruct G as [G1 G2 G3 G4 G5 G6 G7].
  assert (NC' : no_conflict_node
    (mkGraph (graph_nodes g ++ [DecisionNode (allocated g) a v dl])
             (graph_edges g) D (conflict_node g) (S (allocated g)))).
  { intros n Hn. simpl in Hn. apply in_app_or in Hn as [Hn|[<-|[]]]; auto. }
  split; [|exact NC'].
  constructor; simpl.
  - intros n Hn. apply in_app_or in Hn as [Hn|[<-|[]]]; auto.
  - intros n Hn. apply in_app_or in Hn as [Hn|[<-|[]]]; simpl; auto.
  - intros n Hn. apply in_app_or in Hn as [Hn|[<-|[]]]; simpl; [|lia].
    specialize (G3 n Hn). lia.
  - rewrite map_app. simpl. apply NoDup_app; auto.
    + constructor; [intros []|constructor].
    + intros x Hx [<-|[]]. apply in_map_iff in Hx as [n [E Hn]].
      specialize (G3 n Hn). lia.
  - intros e He. destruct (G5 e He). split; apply in_or_app; auto.
  - intros b Cb. rewrite (decision_nodes_of_app g b _ _ _ _ _ eq_refl).
    rewrite length_app, (G6 b Cb). simpl.
    destruct (atom_eqb a b) eqn:E.
    + apply atom_eqb_eq in E.
      pose proof (canonical_same_name V a b Ca Cb E) as <-.
      rewrite Ua. unfold atom_has_value. rewrite value_set_same. reflexivity.
    + assert (aid b <> aid a).
      { intros Q. pose proof (inv_objects _ _ C b a Cb Ca Q) as ->.
        rewrite atom_eqb_refl in E. discriminate. }
      unfold atom_has_value. rewrite value_set_other by assumption.
      simpl. lia.
  - intros n Hn Dn. rewrite (NC' n Hn) in Dn. discriminate.
Qed.

(** A graph with the same nodes satisfies the invariant as well, when its
    edges join nodes of the graph. *)
Lemma graph_invariant_same_nodes V g g' dl st :
  graph_nodes g' = graph_nodes g ->
  allocated g' = allocated g ->
  conflict_node g' = conflict_node g ->
  (forall e, In e (graph_edges g') ->
     In (source e) (graph_nodes g') /\ In (target e) (graph_nodes g')) ->
  graph_invariant V g dl st -> graph_invariant V g' dl st.
Proof.
  intros En Ea Ec He [G1 G2 G3 G4 G5 G6 G7].
  constructor; rewrite ?En, ?Ea, ?Ec; auto.
  - intros e H. rewrite <- En. apply He, H.
  - intros a Ca. unfold decision_nodes_of. rewrite En. apply G6, Ca.
Qed.

(** The conflict node that [add_conflict] creates next to the decision
    node of the variable just assigned. *)
Lemma graph_invariant_new_conflict V g dl st a D :
  graph_invariant V g dl st ->
  no_conflict_node g ->
  (exists m, In m (graph_nodes g) /\ is_decision_node m = true /\
             variable m = a /\ node_level m = dl) ->
  graph_invariant V
    (mkGraph (graph_nodes g ++ [ConflictNode (allocated g) a dl])
             (graph_edges g) D (Some (ConflictNode (allocated g) a dl))
             (S (allocated g)))
    dl st.
Proof.
  intros [G1 G2 G3 G4 G5 G6 G7] NC [m (Hm & Dm & Vm & Lm)].
  constructor; simpl.
  - intros n Hn. apply in_app_or in Hn as [Hn|[<-|[]]]; auto.
    simpl. rewrite <- Vm. auto.
  - intros n Hn. apply in_app_or in Hn as [Hn|[<-|[]]]; simpl; auto.
  - intros n Hn. apply in_app_or in Hn as [Hn|[<-|[]]]; simpl; [|lia].
    specialize (G3 n Hn). lia.
  - rewrite map_app. simpl. apply NoDup_app; auto.
    + constructor; [intros []|constructor].
    + intros x Hx [<-|[]]. apply in_map_iff in Hx as [n [E Hn]].
      specialize (G3 n Hn). lia.
  - intros e He. destruct (G5 e He). split; apply in_or_app; auto.
  - intros b Cb. rewrite (decision_nodes_of_app g b _ _ _ _ _ eq_refl).
    simpl. rewrite app_nil_r. apply G6, Cb.
  - intros n Hn Dn. apply in_app_or in Hn as [Hn|[<-|[]]].
    + rewrite (NC n Hn) in Dn. discriminate.
    + simpl. split; [reflexivity|]. split; [discriminate|].
      exists m. repeat split; auto. apply in_or_app. auto.
Qed.

Lemma update_edge_in u v c es e :
  In e (update_edge u v c es) ->
  (source e = u /\ target e = v) \/
  exists e', In e' es /\ source e = source e' /\ target e = target e'.
Proof.
  induction es as [|x es IH]; simpl.
  - intros [<-|[]]. left. auto.
  - destruct (node_eqb (source x) u && node_eqb (target x) v).
    + intros [E|H].
      * right. exists x. subst e. simpl. auto.
      * right. exists e. auto.
    + intros [E|H].
      * right. exists e. subst e. auto.
      * destruct (IH H) as [?|[e' (? & ? & ?)]]; [auto|].
        right. exists e'. simpl. auto.
Qed.

Lemma nx_add_node_present n g :
  In n (graph_nodes g) -> nx_add_node n g = g.
Proof.
  intros H. unfold nx_add_node. rewrite (node_in_In _ _ H). reflexivity.
Qed.

(** The edges into a new node: when every atom looked up has a node, the
    loop returns, and leaves the nodes of the graph as they are. *)
Lemma add_antecedent_edges_ok s ls new c :
  forall g,
    In new (graph_nodes g) ->
    (forall l, In l ls -> exists n, In n (graph_nodes g) /\
                                    atom_eqb (variable n) (atom l) = true) ->
    (forall e, In e (graph_edges g) ->
       In (source e) (graph_nodes g) /\ In (target e) (graph_nodes g)) ->
    exists g',
      add_antecedent_edges s ls new c g = Ok g' /\
      graph_nodes g' = graph_nodes g /\
      decisions g' = decisions g /\
      conflict_node g' = conflict_node g /\
      allocated g' = allocated g /\
      (forall e, In e (graph_edges g') ->
         In (source e) (graph_nodes g') /\ In (target e) (graph_nodes g')).
Proof.
  induction ls as [|l ls IH]; intros g Hnew Hls He; simpl.
  - exists g. repeat split; auto; apply He; assumption.
  - unfold previous_decision.
    destruct (find (fun n => atom_eqb (variable n) (atom l)) (graph_nodes g))
      as [p|] eqn:F.
    + simpl. apply find_some in F as [Hp _].
      assert (Eg : graph_nodes (nx_add_edge p new c g) = graph_nodes g).
      { unfold nx_add_edge. simpl.
        rewrite (nx_add_node_present p g Hp), (nx_add_node_present new g Hnew).
        reflexivity. }
      destruct (IH (nx_add_edge p new c g)) as (g' & R & N' & D' & C' & A' & E').
      * rewrite Eg. exact Hnew.
      * intros l0 Hl0. rewrite Eg. apply Hls. right. exact Hl0.
      * rewrite Eg. unfold nx_add_edge. simpl.
        rewrite (nx_add_node_present p g Hp), (nx_add_node_present new g Hnew).
        intros e Hin. apply update_edge_in in Hin as [[-> ->]|[e' (Hin & -> & ->)]].
        -- auto.
        -- apply He, Hin.
      * exists g'. rewrite R, N', D', C', A', Eg.
        unfold nx_add_edge. simpl.
        rewrite (nx_add_node_present p g Hp), (nx_add_node_present new g Hnew).
        repeat split; auto.
        -- rewrite <- Eg, <- N'. apply E'. assumption.
        -- rewrite <- Eg, <- N'. apply E'. assumption.
    + exfalso. destruct (Hls l (or_introl eq_refl)) as [n [Hn Q]].
      pose proof (find_none _ _ F n Hn) as Q'. simpl in Q'. congruence.
Qed.

Lemma nx_add_node_fresh n g :
  node_in n (graph_nodes g) = false ->
  nx_add_node n g =
  mkGraph (graph_nodes g ++ [n]) (graph_edges g) (decisions g)
          (conflict_node g) (allocated g).
Proof. intros H. unfold nx_add_node. rewrite H. reflexivity. Qed.

Lemma add_decision_eq g a v dl :
  (forall n, In n (graph_nodes g) -> nid n < allocated g) ->
  add_decision g a v dl =
  mkGraph (graph_nodes g ++ [DecisionNode (allocated g) a v dl]) (graph_edges g)
          (decisions g ++ [DecisionNode (allocated g) a v dl])
          (conflict_node g) (S (allocated g)).
Proof.
  intros H. unfold add_decision. rewrite nx_add_node_fresh; [reflexivity|].
  simpl. apply (fresh_node_not_in _ (allocated g)); auto.
Qed.

(** An assigned variable has a decision node. *)
Lemma assigned_has_node V g dl st a :
  graph_invariant V g dl st -> canonical V a -> atom_has_value st a = true ->
  exists n, In n (graph_nodes g) /\ is_decision_node n = true /\
            atom_eqb (variable n) a = true.
Proof.
  intros G Ca Ha. pose proof (inv_one_node _ _ _ _ G a Ca) as L.
  rewrite Ha in L. unfold decision_nodes_of in L.
  destruct (filter _ (graph_nodes g)) as [|n rest] eqn:F; [discriminate|].
  assert (Hn : In n (filter (fun n => is_decision_node n && atom_eqb (variable n) a)
                            (graph_nodes g))) by (rewrite F; left; reflexivity).
  apply filter_In in Hn as [Hn Q]. apply andb_prop in Q as [Q1 Q2]. eauto.
Qed.

(** The lookup of [add_forced_decision] and [add_conflict], for an assigned
    variable in a graph without conflict node: it returns a decision node
    of the variable. *)
Lemma previous_decision_found V g dl st a :
  graph_invariant V g dl st -> no_conflict_node g ->
  canonical V a -> atom_has_value st a = true ->
  forall s, exists n,
    previous_decision s g a = Ok n /\ In n (graph_nodes g) /\
    is_decision_node n = true /\ variable n = a.
Proof.
  intros G NC Ca Ha s. unfold previous_decision.
  destruct (find (fun n => atom_eqb (variable n) a) (graph_nodes g)) as [n|] eqn:F.
  - apply find_some in F as [Hn Q]. exists n. repeat split; auto.
    apply atom_eqb_eq in Q.
    apply (canonical_same_name V); auto. apply (inv_node_atoms _ _ _ _ G n Hn).
  - exfalso. destruct (assigned_has_node _ _ _ _ _ G Ca Ha) as [n (Hn & _ & Q)].
    pose proof (find_none _ _ F n Hn) as Q'. simpl in Q'. congruence.
Qed.

Lemma add_decision_invariant V cs g dl st a v :
  clauses_invariant V cs ->
  graph_invariant V g dl st ->
  no_conflict_node g ->
  canonical V a ->
  atom_has_value st a = false ->
  graph_invariant V (add_decision g a v dl) dl (set_value st a (Some v)) /\
  no_conflict_node (add_decision g a v dl).
Proof.
  intros C G NC Ca Ua.
  rewrite add_decision_eq by (apply (inv_node_ids _ _ _ _ G)).
  apply (graph_invariant_new_decision V cs); assumption.
Qed.

Lemma add_forced_decision_invariant V cs g dl st a v i c :
  clauses_invariant V cs ->
  graph_invariant V g dl st ->
  no_conflict_node g ->
  canonical V a ->
  atom_has_value st a = false ->
  (forall l, In l (literals c) -> atom_eqb (atom l) a = false ->
             canonical V (atom l) /\ has_value st l = true) ->
  exists g',
    add_forced_decision g a v i c dl = Ok g' /\
    graph_invariant V g' dl (set_value st a (Some v)) /\
    no_conflict_node g' /\
    exists m, In m (graph_nodes g') /\ is_decision_node m = true /\
              variable m = a /\ node_level m = dl.
Proof.
  intros C G NC Ca Ua Hc.
  unfold add_forced_decision.
  rewrite nx_add_node_fresh
    by (simpl; apply (fresh_node_not_in _ (allocated g));
        [apply (inv_node_ids _ _ _ _ G)|reflexivity]).
  simpl.
  destruct (graph_invariant_new_decision V cs g dl st a v (decisions g) C G NC Ca Ua)
    as [G1 NC1].
  set (new := DecisionNode (allocated g) a v dl) in *.
  set (g1 := mkGraph (graph_nodes g ++ [new]) (graph_edges g) (decisions g)
               (conflict_node g) (S (allocated g))) in *.
  destruct (add_antecedent_edges_ok in_add_forced_decision
              (filter (fun l => negb (atom_eqb (atom l) a)) (literals c))
              new i g1) as (g' & R & N' & D' & C' & A' & E').
  - simpl. apply in_or_app. right. left. reflexivity.
  - intros l Hl. apply filter_In in Hl as [Hl Q]. apply negb_true_iff in Q.
    destruct (Hc l Hl Q) as [Cl Vl].
    destruct (assigned_has_node V g1 dl _ (atom l) G1 Cl) as [n (Hn & _ & Qn)].
    + apply (has_value_set_some st a v l Vl).
    + eauto.
  - apply (inv_edge_ends _ _ _ _ G1).
  - exists g'. split; [exact R|]. split; [|split].
    + apply (graph_invariant_same_nodes V g1); auto.
    + intros n Hn. rewrite N' in Hn. apply NC1, Hn.
    + exists new. rewrite N'. simpl. repeat split; auto.
      apply in_or_app. right. left. reflexivity.
Qed.

Lemma add_conflict_invariant V g dl st a j c :
  graph_invariant V g dl st ->
  no_conflict_node g ->
  (exists m, In m (graph_nodes g) /\ is_decision_node m = true /\
             variable m = a /\ node_level m = dl) ->
  (forall l, In l (literals c) -> canonical V (atom l) /\ has_value st l = true) ->
  exists g',
    add_conflict g a j c dl = Ok g' /\ graph_invariant V g' dl st.
Proof.
  intros G NC Hm Hc.
  unfold add_conflict.
  rewrite nx_add_node_fresh
    by (simpl; apply (fresh_node_not_in _ (allocated g));
        [apply (inv_node_ids _ _ _ _ G)|reflexivity]).
  simpl.
  pose proof (graph_invariant_new_conflict V g dl st a (decisions g) G NC Hm) as G1.
  set (K := ConflictNode (allocated g) a dl) in *.
  set (g1 := mkGraph (graph_nodes g ++ [K]) (graph_edges g) (decisions g)
               (Some K) (S (allocated g))) in *.
  destruct (add_antecedent_edges_ok in_add_conflict (literals c) K j g1)
    as (g' & R & N' & D' & C' & A' & E').
  - simpl. apply in_or_app. right. left. reflexivity.
  - intros l Hl. destruct (Hc l Hl) as [Cl Vl].
    destruct (assigned_has_node V g1 dl st (atom l) G1 Cl Vl) as [n (Hn & _ & Qn)].
    eauto.
  - apply (inv_edge_ends _ _ _ _ G1).
  - exists g'. split; [exact R|].
    apply (graph_invariant_same_nodes V g1); auto.
Qed.

Lemma filter_length_split {A} (f : A -> bool) l :
  length (filter f l) + length (filter (fun x => negb (f x)) l) = length l.
Proof.
  induction l as [|x l IH]; simpl; [reflexivity|].
  destruct (f x); simpl; lia.
Qed.

(** A unit clause has one unassigned literal. *)
Lemma unit_unassigned_unique st c l l' :
  is_unit st c = true ->
  In l (literals c) -> has_value st l = false ->
  In l' (literals c) -> has_value st l' = false -> l' = l.
Proof.
  unfold is_unit. intros U Hl Vl Hl' Vl'.
  destruct (Z.eqb_spec (Z.of_nat (length (filter (has_value st) (literals c))))
                       (Z.of_nat (length (literals c)) - 1)) as [E|]; [|discriminate].
  pose proof (filter_length_split (has_value st) (literals c)) as S.
  assert (L1 : length (filter (fun x => negb (has_value st x)) (literals c)) = 1) by lia.
  assert (I : In l (filter (fun x => negb (has_value st x)) (literals c)))
    by (apply filter_In; rewrite Vl; auto).
  assert (I' : In l' (filter (fun x => negb (has_value st x)) (literals c)))
    by (apply filter_In; rewrite Vl'; auto).
  destruct (filter (fun x => negb (has_value st x)) (literals c)) as [|x [|y r]];
    try discriminate.
  destruct I as [<-|[]], I' as [<-|[]]. reflexivity.
Qed.

Lemma find_indexed_some {A} (p : A -> bool) l :
  forall i j x, find_indexed p i l = Some (j, x) -> In x l /\ p x = true.
Proof.
  induction l as [|y l IH]; intros i j x; simpl; [discriminate|].
  destruct (p y) eqn:P.
  - intros H. injection H as <- <-. auto.
  - intros H. destruct (IH _ _ _ H). auto.
Qed.

Lemma in_all_literals cs c l :
  In c cs -> In l (literals c) -> In l (all_literals cs).
Proof. intros Hc Hl. unfold all_literals. apply in_flat_map. eauto. Qed.

Lemma unsatisfied_all_assigned st c l :
  is_unsatisfied st c = true -> In l (literals c) -> has_value st l = true.
Proof.
  unfold is_unsatisfied.
  destruct (forallb (has_value st) (literals c)) eqn:F; [|discriminate].
  intros _ Hl. rewrite forallb_forall in F. apply F, Hl.
Qed.

(** [bcp] keeps the invariant and its lookups succeed. *)
Lemma bcp_invariant fuel :
  forall s,
    solver_invariant s -> no_conflict_node (implication_graph s) ->
    match bcp fuel s with
    | Ok (true, s') => solver_invariant s' /\ no_conflict_node (implication_graph s')
    | Ok (false, s') => solver_invariant s'
    | Raise e => is_lookup_error e = false
    end.
Proof.
  induction fuel as [|fuel IH]; intros s [C G] NC; simpl; [reflexivity|].
  destruct (find_indexed (is_unit (values s)) 0 (clauses s)) as [[i c]|] eqn:FU.
  2:{ split; [split|]; assumption. }
  apply find_indexed_some in FU as [Hc Uc].
  destruct (find (fun l => negb (has_value (values s) l)) (literals c)) as [l|] eqn:FL.
  2:{ reflexivity. }
  apply find_some in FL as [Hl Vl]. apply negb_true_iff in Vl.
  assert (Cl : canonical (variables s) (atom l)).
  { apply (inv_literals _ _ C). apply (in_all_literals _ c); assumption. }
  destruct (add_forced_decision_invariant (variables s) (clauses s)
              (implication_graph s) (decision_level s) (values s)
              (atom l) (positive l) i c C G NC Cl Vl)
    as (g1 & R1 & G1 & NC1 & M1).
  { intros l' Hl' Q. split.
    - apply (inv_literals _ _ C). apply (in_all_literals _ c); assumption.
    - destruct (has_value (values s) l') eqn:V'; [reflexivity|].
      pose proof (unit_unassigned_unique _ _ _ _ Uc Hl Vl Hl' V') as ->.
      rewrite atom_eqb_refl in Q. discriminate. }
  rewrite R1. simpl.
  set (st' := set_value (values s) (atom l) (Some (positive l))) in *.
  destruct (find_indexed (is_unsatisfied st') 0 (clauses s)) as [[j c']|] eqn:FC.
  - apply find_indexed_some in FC as [Hc' Uc'].
    destruct (add_conflict_invariant (variables s) g1 (decision_level s) st'
                (atom l) j c' G1 NC1 M1) as (g2 & R2 & G2).
    { intros l' Hl'. split.
      - apply (inv_literals _ _ C). apply (in_all_literals _ c'); assumption.
      - apply (unsatisfied_all_assigned st' c'); assumption. }
    rewrite R2. simpl. split; assumption.
  - apply IH.
    + split; assumption.
    + exact NC1.
Qed.

Lemma decide_dlis_nothing s :
  filter (is_unresolved (values s)) (clauses s) = [] ->
  decide_dlis s = Ok (false, s).
Proof.
  intros H. unfold decide_dlis. rewrite dlis_counts_flat, H.
  destruct (fold_left dlis_count_literal _ _). reflexivity.
Qed.

(** [decide] keeps the invariant. *)
Lemma decide_invariant h s :
  solver_invariant s -> no_conflict_node (implication_graph s) ->
  match decide h s with
  | Ok (_, s') => solver_invariant s' /\ no_conflict_node (implication_graph s')
  | Raise e => is_lookup_error e = false
  end.
Proof.
  intros [C G] NC. destruct h; simpl.
  - unfold decide_simple.
    destruct (find (is_unresolved (values s)) (clauses s)) as [c|] eqn:FC.
    2:{ split; [split|]; assumption. }
    apply find_some in FC as [Hc Uc].
    destruct (find (fun v => negb (has_value (values s) v)) (literals c))
      as [l|] eqn:FL.
    2:{ reflexivity. }
    apply find_some in FL as [Hl Vl]. apply negb_true_iff in Vl.
    assert (Cl : canonical (variables s) (atom l)).
    { apply (inv_literals _ _ C). apply (in_all_literals _ c); assumption. }
    destruct (add_decision_invariant _ _ _ _ _ (atom l) true C G NC Cl Vl) as [G1 NC1].
    split; [split|]; assumption.
  - destruct (filter (is_unresolved (values s)) (clauses s)) as [|c0 r] eqn:F.
    + rewrite (decide_dlis_nothing s F). split; [split|]; assumption.
    + assert (Hc0 : In c0 (filter (is_unresolved (values s)) (clauses s)))
        by (rewrite F; left; reflexivity).
      apply filter_In in Hc0.
      destruct (decide_dlis_decides s (ex_intro _ c0 Hc0))
        as (chosen & v & R & (c & l & Hc & Uc & Hl & Vl & <-) & _).
      rewrite R.
      assert (Cl : canonical (variables s) (atom l)).
      { apply (inv_literals _ _ C). apply (in_all_literals _ c); assumption. }
      destruct (add_decision_invariant _ _ _ _ _ (atom l) v C G NC Cl Vl) as [G1 NC1].
      split; [split|]; assumption.
Qed.

(* ------------------------------------------------------------------ *)
(** ** The decision levels of a conflict                               *)
(* ------------------------------------------------------------------ *)

Lemma fold_left_preserves {A B} (Q : A -> Prop) (f : A -> B -> A) l :
  forall init,
    (forall acc x, In x l -> Q acc -> Q (f acc x)) ->
    Q init -> Q (fold_left f l init).
Proof.
  induction l as [|x l IH]; intros init H Q0; simpl; [exact Q0|].
  apply IH.
  - intros acc y Hy. apply H. right. exact Hy.
  - apply H; [left; reflexivity|exact Q0].
Qed.

Lemma nat_set_add_in n s x : In x (nat_set_add n s) -> x = n \/ In x s.
Proof.
  unfold nat_set_add. destruct (existsb (Nat.eqb n) s); [auto|].
  intros H. apply in_app_or in H as [H|[<-|[]]]; auto.
Qed.

Lemma nat_set_add_nodup n s : NoDup s -> NoDup (nat_set_add n s).
Proof.
  unfold nat_set_add. destruct (existsb (Nat.eqb n) s) eqn:E; [auto|].
  intros ND. apply NoDup_app; auto.
  - constructor; [intros []|constructor].
  - intros x Hx [<-|[]].
    assert (existsb (Nat.eqb n) s = true); [|congruence].
    apply existsb_exists. exists n. split; [assumption|apply Nat.eqb_refl].
Qed.

Lemma insert_descending_perm n l : Permutation (insert_descending n l) (n :: l).
Proof.
  induction l as [|m l IH]; simpl; [apply Permutation_refl|].
  destruct (Nat.leb m n); [apply Permutation_refl|].
  eapply Permutation_trans; [apply perm_skip, IH|apply perm_swap].
Qed.

Lemma sorted_reverse_perm l : Permutation (sorted_reverse l) l.
Proof.
  induction l as [|n l IH]; simpl; [constructor|].
  eapply Permutation_trans; [apply insert_descending_perm|].
  apply perm_skip, IH.
Qed.

Lemma insert_descending_descending n l :
  descending l -> descending (insert_descending n l).
Proof.
  induction l as [|m l IH]; simpl.
  - intros _. split; [intros y []|exact I].
  - intros [Hm Hl]. destruct (Nat.leb_spec m n) as [Le|Gt]; simpl.
    + split; [|split; assumption].
      intros y [<-|Hy]; [assumption|]. specialize (Hm y Hy). lia.
    + split; [|apply IH, Hl].
      intros y Hy.
      apply (Permutation_in _ (insert_descending_perm n l)) in Hy.
      destruct Hy as [<-|Hy]; [lia|apply Hm, Hy].
Qed.

Lemma sorted_reverse_descending l : descending (sorted_reverse l).
Proof.
  induction l as [|n l IH]; simpl; [exact I|].
  apply insert_descending_descending, IH.
Qed.

(** The second of the sorted levels is below the first. *)
Lemma sorted_reverse_second l x y rest :
  NoDup l -> sorted_reverse l = x :: y :: rest -> y < x /\ In x l.
Proof.
  intros ND E.
  pose proof (sorted_reverse_descending l) as D. rewrite E in D.
  pose proof (sorted_reverse_perm l) as P. rewrite E in P.
  assert (ND' : NoDup (x :: y :: rest)).
  { apply (Permutation_NoDup (Permutation_sym P)), ND. }
  destruct D as [Hx _]. specialize (Hx y (or_introl eq_refl)).
  inversion ND' as [|? ? Hn _]; subst.
  split.
  - assert (x <> y) by (intros ->; apply Hn; left; reflexivity). lia.
  - apply (Permutation_in _ P). left. reflexivity.
Qed.

Lemma find_first_uip_error g e :
  find_first_uip g = Raise e -> is_lookup_error e = false.
Proof.
  unfold find_first_uip, find_uips.
  destruct (conflict_node g); [|discriminate].
  destruct (rev (decisions g)); [discriminate|].
  unfold all_simple_paths.
  destruct (negb _ || negb _); simpl.
  - intros H. injection H as <-. reflexivity.
  - destruct (node_eqb _ _); simpl.
    + intros H. injection H as <-. reflexivity.
    + destruct (simple_paths _ _ _ _ _); simpl.
      * intros H. injection H as <-. reflexivity.
      * destruct (rev _); discriminate.
Qed.

Lemma literal_set_add_in x s l : In l (literal_set_add x s) -> l = x \/ In l s.
Proof.
  unfold literal_set_add. destruct (existsb (literal_eqb x) s); [auto|].
  intros H. apply in_app_or in H as [H|[<-|[]]]; auto.
Qed.

Lemma partition_literals_in ls :
  forall pos neg l,
    (In l (fst (partition_literals ls pos neg)) -> In l pos \/ In l ls) /\
    (In l (snd (partition_literals ls pos neg)) -> In l neg \/ In l ls).
Proof.
  induction ls as [|x ls IH]; intros pos neg l; simpl; [auto|].
  destruct (positive x).
  - destruct (IH (literal_set_add x pos) neg l) as [H1 H2]. split; intros H.
    + destruct (H1 H) as [Q|Q]; [|auto].
      apply literal_set_add_in in Q as [->|Q]; auto.
    + destruct (H2 H) as [Q|Q]; auto.
  - destruct (IH pos (literal_set_add x neg) l) as [H1 H2]. split; intros H.
    + destruct (H1 H) as [Q|Q]; auto.
    + destruct (H2 H) as [Q|Q]; [|auto].
      apply literal_set_add_in in Q as [->|Q]; auto.
Qed.

Section ConflictResolution.

Variable set_order : forall A : Type, list A -> list A.
Hypothesis set_order_perm : forall A (l : list A), Permutation (set_order A l) l.

(** The literals of a resolvent are literals of the operands. *)
Lemma resolve_in c1 c2 l :
  In l (literals (resolve set_order c1 c2)) ->
  In l (literals c1) \/ In l (literals c2).
Proof.
  unfold resolve.
  destruct (partition_literals (literals c1 ++ literals c2) [] []) as [pos neg] eqn:E.
  simpl. intros H.
  destruct (partition_literals_in (literals c1 ++ literals c2) [] [] l) as [H1 H2].
  rewrite E in H1, H2. simpl in H1, H2.
  apply in_app_or in H as [H|H]; apply filter_In in H as [H _];
    apply (Permutation_in _ (set_order_perm _ _)) in H.
  - destruct (H1 H) as [[]|Q]. apply in_app_or, Q.
  - destruct (H2 H) as [[]|Q]. apply in_app_or, Q.
Qed.

(** The learned clause is made of literals of the clause list. *)
Lemma learn_literals cs antecedents l :
  In l (literals (learn set_order cs antecedents)) -> In l (all_literals cs).
Proof.
  unfold learn. revert l.
  apply (fold_left_preserves
           (fun c => forall l, In l (literals c) -> In l (all_literals cs))).
  - intros acc i _ Q l H. apply resolve_in in H as [H|H]; [apply Q, H|].
    destruct (nth_in_or_default i cs (mkClause [])) as [Hin|Hd].
    + apply (in_all_literals _ _ _ Hin H).
    + rewrite Hd in H. destruct H.
  - intros l [].
Qed.

Lemma get_conflict_information_error g u e :
  get_conflict_information set_order g u = Raise e -> is_lookup_error e = false.
Proof.
  unfold get_conflict_information. destruct u as [u|].
  - destruct (negb (node_in u (graph_nodes g))).
    + intros H. injection H as <-. reflexivity.
    + destruct (fold_left _ _ _). discriminate.
  - intros H. injection H as <-. reflexivity.
Qed.

(** The sorted decision levels of a conflict: the second is below the
    current level. *)
Lemma get_conflict_information_levels V g dl st u antecedents x y rest :
  graph_invariant V g dl st ->
  get_conflict_information set_order g u = Ok (antecedents, x :: y :: rest) ->
  y < dl.
Proof.
  intros G. unfold get_conflict_information. destruct u as [u|]; [|discriminate].
  destruct (negb (node_in u (graph_nodes g))); [discriminate|].
  set (Q := fun acc : list nat * list nat =>
              NoDup (snd acc) /\ forall z, In z (snd acc) -> z <= dl).
  assert (HQ : Q (fold_left
            (fun '(antecedents, decision_levels) successor =>
               conflict_information_of_edges (nx_in_edges g successor)
                 (antecedents, nat_set_add (node_level successor) decision_levels))
            (nx_successors g u) ([], []))).
  { apply fold_left_preserves.
    - intros [ants dls] succ Hs [ND B].
      unfold conflict_information_of_edges.
      apply fold_left_preserves.
      + intros [ants' dls'] e He [ND' B']. simpl. split.
        * apply nat_set_add_nodup, ND'.
        * intros z Hz. apply nat_set_add_in in Hz as [->|Hz]; [|apply B', Hz].
          unfold nx_in_edges in He. apply filter_In in He as [He _].
          apply (inv_node_levels _ _ _ _ G), (inv_edge_ends _ _ _ _ G), He.
      + simpl. split.
        * apply nat_set_add_nodup, ND.
        * intros z Hz. apply nat_set_add_in in Hz as [->|Hz]; [|apply B, Hz].
          unfold nx_successors in Hs. apply in_map_iff in Hs as [e [<- He]].
          apply filter_In in He as [He _].
          apply (inv_node_levels _ _ _ _ G), (inv_edge_ends _ _ _ _ G), He.
    - split; [constructor|intros z []]. }
  destruct (fold_left _ (nx_successors g u) ([], [])) as [ants dls].
  destruct HQ as [ND B]. simpl in ND, B.
  intros H. injection H as _ E.
  assert (ND' : NoDup (set_order nat dls)).
  { apply (Permutation_NoDup (Permutation_sym (set_order_perm _ dls))), ND. }
  destruct (sorted_reverse_second _ _ _ _ ND' E) as [Lt Hx].
  apply (Permutation_in _ (set_order_perm _ dls)) in Hx.
  specialize (B x Hx). lia.
Qed.

Lemma NoDup_map_filter {A B} (f : A -> B) (p : A -> bool) l :
  NoDup (map f l) -> NoDup (map f (filter p l)).
Proof.
  induction l as [|x l IH]; simpl; [auto|].
  intros ND. inversion ND as [|? ? Hn ND']; subst.
  destruct (p x); simpl; [|auto].
  constructor; [|auto].
  intros H. apply Hn. apply in_map_iff in H as [y [E Hy]].
  apply filter_In in Hy as [Hy _]. rewrite <- E. apply in_map, Hy.
Qed.

Lemma filter_comm {A} (p q : A -> bool) l :
  filter p (filter q l) = filter q (filter p l).
Proof.
  induction l as [|x l IH]; simpl; [reflexivity|].
  destruct (p x) eqn:P, (q x) eqn:Q; simpl; rewrite ?P, ?Q, IH; reflexivity.
Qed.

(** The nodes that [clear_decisions] leaves, in a graph of distinct node
    objects. *)
Lemma clear_decisions_nodes_kept g st keep :
  NoDup (map nid (graph_nodes g)) ->
  graph_nodes (fst (clear_decisions set_order g st keep)) =
  filter (fun n => Nat.leb (node_level n) keep) (graph_nodes g).
Proof.
  intros ND. rewrite (clear_decisions_nodes set_order set_order_perm).
  rewrite (filter_not_node_in _ _ ND _ (Permutation_refl _)).
  apply filter_ext_in'. intros x _.
  destruct (Nat.ltb_spec keep (node_level x)), (Nat.leb_spec (node_level x) keep);
    simpl; try reflexivity; lia.
Qed.

Lemma clear_decisions_values g st keep i :
  snd (clear_decisions set_order g st keep) i =
  if existsb (fun n => Nat.eqb i (aid (variable n)))
       (filter (fun n => Nat.ltb keep (node_level n)) (graph_nodes g))
  then None else st i.
Proof. unfold clear_decisions. simpl. apply reset_values_get. Qed.

Lemma clear_decisions_edges g st keep e :
  In e (graph_edges (fst (clear_decisions set_order g st keep))) ->
  In e (graph_edges g) /\
  node_in (source e)
    (filter (fun n => Nat.ltb keep (node_level n)) (graph_nodes g)) = false /\
  node_in (target e)
    (filter (fun n => Nat.ltb keep (node_level n)) (graph_nodes g)) = false.
Proof.
  unfold clear_decisions. simpl. rewrite remove_nodes_edges. simpl.
  intros H. apply filter_In in H as [H Q]. apply andb_prop in Q as [Q1 Q2].
  apply negb_true_iff in Q1, Q2. unfold node_in in *.
  rewrite (existsb_perm _ _ _ (set_order_perm _ _)) in Q1.
  rewrite (existsb_perm _ _ _ (set_order_perm _ _)) in Q2. auto.
Qed.

Lemma clear_decisions_allocated g st keep :
  allocated (fst (clear_decisions set_order g st keep)) = allocated g.
Proof.
  unfold clear_decisions. simpl.
  destruct (remove_nodes_decisions
              (set_order _ (filter (fun n => Nat.ltb keep (node_level n)) (graph_nodes g)))
              (mkGraph (graph_nodes g) (graph_edges g)
                 (pop_decisions keep (decisions g)) (conflict_node g) (allocated g)))
    as (_ & _ & ->). reflexivity.
Qed.

(** Backjumping below the current level keeps the invariant and removes
    the conflict node from the graph. *)
Lemma clear_decisions_invariant V cs g dl st keep :
  clauses_invariant V cs ->
  graph_invariant V g dl st ->
  keep < dl ->
  graph_invariant V (fst (clear_decisions set_order g st keep)) keep
                  (snd (clear_decisions set_order g st keep)) /\
  no_conflict_node (fst (clear_decisions set_order g st keep)).
Proof.
  intros C G Lt.
  pose proof (clear_decisions_nodes_kept g st keep (inv_node_distinct _ _ _ _ G)) as EN.
  assert (NC : no_conflict_node (fst (clear_decisions set_order g st keep))).
  { intros n Hn. rewrite EN in Hn. apply filter_In in Hn as [Hn Ln].
    apply Nat.leb_le in Ln.
    destruct (is_decision_node n) eqn:Dn; [reflexivity|].
    destruct (inv_conflict_nodes _ _ _ _ G n Hn Dn) as [E _]. lia. }
  split; [|exact NC].
  constructor.
  - intros n Hn. rewrite EN in Hn. apply filter_In in Hn as [Hn _].
    apply (inv_node_atoms _ _ _ _ G), Hn.
  - intros n Hn. rewrite EN in Hn. apply filter_In in Hn as [_ Ln].
    apply Nat.leb_le, Ln.
  - intros n Hn. rewrite EN in Hn. apply filter_In in Hn as [Hn _].
    rewrite clear_decisions_allocated. apply (inv_node_ids _ _ _ _ G), Hn.
  - rewrite EN. apply NoDup_map_filter, (inv_node_distinct _ _ _ _ G).
  - intros e He. apply clear_decisions_edges in He as (He & Qs & Qt).
    destruct (inv_edge_ends _ _ _ _ G e He) as [Hs Ht].
    rewrite EN. split; apply filter_In; split; auto; apply Nat.leb_le.
    + destruct (Nat.le_gt_cases (node_level (source e)) keep) as [|Gt]; [assumption|].
      rewrite node_in_In in Qs; [discriminate|].
      apply filter_In. split; [assumption|]. apply Nat.ltb_lt, Gt.
    + destruct (Nat.le_gt_cases (node_level (target e)) keep) as [|Gt]; [assumption|].
      rewrite node_in_In in Qt; [discriminate|].
      apply filter_In. split; [assumption|]. apply Nat.ltb_lt, Gt.
  - intros a Ca.
    pose proof (inv_one_node _ _ _ _ G a Ca) as L.
    unfold decision_nodes_of in *. rewrite EN, filter_comm.
    unfold atom_has_value, value. rewrite clear_decisions_values.
    fold (value st a). fold (atom_has_value st a).
    destruct (atom_has_value st a) eqn:Ha.
    + (* assigned: one decision node [m] *)
      destruct (filter (fun n => is_decision_node n && atom_eqb (variable n) a)
                       (graph_nodes g)) as [|m [|m' r]] eqn:F; try discriminate.
      assert (Hm : In m (filter (fun n => is_decision_node n && atom_eqb (variable n) a)
                                (graph_nodes g))) by (rewrite F; left; reflexivity).
      apply filter_In in Hm as [Hm Q]. apply andb_prop in Q as [Dm Qm].
      assert (Vm : variable m = a).
      { apply (canonical_same_name V); auto.
        - apply (inv_node_atoms _ _ _ _ G), Hm.
        - apply atom_eqb_eq, Qm. }
      simpl. destruct (Nat.leb_spec (node_level m) keep) as [Le|Gt].
      * (* the node stays, and no removed node resets the variable *)
        assert (X : existsb (fun n => Nat.eqb (aid a) (aid (variable n)))
                      (filter (fun n => Nat.ltb keep (node_level n)) (graph_nodes g))
                    = false).
        { destruct (existsb _ _) eqn:X; [|reflexivity]. exfalso.
          apply existsb_exists in X as [n [Hn E]].
          apply filter_In in Hn as [Hn Ln]. apply Nat.ltb_lt in Ln.
          apply Nat.eqb_eq in E.
          assert (Vn : variable n = a).
          { symmetry. apply (inv_objects _ _ C); auto.
            apply (inv_node_atoms _ _ _ _ G), Hn. }
          assert (Only : forall k, In k (graph_nodes g) -> is_decision_node k = true ->
                                   variable k = a -> k = m).
          { intros k Hk Dk Vk.
            assert (In k (filter (fun n => is_decision_node n && atom_eqb (variable n) a)
                                 (graph_nodes g))).
            { apply filter_In. split; [assumption|].
              rewrite Dk, Vk, atom_eqb_refl. reflexivity. }
            rewrite F in H. destruct H as [<-|[]]. reflexivity. }
          destruct (is_decision_node n) eqn:Dn.
          - pose proof (Only n Hn Dn Vn) as ->. lia.
          - destruct (inv_conflict_nodes _ _ _ _ G n Hn Dn)
              as (_ & _ & k & Hk & Dk & Vk & Lk).
            rewrite Vn in Vk. pose proof (Only k Hk Dk Vk) as ->. lia. }
        rewrite X. unfold atom_has_value in Ha. rewrite Ha. reflexivity.
      * (* the node goes, and resets the variable *)
        assert (X : existsb (fun n => Nat.eqb (aid a) (aid (variable n)))
                      (filter (fun n => Nat.ltb keep (node_level n)) (graph_nodes g))
                    = true).
        { apply existsb_exists. exists m. split.
          - apply filter_In. split; [assumption|]. apply Nat.ltb_lt, Gt.
          - rewrite Vm. apply Nat.eqb_refl. }
        rewrite X. reflexivity.
    + (* unassigned: no decision node before, none after *)
      destruct (filter (fun n => is_decision_node n && atom_eqb (variable n) a)
                       (graph_nodes g)); [|discriminate].
      simpl. destruct (existsb _ _); [reflexivity|].
      unfold atom_has_value in Ha. rewrite Ha. reflexivity.
  - intros n Hn Dn. rewrite (NC n Hn) in Dn. discriminate.
Qed.

(** [resolve_conflict] keeps the invariant; when it reports success no
    conflict node is left in the graph. *)
Lemma resolve_conflict_invariant s :
  solver_invariant s ->
  match resolve_conflict set_order s with
  | Ok (true, s') => solver_invariant s' /\ no_conflict_node (implication_graph s')
  | Ok (false, s') => solver_invariant s'
  | Raise e => is_lookup_error e = false
  end.
Proof.
  intros [C G]. unfold resolve_conflict.
  destruct (conflict_node (implication_graph s)) as [cn|] eqn:CN.
  2:{ split; [split; assumption|].
      intros n Hn. destruct (is_decision_node n) eqn:Dn; [reflexivity|].
      destruct (inv_conflict_nodes _ _ _ _ G n Hn Dn) as (_ & Q & _).
      contradiction. }
  destruct (Nat.leb (decision_level s) 0); [split; assumption|].
  destruct (find_first_uip (implication_graph s)) as [u|e] eqn:FU; cbn [bind].
  2:{ apply (find_first_uip_error _ _ FU). }
  destruct (get_conflict_information set_order (implication_graph s) u)
    as [[antecedents levels]|e] eqn:GI; cbn [bind].
  2:{ apply (get_conflict_information_error _ _ _ GI). }
  destruct levels as [|x [|y rest]]; try (split; assumption).
  pose proof (get_conflict_information_levels _ _ _ _ _ _ _ _ _ G GI) as Lt.
  destruct (clear_decisions_invariant _ _ _ _ (values s) y C G Lt) as [G' NC'].
  remember (clear_decisions set_order (implication_graph s) (values s) y)
    as r eqn:Er.
  destruct r as [g' st'].
  simpl in *. split; [split|]; [|exact G'|exact NC'].
  destruct C as [C1 C2 C3]. constructor; auto.
  intros l Hl. apply in_flat_map in Hl as [c [Hc Hl]].
  apply in_app_or in Hc as [Hc|[<-|[]]].
  - apply C3, (in_all_literals _ _ _ Hc Hl).
  - apply C3, (learn_literals _ _ _ Hl).
Qed.

End ConflictResolution.

(* ------------------------------------------------------------------ *)
(** ** The initial state and the loops                                 *)
(* ------------------------------------------------------------------ *)

(** The atoms of the dictionary come from the input. *)
Lemma canonize_literals_atoms ls :
  forall vs vs' out,
    canonize_literals vs ls = (vs', out) ->
    forall k a, dict_get k vs' = Some a ->
      dict_get k vs = Some a \/ exists l, In l ls /\ atom l = a.
Proof.
  induction ls as [|l rest IH]; intros vs vs' out H k a G; simpl in H.
  - injection H as <- <-. auto.
  - destruct (dict_get (name (atom l)) vs) as [canon|] eqn:E.
    + destruct (canonize_literals vs rest) as [vs2 cl] eqn:R.
      injection H as <- <-.
      destruct (IH _ _ _ R k a G) as [Q|[l' [Hl' Q]]]; [auto|].
      right. exists l'. split; [right|]; assumption.
    + destruct (canonize_literals (vs ++ [(name (atom l), atom l)]) rest)
        as [vs2 cl] eqn:R.
      injection H as <- <-.
      destruct (IH _ _ _ R k a G) as [Q|[l' [Hl' Q]]].
      * rewrite dict_get_app in Q. destruct (dict_get k vs); [auto|].
        destruct (String.eqb k (name (atom l))); [|discriminate].
        injection Q as <-. right. exists l. split; [left|]; reflexivity.
      * right. exists l'. split; [right|]; assumption.
Qed.

Lemma canonize_loop_atoms cs :
  forall vs vs' out,
    canonize_loop vs cs = (vs', out) ->
    forall k a, dict_get k vs' = Some a ->
      dict_get k vs = Some a \/ exists l, In l (all_literals cs) /\ atom l = a.
Proof.
  induction cs as [|c rest IH]; intros vs vs' out H k a G; simpl in H.
  - injection H as <- <-. auto.
  - destruct (canonize_literals vs (literals c)) as [vs1 cl] eqn:L.
    destruct (canonize_loop vs1 rest) as [vs2 ncs] eqn:R.
    injection H as <- <-.
    destruct (IH _ _ _ R k a G) as [Q|[l [Hl Q]]].
    + destruct (canonize_literals_atoms _ _ _ _ L k a Q) as [Q'|[l [Hl Q']]]; [auto|].
      right. exists l. split; [|assumption].
      unfold all_literals. simpl. apply in_or_app. auto.
    + right. exists l. split; [|assumption].
      unfold all_literals. simpl. apply in_or_app. auto.
Qed.

Lemma reset_atoms_get vals st i :
  fold_left (fun st var => set_value st var None) vals st i =
  if existsb (fun v => Nat.eqb i (aid v)) vals then None else st i.
Proof.
  revert st. induction vals as [|v vals IH]; intros st; simpl; [reflexivity|].
  rewrite IH. unfold set_value.
  destruct (Nat.eqb i (aid v)); simpl; [|reflexivity].
  destruct (existsb _ vals); reflexivity.
Qed.

Lemma dict_get_in_values k a d : dict_get k d = Some a -> In a (dict_values d).
Proof.
  unfold dict_values. induction d as [|[k0 a0] d IH]; simpl; [discriminate|].
  destruct (String.eqb k k0).
  - intros H. injection H as <-. auto.
  - auto.
Qed.

(** [solve] enters [solve_internal] in a state that satisfies the
    invariant. *)
Lemma initial_state_invariant cs st :
  atoms_are_objects cs ->
  solver_invariant (initial_state cs st) /\
  no_conflict_node (implication_graph (initial_state cs st)).
Proof.
  intros O. unfold initial_state, canonize_clauses.
  destruct (canonize_loop [] cs) as [V out] eqn:E. simpl.
  destruct (canonize_loop_facts _ _ _ _ dict_wf_nil E) as (_ & _ & M & _).
  destruct (canonize_loop_keys _ _ _ _ dict_entries_ok_nil E) as (W & _ & _).
  pose proof (canonize_loop_atoms _ _ _ _ E) as A.
  split; [split|].
  - constructor; simpl.
    + exact W.
    + intros a b Ha Hb Q. unfold canonical in Ha, Hb.
      destruct (A _ _ Ha) as [X|[la [Hla <-]]]; [discriminate|].
      destruct (A _ _ Hb) as [X|[lb [Hlb <-]]]; [discriminate|].
      apply O; assumption.
    + exact M.
  - constructor; simpl.
    + intros n [].
    + intros n [].
    + intros n [].
    + constructor.
    + intros e [].
    + intros a Ca. unfold decision_nodes_of. simpl.
      unfold atom_has_value, value. rewrite reset_atoms_get.
      replace (existsb _ _) with true; [reflexivity|].
      symmetry. apply existsb_exists. exists a. split.
      * apply (dict_get_in_values _ _ _ Ca).
      * apply Nat.eqb_refl.
    + intros n [].
  - intros n [].
Qed.

(** Between two conflicts the decision level may go up. *)
Lemma graph_invariant_next_level V g dl st :
  graph_invariant V g dl st -> no_conflict_node g ->
  graph_invariant V g (dl + 1) st.
Proof.
  intros [G1 G2 G3 G4 G5 G6 G7] NC. constructor; auto.
  - intros n Hn. specialize (G2 n Hn). lia.
  - intros n Hn Dn. rewrite (NC n Hn) in Dn. discriminate.
Qed.

Lemma find_app_first {A} (f : A -> bool) l1 l2 x :
  find f l1 = Some x -> find f (l1 ++ l2) = Some x.
Proof.
  induction l1 as [|y l1 IH]; simpl; [discriminate|].
  destruct (f y); auto.
Qed.

(** The lookup returns the decision node of an assigned variable, also
    when nodes were added after the nodes of the graph, as [add_conflict]
    does with its conflict node. *)
Lemma previous_decision_found_before V g dl st a g' extra :
  graph_invariant V g dl st -> no_conflict_node g ->
  canonical V a -> atom_has_value st a = true ->
  graph_nodes g' = graph_nodes g ++ extra ->
  forall s, exists n,
    previous_decision s g' a = Ok n /\ In n (graph_nodes g) /\
    is_decision_node n = true /\ variable n = a.
Proof.
  intros G NC Ca Ha E s.
  destruct (previous_decision_found V g dl st a G NC Ca Ha s) as (n & R & Hn & Dn & Vn).
  exists n. repeat split; auto.
  unfold previous_decision in *. rewrite E.
  destruct (find (fun n0 => atom_eqb (variable n0) a) (graph_nodes g)) as [m|] eqn:F;
    [|discriminate].
  rewrite (find_app_first _ _ _ _ F). exact R.
Qed.

Section SolveRun.

Variable set_order : forall A : Type, list A -> list A.
Hypothesis set_order_perm : forall A (l : list A), Permutation (set_order A l) l.

Lemma bcp_until_success_invariant inner fuel :
  forall s,
    solver_invariant s -> no_conflict_node (implication_graph s) ->
    match bcp_until_success set_order inner fuel s with
    | Ok (inl s') => solver_invariant s' /\ no_conflict_node (implication_graph s')
    | Ok (inr s') => solver_invariant s'
    | Raise e => is_lookup_error e = false
    end.
Proof.
  induction fuel as [|fuel IH]; intros s I NC; simpl; [reflexivity|].
  pose proof (bcp_invariant inner s I NC) as B.
  destruct (bcp inner s) as [[ok s1]|e]; cbn [bind]; [|exact B].
  destruct ok; [exact B|].
  pose proof (resolve_conflict_invariant set_order set_order_perm s1 B) as R.
  destruct (resolve_conflict set_order s1) as [[resolved s2]|e]; cbn [bind]; [|exact R].
  destruct resolved; [|exact R].
  destruct R as [I2 NC2]. apply IH; assumption.
Qed.

Lemma main_loop_invariant h inner fuel :
  forall s,
    solver_invariant s -> no_conflict_node (implication_graph s) ->
    match main_loop set_order h inner fuel s with
    | Ok (_, s') => solver_invariant s'
    | Raise e => is_lookup_error e = false
    end.
Proof.
  induction fuel as [|fuel IH]; intros s [C G] NC; simpl; [reflexivity|].
  set (s1 := mkSolver (variables s) (clauses s) (implication_graph s)
               (decision_level s + 1) (solver_conflict_node s) (values s)).
  assert (I1 : solver_invariant s1).
  { split; [exact C|]. simpl. apply graph_invariant_next_level; assumption. }
  pose proof (decide_invariant h s1 I1 NC) as D.
  destruct (decide h s1) as [[decided s2]|e]; cbn [bind]; [|exact D].
  destruct D as [I2 NC2].
  destruct decided; simpl; [|exact I2].
  pose proof (bcp_until_success_invariant inner inner s2 I2 NC2) as B.
  destruct (bcp_until_success set_order inner inner s2) as [[s3|s3]|e];
    cbn [bind]; [| exact B | exact B].
  destruct B as [I3 NC3]. apply IH; assumption.
Qed.

Lemma solve_invariant h fuel cs st :
  atoms_are_objects cs ->
  match solve set_order h fuel cs st with
  | Ok (_, s) => solver_invariant s
  | Raise e => is_lookup_error e = false
  end.
Proof.
  intros O. destruct (initial_state_invariant cs st O) as [I NC].
  unfold solve. unfold initial_state in I, NC.
  destruct (canonize_clauses cs) as [V out]. simpl in I, NC.
  unfold solve_internal. simpl.
  set (s0 := mkSolver V out new_graph 0 None _) in *.
  pose proof (bcp_invariant fuel s0 I NC) as B.
  destruct (bcp fuel s0) as [[ok s1]|e]; cbn [bind]; [|exact B].
  assert (I1 : solver_invariant s1) by (destruct ok; [apply B|exact B]).
  pose proof (resolve_conflict_invariant set_order set_order_perm s1 I1) as R.
  destruct (resolve_conflict set_order s1) as [[resolved s2]|e]; cbn [bind]; [|exact R].
  destruct resolved; simpl; [|exact R].
  destruct R as [I2 NC2]. apply main_loop_invariant; assumption.
Qed.

(** C10.  For clauses whose atoms are objects (equal identity, equal
    atom) and any iteration order of sets:
    - [solve] enters [solve_internal] in a state that satisfies
      [solver_invariant], and [bcp], [decide] and [resolve_conflict] lead
      from states that satisfy it to states that satisfy it, without the
      [StopIteration] of a predecessor lookup;
    - so a run of [solve] never ends in that exception, and the state it
      returns satisfies the invariant;
    - in a state that satisfies the invariant a variable of the clauses
      has one decision node when it is assigned and none when it is not;
    - and the lookup of [add_forced_decision] and [add_conflict] returns
      the decision node of an assigned variable, also after [add_conflict]
      has put its conflict node behind the nodes of the graph. *)
Theorem solve_run_decision_nodes (h : Heuristic) (fuel : nat) (cs : list Clause)
    (st : Store) :
  atoms_are_objects cs ->
  (solver_invariant (initial_state cs st) /\
   no_conflict_node (implication_graph (initial_state cs st))) /\
  (forall k s,
     solver_invariant s -> no_conflict_node (implication_graph s) ->
     match bcp k s with
     | Ok (true, s') => solver_invariant s' /\ no_conflict_node (implication_graph s')
     | Ok (false, s') => solver_invariant s'
     | Raise e => is_lookup_error e = false
     end) /\
  (forall s,
     solver_invariant s -> no_conflict_node (implication_graph s) ->
     match decide h s with
     | Ok (_, s') => solver_invariant s' /\ no_conflict_node (implication_graph s')
     | Raise e => is_lookup_error e = false
     end) /\
  (forall s,
     solver_invariant s ->
     match resolve_conflict set_order s with
     | Ok (true, s') => solver_invariant s' /\ no_conflict_node (implication_graph s')
     | Ok (false, s') => solver_invariant s'
     | Raise e => is_lookup_error e = false
     end) /\
  match solve set_order h fuel cs st with
  | Ok (_, s) => solver_invariant s
  | Raise e => is_lookup_error e = false
  end /\
  (forall s l,
     solver_invariant s -> In l (all_literals (clauses s)) ->
     length (decision_nodes_of (implication_graph s) (atom l)) =
       b2n (has_value (values s) l)) /\
  (forall s l g' extra site,
     solver_invariant s -> no_conflict_node (implication_graph s) ->
     In l (all_literals (clauses s)) -> has_value (values s) l = true ->
     graph_nodes g' = graph_nodes (implication_graph s) ++ extra ->
     exists n,
       previous_decision site g' (atom l) = Ok n /\
       In n (graph_nodes (implication_graph s)) /\
       is_decision_node n = true /\ variable n = atom l).
Proof.
  intros O.
  split; [apply initial_state_invariant, O|].
  split; [intros k s; apply bcp_invariant|].
  split; [intros s; apply decide_invariant|].
  split; [intros s; apply (resolve_conflict_invariant set_order set_order_perm)|].
  split; [apply solve_invariant, O|].
  split.
  - intros s l [C G] Hl.
    apply (inv_one_node _ _ _ _ G), (inv_literals _ _ C), Hl.
  - intros s l g' extra site [C G] NC Hl Vl E.
    apply (previous_decision_found_before (variables s) (implication_graph s)
             (decision_level s) (values s) (atom l) g' extra); auto.
    apply (inv_literals _ _ C), Hl.
Qed.

End SolveRun.

Lemma not1_implies_both_atoms : atoms_are_objects not1_implies_both.
Proof.
  intros l1 l2 H1 H2 E. simpl in H1, H2.
  repeat match goal with
         | H : _ \/ _ |- _ => destruct H as [H|H]
         | H : False |- _ => destruct H
         end; subst; simpl in E; try reflexivity; discriminate E.
Defined.

Lemma solve_run_decision_nodes_witness :
  atoms_are_objects not1_implies_both /\
  (solver_invariant (initial_state not1_implies_both no_values) /\
   no_conflict_node (implication_graph (initial_state not1_implies_both no_values))) /\
  match solve insertion_order simple 10 not1_implies_both no_values with
  | Ok (_, s) => solver_invariant s
  | Raise e => is_lookup_error e = false
  end.
Proof.
  split; [exact not1_implies_both_atoms|].
  destruct (solve_run_decision_nodes insertion_order insertion_order_perm
              simple 10 not1_implies_both no_values not1_implies_both_atoms)
    as (I & _ & _ & _ & S & _).
  split; [exact I|exact S].
Defined.

(* ================================================================== *)
(** * Further properties: resolution and clause status (base.py)       *)
(* ================================================================== *)

Lemma literal_eqb_refl l : literal_eqb l l = true.
Proof.
  unfold literal_eqb. rewrite atom_eqb_refl. destruct (positive l); reflexivity.
Qed.

Lemma literal_in_member l c : In l (literals c) -> literal_in l c = true.
Proof.
  intros H. apply existsb_exists. exists l. split; [exact H|apply literal_eqb_refl].
Qed.

Lemma literal_in_compat l l' c :
  literal_eqb l l' = true -> literal_in l c = literal_in l' c.
Proof.
  intros H. unfold literal_in. apply existsb_ext_in. intros x _.
  apply literal_eqb_compat, H.
Qed.

Lemma complement_compat l l' :
  literal_eqb l l' = true -> literal_eqb (complement l) (complement l') = true.
Proof.
  intros H. apply literal_eqb_true in H as [Ha Hp].
  rewrite complement_eqb. simpl. rewrite Ha, Hp.
  destruct (positive l'); reflexivity.
Qed.

Lemma literal_holds_compat sigma l l' :
  literal_eqb l l' = true -> literal_holds sigma l = literal_holds sigma l'.
Proof.
  intros H. apply literal_eqb_true in H as [Ha Hp]. apply atom_eqb_eq in Ha.
  unfold literal_holds. rewrite Ha, Hp. reflexivity.
Qed.

Lemma literal_in_union l c1 c2 :
  literal_in l (mkClause (literals c1 ++ literals c2)) =
  literal_in l c1 || literal_in l c2.
Proof. unfold literal_in. simpl. apply existsb_app. Qed.

Lemma set_add_count l x s :
  length (filter (literal_eqb l) s) <= 1 ->
  length (filter (literal_eqb l) (literal_set_add x s)) <= 1.
Proof.
  intros H. unfold literal_set_add.
  destruct (existsb (literal_eqb x) s) eqn:E; [exact H|].
  rewrite filter_app, length_app. simpl.
  destruct (literal_eqb l x) eqn:Q; simpl; [|lia].
  destruct (filter (literal_eqb l) s) as [|y r] eqn:F; [simpl; lia|].
  exfalso.
  assert (Hy : In y (filter (literal_eqb l) s)) by (rewrite F; left; reflexivity).
  apply filter_In in Hy as [Hy Qy].
  assert (existsb (literal_eqb x) s = true); [|congruence].
  apply existsb_exists. exists y. split; [exact Hy|].
  rewrite <- (literal_eqb_compat l x y Q). exact Qy.
Qed.

Lemma partition_literals_count l ls :
  forall pos neg,
    length (filter (literal_eqb l) pos) <= 1 ->
    length (filter (literal_eqb l) neg) <= 1 ->
    length (filter (literal_eqb l) (fst (partition_literals ls pos neg))) <= 1 /\
    length (filter (literal_eqb l) (snd (partition_literals ls pos neg))) <= 1.
Proof.
  induction ls as [|x ls IH]; intros pos neg Hp Hn; simpl; [auto|].
  destruct (positive x); apply IH; auto using set_add_count.
Qed.

Lemma filter_length_perm {A} (f : A -> bool) l l' :
  Permutation l l' -> length (filter f l) = length (filter f l').
Proof.
  induction 1; simpl.
  - reflexivity.
  - destruct (f x); simpl; congruence.
  - destruct (f x), (f y); reflexivity.
  - congruence.
Qed.

Lemma filter_filter_length {A} (f g : A -> bool) l :
  length (filter f (filter g l)) <= length (filter f l).
Proof.
  induction l as [|x l IH]; simpl; [lia|].
  destruct (g x); simpl; destruct (f x); simpl; lia.
Qed.

Lemma filter_none {A} (f : A -> bool) l :
  existsb f l = false -> filter f l = [].
Proof.
  induction l as [|x l IH]; simpl; [reflexivity|].
  destruct (f x); simpl; [discriminate|exact IH].
Qed.

Section ResolutionProperties.

Variable set_order : forall A : Type, list A -> list A.
Hypothesis set_order_perm : forall A (l : list A), Permutation (set_order A l) l.

(** X1.  A literal is in the resolvent of two clauses exactly when it is in
    one of them and the literal over the same atom with the other polarity is
    in neither; so the two orders of the operands give the same set of
    literals. *)
Theorem resolve_membership (c1 c2 : Clause) :
  (forall l,
     literal_in l (resolve set_order c1 c2) =
     (literal_in l c1 || literal_in l c2) &&
     negb (literal_in (complement l) c1 || literal_in (complement l) c2)) /\
  same_literals (resolve set_order c1 c2) (resolve set_order c2 c1).
Proof.
  assert (G : forall a b l,
     literal_in l (resolve set_order a b) =
     (literal_in l a || literal_in l b) &&
     negb (literal_in (complement l) a || literal_in (complement l) b)).
  { intros a b l.
    rewrite (resolve_literals set_order set_order_perm), !literal_in_union.
    reflexivity. }
  split; [apply G|].
  intros l. rewrite !G.
  rewrite (orb_comm (literal_in l c1)), (orb_comm (literal_in (complement l) c1)).
  reflexivity.
Qed.

Lemma resolvent_no_pair c1 c2 :
  has_complementary_pair (resolve set_order c1 c2) = false.
Proof.
  unfold has_complementary_pair.
  destruct (existsb _ _) eqn:E; [|reflexivity]. exfalso.
  apply existsb_exists in E as [x [Hx Hc]].
  pose proof (literal_in_member _ _ Hx) as Hm.
  rewrite (resolve_literals set_order set_order_perm) in Hm, Hc.
  apply andb_prop in Hm as [_ Hm]. apply andb_prop in Hc as [Hc _].
  rewrite Hc in Hm. discriminate.
Qed.

(** X2.  A resolvent never contains a variable with both polarities, and
    never contains a literal twice. *)
Theorem resolvent_is_reduced (c1 c2 : Clause) :
  has_complementary_pair (resolve set_order c1 c2) = false /\
  (forall l,
     length (filter (literal_eqb l) (literals (resolve set_order c1 c2))) <= 1).
Proof.
  split; [apply resolvent_no_pair|].
  intros l. unfold resolve.
  destruct (partition_literals (literals c1 ++ literals c2) [] []) as [pos neg] eqn:E.
  simpl.
  destruct (partition_literals_count l (literals c1 ++ literals c2) [] [])
    as [Cp Cn]; simpl; try lia.
  rewrite E in Cp, Cn. simpl in Cp, Cn.
  (* the elements of [pos] are positive, those of [neg] negative *)
  assert (Pp : existsb (fun x => negb (positive x)) pos = false).
  { pose proof (proj1 (partition_literals_mem (fun x => negb (positive x))
                         (literals c1 ++ literals c2)
                         (fun x y H => f_equal negb (eq_sym (proj2 (proj1 (literal_eqb_true x y) H))))
                         [] [])) as H.
    rewrite E in H. simpl in H. rewrite H.
    rewrite (existsb_ext_in _ (fun _ => false)); [apply existsb_const_false|].
    intros x _. destruct (positive x); reflexivity. }
  assert (Pn : existsb (fun x => positive x) neg = false).
  { pose proof (proj2 (partition_literals_mem (fun x => positive x)
                         (literals c1 ++ literals c2)
                         (fun x y H => eq_sym (proj2 (proj1 (literal_eqb_true x y) H)))
                         [] [])) as H.
    rewrite E in H. simpl in H. rewrite H.
    rewrite (existsb_ext_in _ (fun _ => false)); [apply existsb_const_false|].
    intros x _. destruct (positive x); reflexivity. }
  rewrite filter_app, length_app.
  pose proof (filter_filter_length (literal_eqb l)
                (fun p => negb (atom_in (atom p) neg)) (set_order _ pos)) as L1.
  pose proof (filter_filter_length (literal_eqb l)
                (fun n => negb (atom_in (atom n) pos)) (set_order _ neg)) as L2.
  rewrite (filter_length_perm _ _ _ (set_order_perm _ pos)) in L1.
  rewrite (filter_length_perm _ _ _ (set_order_perm _ neg)) in L2.
  destruct (positive l) eqn:P.
  - (* no element of [neg] equals a positive literal *)
    assert (Z : filter (literal_eqb l) neg = []).
    { apply filter_none. destruct (existsb (literal_eqb l) neg) eqn:X; [|reflexivity].
      exfalso. apply existsb_exists in X as [y [Hy Q]].
      apply literal_eqb_true in Q as [_ Q].
      assert (existsb (fun x => positive x) neg = true); [|congruence].
      apply existsb_exists. exists y. split; [exact Hy|]. congruence. }
    rewrite Z in L2. simpl in L2. lia.
  - assert (Z : filter (literal_eqb l) pos = []).
    { apply filter_none. destruct (existsb (literal_eqb l) pos) eqn:X; [|reflexivity].
      exfalso. apply existsb_exists in X as [y [Hy Q]].
      apply literal_eqb_true in Q as [_ Q].
      assert (existsb (fun x => negb (positive x)) pos = true); [|congruence].
      apply existsb_exists. exists y. split; [exact Hy|]. rewrite <- Q, P. reflexivity. }
    rewrite Z in L1. simpl in L1. lia.
Qed.

Lemma clause_holds_literal sigma c :
  clause_holds sigma c = true ->
  exists l, In l (literals c) /\ literal_holds sigma l = true.
Proof. unfold clause_holds. intros H. apply existsb_exists in H. exact H. Qed.

Lemma holds_in_resolvent sigma c1 c2 l :
  literal_in l (mkClause (literals c1 ++ literals c2)) = true ->
  literal_in (complement l) (mkClause (literals c1 ++ literals c2)) = false ->
  literal_holds sigma l = true ->
  clause_holds sigma (resolve set_order c1 c2) = true.
Proof.
  intros Hin Hc Hs.
  assert (M : literal_in l (resolve set_order c1 c2) = true).
  { rewrite (resolve_literals set_order set_order_perm), Hin, Hc. reflexivity. }
  unfold literal_in in M. apply existsb_exists in M as [x [Hx Q]].
  unfold clause_holds. apply existsb_exists. exists x. split; [exact Hx|].
  rewrite <- (literal_holds_compat sigma l x Q). exact Hs.
Qed.

Lemma single_pivot_names c1 c2 l l' :
  single_pivot c1 c2 = true ->
  In l (literals c1 ++ literals c2) -> In l' (literals c1 ++ literals c2) ->
  literal_in (complement l) (mkClause (literals c1 ++ literals c2)) = true ->
  literal_in (complement l') (mkClause (literals c1 ++ literals c2)) = true ->
  atom_eqb (atom l) (atom l') = true.
Proof.
  unfold single_pivot. simpl. intros S Hl Hl' C C'.
  rewrite forallb_forall in S. specialize (S l Hl).
  rewrite forallb_forall in S. specialize (S l' Hl').
  rewrite C, C' in S. exact S.
Qed.

(** X3.  Resolution is sound when the operands clash on one variable and
    neither contains a variable with both polarities: an assignment under
    which both operands hold makes the resolvent hold. *)
Theorem resolve_sound (sigma : string -> bool) (c1 c2 : Clause) :
  has_complementary_pair c1 = false ->
  has_complementary_pair c2 = false ->
  single_pivot c1 c2 = true ->
  clause_holds sigma c1 = true ->
  clause_holds sigma c2 = true ->
  clause_holds sigma (resolve set_order c1 c2) = true.
Proof.
  intros T1 T2 S H1 H2.
  apply clause_holds_literal in H1 as [l1 [I1 S1]].
  apply clause_holds_literal in H2 as [l2 [I2 S2]].
  set (u := mkClause (literals c1 ++ literals c2)).
  assert (U1 : In l1 (literals c1 ++ literals c2)) by (apply in_or_app; auto).
  assert (U2 : In l2 (literals c1 ++ literals c2)) by (apply in_or_app; auto).
  destruct (literal_in (complement l1) u) eqn:C1.
  2:{ apply (holds_in_resolvent sigma c1 c2 l1); auto.
      apply (literal_in_member l1 u). exact U1. }
  destruct (literal_in (complement l2) u) eqn:C2.
  2:{ apply (holds_in_resolvent sigma c1 c2 l2); auto.
      apply (literal_in_member l2 u). exact U2. }
  exfalso.
  pose proof (single_pivot_names c1 c2 l1 l2 S U1 U2 C1 C2) as N.
  (* both hold under sigma, so they are the same literal *)
  assert (Q : literal_eqb l1 l2 = true).
  { apply literal_eqb_true. split; [exact N|].
    apply atom_eqb_eq in N. unfold literal_holds in S1, S2.
    apply Bool.eqb_prop in S1, S2. congruence. }
  unfold u in C1. rewrite literal_in_union in C1.
  apply orb_prop in C1 as [C1|C1].
  - rewrite (no_complement_of_member c1 l1 T1 (literal_in_member _ _ I1)) in C1.
    discriminate.
  - rewrite (literal_in_compat _ _ c2 (complement_compat _ _ Q)) in C1.
    rewrite (no_complement_of_member c2 l2 T2 (literal_in_member _ _ I2)) in C1.
    discriminate.
Qed.

End ResolutionProperties.

Lemma resolve_membership_witness :
  (forall l,
     literal_in l (resolve insertion_order clause_1_2 clause_not1_3) =
     (literal_in l clause_1_2 || literal_in l clause_not1_3) &&
     negb (literal_in (complement l) clause_1_2 ||
           literal_in (complement l) clause_not1_3)) /\
  same_literals (resolve insertion_order clause_1_2 clause_not1_3)
                (resolve insertion_order clause_not1_3 clause_1_2).
Proof.
  exact (resolve_membership insertion_order insertion_order_perm
           clause_1_2 clause_not1_3).
Defined.

Lemma resolvent_is_reduced_witness :
  has_complementary_pair (resolve insertion_order sample_clause_4 clause_1_2) = false /\
  (forall l,
     length (filter (literal_eqb l)
               (literals (resolve insertion_order sample_clause_4 clause_1_2))) <= 1).
Proof.
  exact (resolvent_is_reduced insertion_order insertion_order_perm
           sample_clause_4 clause_1_2).
Defined.

Lemma resolve_sound_witness :
  has_complementary_pair clause_1_2 = false /\
  has_complementary_pair clause_not1_3 = false /\
  single_pivot clause_1_2 clause_not1_3 = true /\
  clause_holds (fun _ => true) clause_1_2 = true /\
  clause_holds (fun _ => true) clause_not1_3 = true /\
  clause_holds (fun _ => true)
    (resolve insertion_order clause_1_2 clause_not1_3) = true.
Proof.
  repeat (split; [reflexivity|]).
  apply (resolve_sound insertion_order insertion_order_perm (fun _ => true)
           clause_1_2 clause_not1_3); reflexivity.
Defined.

Lemma store_extends_has_value st st' l :
  store_extends st st' -> has_value st l = true ->
  has_value st' l = true /\ literal_bool st' l = literal_bool st l.
Proof.
  unfold has_value, literal_bool, atom_has_value, atom_bool, value.
  intros E H. destruct (st (aid (atom l))) as [b|] eqn:V; [|discriminate].
  rewrite (E _ _ V). split; reflexivity.
Qed.

(** X4.  Assigning further atoms changes neither a satisfied nor an
    unsatisfied clause: when every value of [st] is kept in [st'], a clause
    satisfied in [st] is satisfied in [st'] and a clause unsatisfied in [st]
    is unsatisfied in [st']. *)
Theorem status_stable (st st' : Store) (c : Clause) :
  store_extends st st' ->
  (is_satisfied st c = true -> is_satisfied st' c = true) /\
  (is_unsatisfied st c = true -> is_unsatisfied st' c = true).
Proof.
  intros E. split.
  - unfold is_satisfied. rewrite !existsb_filter, !existsb_exists.
    intros [l [Hin H]]. apply andb_prop in H as [Hv Hb].
    destruct (store_extends_has_value st st' l E Hv) as [Hv' Hb'].
    exists l. split; [exact Hin|]. rewrite Hv', Hb'. exact Hb.
  - unfold is_unsatisfied.
    destruct (forallb (has_value st) (literals c)) eqn:A; simpl; [|discriminate].
    intros N. rewrite forallb_forall in A.
    assert (A' : forallb (has_value st') (literals c) = true).
    { apply forallb_forall. intros l Hl.
      apply (store_extends_has_value st st' l E (A l Hl)). }
    rewrite A'. simpl.
    rewrite (existsb_ext_in (literal_bool st') (literal_bool st)); [exact N|].
    intros l Hl. apply (store_extends_has_value st st' l E (A l Hl)).
Qed.

Lemma store_extends_set st a v :
  value st a = None -> store_extends st (set_value st a (Some v)).
Proof.
  unfold value, set_value. intros H i b V.
  destruct (Nat.eqb_spec i (aid a)) as [->|_]; [congruence|exact V].
Qed.

Lemma status_stable_witness :
  store_extends values_1_true (set_value values_1_true x2 (Some false)) /\
  is_satisfied values_1_true clause_1_2 = true /\
  is_satisfied (set_value values_1_true x2 (Some false)) clause_1_2 = true.
Proof.
  assert (E : store_extends values_1_true (set_value values_1_true x2 (Some false))).
  { apply store_extends_set. reflexivity. }
  split; [exact E|]. split; [reflexivity|].
  apply (proj1 (status_stable values_1_true _ clause_1_2 E)). reflexivity.
Defined.

Lemma unit_has_unassigned st c :
  is_unit st c = true ->
  exists l, In l (literals c) /\ has_value st l = false.
Proof.
  unfold is_unit. intros H.
  destruct (Z.eqb_spec (Z.of_nat (length (filter (has_value st) (literals c))))
                       (Z.of_nat (length (literals c)) - 1)) as [E|]; [|discriminate].
  clear H.
  destruct (forallb (has_value st) (literals c)) eqn:A.
  - rewrite (forallb_filter_id _ _ A) in E. lia.
  - clear E. induction (literals c) as [|x l IH]; simpl in A; [discriminate|].
    destruct (has_value st x) eqn:V.
    + destruct (IH A) as [y [Hy Vy]]. exists y. split; [right; exact Hy|exact Vy].
    + exists x. split; [left; reflexivity|exact V].
Qed.

Lemma unit_assigned_false st c l :
  is_unit st c = true -> In l (literals c) -> has_value st l = true ->
  literal_bool st l = false.
Proof.
  unfold is_unit. intros H Hin Hv.
  destruct (Z.eqb _ _); [|discriminate].
  apply negb_true_iff in H.
  destruct (literal_bool st l) eqn:B; [|reflexivity].
  assert (existsb (literal_bool st) (filter (has_value st) (literals c)) = true);
    [|congruence].
  apply existsb_exists. exists l. split; [|exact B].
  apply filter_In. split; assumption.
Qed.

Lemma set_value_other_literal st a v x :
  aid (atom x) <> aid a ->
  has_value (set_value st a v) x = has_value st x /\
  literal_bool (set_value st a v) x = literal_bool st x.
Proof.
  intros N. unfold has_value, literal_bool, atom_has_value, atom_bool.
  rewrite (value_set_other st a v (atom x) N). split; reflexivity.
Qed.

Lemma set_value_this_literal st l v :
  has_value (set_value st (atom l) (Some v)) l = true /\
  literal_bool (set_value st (atom l) (Some v)) l = Bool.eqb v (positive l).
Proof.
  unfold has_value, literal_bool, atom_has_value, atom_bool.
  rewrite value_set_same. split; [reflexivity|].
  destruct v, (positive l); reflexivity.
Qed.

(** X5.  The unit rule.  In a unit clause exactly one literal is unassigned;
    giving its atom the literal's polarity, as [bcp] does, makes the clause
    satisfied, and giving it the other value makes the clause unsatisfied. *)
Theorem unit_rule (st : Store) (c : Clause) :
  is_unit st c = true ->
  exists l,
    In l (literals c) /\ has_value st l = false /\
    (forall l', In l' (literals c) -> has_value st l' = false -> l' = l) /\
    find (fun x => negb (has_value st x)) (literals c) = Some l /\
    is_satisfied (set_value st (atom l) (Some (positive l))) c = true /\
    is_unsatisfied (set_value st (atom l) (Some (negb (positive l)))) c = true.
Proof.
  intros U. destruct (unit_has_unassigned st c U) as [l [Hin Hv]].
  assert (Uq : forall l', In l' (literals c) -> has_value st l' = false -> l' = l).
  { intros l' H1 H2. apply (unit_unassigned_unique st c l l' U Hin Hv H1 H2). }
  exists l. split; [exact Hin|]. split; [exact Hv|]. split; [exact Uq|].
  (* a literal of the clause on the same atom object is the literal itself *)
  assert (Same : forall x, In x (literals c) -> aid (atom x) = aid (atom l) -> x = l).
  { intros x Hx E. apply Uq; [exact Hx|].
    unfold has_value, atom_has_value, value in *. rewrite E. exact Hv. }
  split; [|split].
  - destruct (find (fun x => negb (has_value st x)) (literals c)) as [y|] eqn:F.
    + apply find_some in F as [Hy Vy]. apply negb_true_iff in Vy.
      rewrite (Uq y Hy Vy). reflexivity.
    + exfalso. pose proof (find_none _ _ F l Hin) as N. simpl in N.
      rewrite Hv in N. discriminate.
  - unfold is_satisfied. rewrite existsb_filter. apply existsb_exists.
    exists l. split; [exact Hin|].
    destruct (set_value_this_literal st l (positive l)) as [-> ->].
    destruct (positive l); reflexivity.
  - unfold is_unsatisfied.
    assert (A : forallb (has_value (set_value st (atom l) (Some (negb (positive l)))))
                        (literals c) = true).
    { apply forallb_forall. intros x Hx.
      destruct (Nat.eq_dec (aid (atom x)) (aid (atom l))) as [E|N].
      - rewrite (Same x Hx E). apply set_value_this_literal.
      - rewrite (proj1 (set_value_other_literal st (atom l) _ x N)).
        destruct (has_value st x) eqn:V; [reflexivity|].
        exfalso. apply N. rewrite (Uq x Hx V). reflexivity. }
    rewrite A. simpl. apply negb_true_iff.
    destruct (existsb _ (literals c)) eqn:X; [|reflexivity]. exfalso.
    apply existsb_exists in X as [x [Hx B]].
    destruct (Nat.eq_dec (aid (atom x)) (aid (atom l))) as [E|N].
    + rewrite (Same x Hx E) in B.
      rewrite (proj2 (set_value_this_literal st l (negb (positive l)))) in B.
      destruct (positive l); discriminate.
    + rewrite (proj2 (set_value_other_literal st (atom l) _ x N)) in B.
      destruct (has_value st x) eqn:V.
      * rewrite (unit_assigned_false st c x U Hx V) in B. discriminate.
      * apply N. rewrite (Uq x Hx V). reflexivity.
Qed.

Lemma unit_rule_witness :
  is_unit values_1_true clause_not1_2 = true /\
  exists l,
    In l (literals clause_not1_2) /\ has_value values_1_true l = false /\
    (forall l', In l' (literals clause_not1_2) ->
                has_value values_1_true l' = false -> l' = l) /\
    find (fun x => negb (has_value values_1_true x)) (literals clause_not1_2) = Some l /\
    is_satisfied (set_value values_1_true (atom l) (Some (positive l)))
                 clause_not1_2 = true /\
    is_unsatisfied (set_value values_1_true (atom l) (Some (negb (positive l))))
                   clause_not1_2 = true.
Proof.
  split; [reflexivity|].
  apply (unit_rule values_1_true clause_not1_2). reflexivity.
Defined.

(* ================================================================== *)
(** * Further properties: the implication graph (graph.py)             *)
(* ================================================================== *)

Lemma node_eqb_refl n : node_eqb n n = true.
Proof. apply Nat.eqb_refl. Qed.

Lemma node_eqb_compat n m k : node_eqb n m = true -> node_eqb n k = node_eqb m k.
Proof. unfold node_eqb. intros H. apply Nat.eqb_eq in H. rewrite H. reflexivity. Qed.

Lemma node_in_compat n m l : node_eqb n m = true -> node_in n l = node_in m l.
Proof.
  intros H. unfold node_in. apply existsb_ext_in. intros k _.
  apply node_eqb_compat, H.
Qed.

Lemma node_in_filter n (p : Node -> bool) l :
  node_in n (filter p l) = true ->
  exists m, In m l /\ node_eqb n m = true /\ p m = true.
Proof.
  unfold node_in. intros H. apply existsb_exists in H as [m [Hm E]].
  apply filter_In in Hm as [Hm P]. exists m. auto.
Qed.

(** Every simple path found from [visited] on goes through the nodes of
    [visited]. *)
Lemma simple_paths_visited fuel g tgt :
  forall visited current p,
    In p (simple_paths fuel g tgt visited current) ->
    forall n, In n visited -> In n p.
Proof.
  induction fuel as [|fuel IH]; intros visited current p H n Hn; simpl in H;
    [destruct H|].
  apply in_flat_map in H as [child [_ H]].
  destruct (node_in child visited); [destruct H|].
  destruct (node_eqb child tgt).
  - destruct H as [<-|[]]. apply in_or_app. left. apply in_rev in Hn. exact Hn.
  - apply (IH _ _ _ H). right. exact Hn.
Qed.

Lemma common_nodes_in (others : list (list Node)) :
  forall init n,
    In n (fold_left (fun common_nodes path =>
                       filter (fun n => node_in n common_nodes) path)
                    others init) ->
    node_in n init = true /\ forall p, In p others -> node_in n p = true.
Proof.
  induction others as [|q others IH]; intros init n H; simpl in H.
  - split; [apply node_in_In, H|intros p []].
  - destruct (IH _ _ H) as [H1 H2].
    apply node_in_filter in H1 as [m [Hm [E I]]].
    split; [rewrite (node_in_compat n m _ E); exact I|].
    intros p [<-|Hp]; [|apply H2, Hp].
    rewrite (node_in_compat n m _ E). apply node_in_In, Hm.
Qed.

Lemma common_nodes_keep (others : list (list Node)) :
  forall init x,
    node_in x init = true ->
    (forall p, In p others -> In x p) ->
    node_in x (fold_left (fun common_nodes path =>
                            filter (fun n => node_in n common_nodes) path)
                         others init) = true.
Proof.
  induction others as [|q others IH]; intros init x H A; simpl; [exact H|].
  apply IH; [|intros p Hp; apply A; right; exact Hp].
  apply node_in_In. apply filter_In. split; [apply A; left; reflexivity|exact H].
Qed.

(** X6.  What [find_first_uip] returns.  A node it returns is not the
    conflict node and lies on every simple path from the last decision of
    the stack to the conflict node; it returns [None] only when the graph has
    no conflict node or the stack is empty; and the only exceptions are
    networkx's [NodeNotFound] and the [StopIteration] of [next(paths)] when
    there is no path. *)
Theorem find_first_uip_cases (g : ImplicationGraph) :
  match find_first_uip g with
  | Ok (Some u) =>
      exists cn ld earlier paths,
        conflict_node g = Some cn /\
        decisions g = earlier ++ [ld] /\
        all_simple_paths g ld cn = Ok paths /\
        paths <> [] /\
        node_eqb u cn = false /\
        forall p, In p paths -> node_in u p = true
  | Ok None => conflict_node g = None \/ decisions g = []
  | Raise e =>
      exists cn ld earlier,
        conflict_node g = Some cn /\ decisions g = earlier ++ [ld] /\
        ((e = NodeNotFound /\
          (node_in ld (graph_nodes g) = false \/ node_in cn (graph_nodes g) = false)) \/
         (e = StopIteration in_find_uips /\ all_simple_paths g ld cn = Ok []))
  end.
Proof.
  unfold find_first_uip, find_uips.
  destruct (conflict_node g) as [cn|] eqn:C; [|left; reflexivity].
  destruct (rev (decisions g)) as [|ld rest] eqn:R.
  { right. apply (f_equal (@rev Node)) in R. rewrite rev_involutive in R. exact R. }
  assert (D : decisions g = rev rest ++ [ld]).
  { apply (f_equal (@rev Node)) in R. rewrite rev_involutive in R. exact R. }
  destruct (all_simple_paths g ld cn) as [paths|e] eqn:P; cbn [bind].
  2:{ exists cn, ld, (rev rest). split; [reflexivity|]. split; [exact D|].
      left. unfold all_simple_paths in P.
      destruct (node_in ld (graph_nodes g)) eqn:I1; simpl in P.
      - destruct (node_in cn (graph_nodes g)) eqn:I2; simpl in P.
        + destruct (node_eqb ld cn); discriminate.
        + injection P as <-. auto.
      - injection P as <-. auto. }
  destruct paths as [|first others].
  { exists cn, ld, (rev rest). split; [reflexivity|]. split; [exact D|].
    right. split; [reflexivity|exact P]. }
  cbn [bind].
  set (common := fold_left _ others _).
  (* the last decision is on every path, and is not the conflict node *)
  assert (S : node_eqb ld cn = false /\
              forall p, In p (first :: others) -> In ld p).
  { unfold all_simple_paths in P.
    destruct (negb (node_in ld (graph_nodes g)) || negb (node_in cn (graph_nodes g)));
      [discriminate|].
    destruct (node_eqb ld cn); [discriminate|]. split; [reflexivity|].
    injection P as P. intros p Hp. rewrite <- P in Hp.
    apply (simple_paths_visited _ _ _ _ _ _ Hp). left. reflexivity. }
  destruct S as [N S].
  assert (K : node_in ld common = true).
  { apply common_nodes_keep.
    - apply node_in_In, filter_In. split; [apply S; left; reflexivity|].
      rewrite N. reflexivity.
    - intros p Hp. apply S. right. exact Hp. }
  destruct (rev common) as [|u rest'] eqn:RC.
  { exfalso. apply (f_equal (@rev Node)) in RC. rewrite rev_involutive in RC.
    simpl in RC. rewrite RC in K. discriminate. }
  assert (U : In u common).
  { apply in_rev. rewrite RC. left. reflexivity. }
  destruct (common_nodes_in _ _ _ U) as [U1 U2].
  apply node_in_filter in U1 as [m [Hm [E Q]]].
  exists cn, ld, (rev rest), (first :: others).
  split; [reflexivity|]. split; [exact D|]. split; [exact P|].
  split; [discriminate|]. split.
  - rewrite (node_eqb_compat u m cn E). apply negb_true_iff, Q.
  - intros p [<-|Hp]; [|apply U2, Hp].
    rewrite (node_in_compat u m _ E). apply node_in_In, Hm.
Qed.

Lemma nat_set_add_iff n s x : In x (nat_set_add n s) <-> x = n \/ In x s.
Proof.
  split; [apply nat_set_add_in|].
  unfold nat_set_add. destruct (existsb (Nat.eqb n) s) eqn:E.
  - intros [->|H]; [|exact H].
    apply existsb_exists in E as [y [Hy Q]]. apply Nat.eqb_eq in Q. subst y. exact Hy.
  - intros [->|H]; apply in_or_app; [right; left; reflexivity|left; exact H].
Qed.

Lemma conflict_information_of_edges_spec es :
  forall ants dls,
    let r := conflict_information_of_edges es (ants, dls) in
    (forall x, In x (fst r) <->
               In x ants \/ exists e, In e es /\ x = antecedent e) /\
    (forall x, In x (snd r) <->
               In x dls \/ exists e, In e es /\ x = node_level (source e)) /\
    (NoDup ants -> NoDup (fst r)) /\ (NoDup dls -> NoDup (snd r)).
Proof.
  induction es as [|e es IH]; intros ants dls; cbv zeta.
  - unfold conflict_information_of_edges. simpl.
    repeat split; auto; try (intros [H|[e [[] _]]]; exact H).
  - unfold conflict_information_of_edges. simpl fold_left.
    fold (conflict_information_of_edges es
            (nat_set_add (antecedent e) ants,
             nat_set_add (node_level (source e)) dls)).
    destruct (IH (nat_set_add (antecedent e) ants)
                 (nat_set_add (node_level (source e)) dls)) as (A & B & C & D).
    split; [|split; [|split]].
    + intros x. rewrite A, nat_set_add_iff. split.
      * intros [[->|H]|[e' [He' ->]]].
        -- right. exists e. split; [left; reflexivity|reflexivity].
        -- left. exact H.
        -- right. exists e'. split; [right; exact He'|reflexivity].
      * intros [H|[e' [[<-|He'] ->]]].
        -- left. right. exact H.
        -- left. left. reflexivity.
        -- right. exists e'. split; [exact He'|reflexivity].
    + intros x. rewrite B, nat_set_add_iff. split.
      * intros [[->|H]|[e' [He' ->]]].
        -- right. exists e. split; [left; reflexivity|reflexivity].
        -- left. exact H.
        -- right. exists e'. split; [right; exact He'|reflexivity].
      * intros [H|[e' [[<-|He'] ->]]].
        -- left. right. exact H.
        -- left. left. reflexivity.
        -- right. exists e'. split; [exact He'|reflexivity].
    + intros N. apply C, nat_set_add_nodup, N.
    + intros N. apply D, nat_set_add_nodup, N.
Qed.

Lemma conflict_information_fold_spec g succs :
  forall ants dls,
    let r := fold_left
               (fun '(antecedents, decision_levels) successor =>
                  conflict_information_of_edges (nx_in_edges g successor)
                    (antecedents,
                     nat_set_add (node_level successor) decision_levels))
               succs (ants, dls) in
    (forall x, In x (fst r) <->
               In x ants \/
               exists s e, In s succs /\ In e (nx_in_edges g s) /\ x = antecedent e) /\
    (forall x, In x (snd r) <->
               In x dls \/
               exists s, In s succs /\
                 (x = node_level s \/
                  exists e, In e (nx_in_edges g s) /\ x = node_level (source e))) /\
    (NoDup ants -> NoDup (fst r)) /\ (NoDup dls -> NoDup (snd r)).
Proof.
  induction succs as [|s succs IH]; intros ants dls; cbv zeta.
  - simpl. repeat split; auto.
    + intros [H|[s [e [[] _]]]]; exact H.
    + intros [H|[s [[] _]]]; exact H.
  - simpl fold_left.
    destruct (conflict_information_of_edges_spec (nx_in_edges g s) ants
                (nat_set_add (node_level s) dls)) as (A & B & C & D).
    cbv zeta in A, B, C, D.
    destruct (conflict_information_of_edges (nx_in_edges g s)
                (ants, nat_set_add (node_level s) dls)) as [ants1 dls1].
    simpl in A, B, C, D.
    destruct (IH ants1 dls1) as (A' & B' & C' & D').
    split; [|split; [|split]].
    + intros x. rewrite A', A. split.
      * intros [[H|[e [He ->]]]|[s' [e [Hs [He ->]]]]].
        -- left. exact H.
        -- right. exists s, e. split; [left; reflexivity|auto].
        -- right. exists s', e. split; [right; exact Hs|auto].
      * intros [H|[s' [e [[<-|Hs] [He ->]]]]].
        -- left. left. exact H.
        -- left. right. exists e. auto.
        -- right. exists s', e. auto.
    + intros x. rewrite B', B, nat_set_add_iff. split.
      * intros [[[->|H]|[e [He ->]]]|[s' [Hs H]]].
        -- right. exists s. split; [left; reflexivity|left; reflexivity].
        -- left. exact H.
        -- right. exists s. split; [left; reflexivity|right; exists e; auto].
        -- right. exists s'. split; [right; exact Hs|exact H].
      * intros [H|[s' [[<-|Hs] [->|[e [He ->]]]]]].
        -- left. left. right. exact H.
        -- left. left. left. reflexivity.
        -- left. right. exists e. auto.
        -- right. exists s'. split; [exact Hs|left; reflexivity].
        -- right. exists s'. split; [exact Hs|right; exists e; auto].
    + intros N. apply C', C, N.
    + intros N. apply D', D, nat_set_add_nodup, N.
Qed.

Lemma descending_strict l : descending l -> NoDup l -> strictly_descending l.
Proof.
  induction l as [|x l IH]; intros D N; [exact I|].
  destruct D as [B D]. inversion N as [|? ? Nx Nl]; subst.
  simpl. destruct l as [|y l]; [exact I|].
  split; [|apply IH; assumption].
  assert (y <= x) by (apply B; left; reflexivity).
  assert (y <> x) by (intros ->; apply Nx; left; reflexivity).
  lia.
Qed.

Section ConflictInformation.

Variable set_order : forall A : Type, list A -> list A.
Hypothesis set_order_perm : forall A (l : list A), Permutation (set_order A l) l.

(** X7.  What [get_conflict_information] returns for a node [u] of the
    graph: the antecedents are the labels of the edges into the successors of
    [u], each once; the decision levels are those of the successors of [u]
    and of the sources of the edges into them, each once, from the highest
    down.  The call fails, with networkx's error, exactly when it is given
    [None] or a node that is not in the graph. *)
Theorem get_conflict_information_result (g : ImplicationGraph)
    (first_uip : option Node) :
  match get_conflict_information set_order g first_uip with
  | Ok (antecedents, levels) =>
      exists u,
        first_uip = Some u /\ node_in u (graph_nodes g) = true /\
        NoDup antecedents /\
        (forall a, In a antecedents <->
           exists s e, In s (nx_successors g u) /\ In e (nx_in_edges g s) /\
                       a = antecedent e) /\
        strictly_descending levels /\
        (forall x, In x levels <->
           exists s, In s (nx_successors g u) /\
             (x = node_level s \/
              exists e, In e (nx_in_edges g s) /\ x = node_level (source e)))
  | Raise e =>
      e = NetworkXError /\
      (first_uip = None \/
       exists u, first_uip = Some u /\ node_in u (graph_nodes g) = false)
  end.
Proof.
  unfold get_conflict_information.
  destruct first_uip as [u|]; [|split; [reflexivity|left; reflexivity]].
  destruct (node_in u (graph_nodes g)) eqn:I; simpl negb; cbv iota.
  2:{ split; [reflexivity|right; exists u; auto]. }
  destruct (conflict_information_fold_spec g (nx_successors g u) [] [])
    as (A & B & C & D).
  cbv zeta in A, B, C, D.
  destruct (fold_left _ (nx_successors g u) ([], [])) as [ants dls].
  simpl in A, B, C, D.
  exists u. split; [reflexivity|]. split; [exact I|].
  split; [apply C; constructor|]. split.
  { intros a. rewrite A. split; [intros [[]|H]; exact H|intros H; right; exact H]. }
  assert (P : Permutation (sorted_reverse (set_order nat dls)) dls).
  { eapply Permutation_trans; [apply sorted_reverse_perm|apply set_order_perm]. }
  split.
  - apply descending_strict; [apply sorted_reverse_descending|].
    apply (Permutation_NoDup (Permutation_sym P)), D. constructor.
  - intros x. split.
    + intros H. apply (Permutation_in _ P) in H. apply B in H as [[]|H]. exact H.
    + intros H. apply (Permutation_in _ (Permutation_sym P)). apply B. right. exact H.
Qed.

End ConflictInformation.

Lemma get_conflict_information_result_witness :
  match get_conflict_information insertion_order conflict_graph (Some node_1) with
  | Ok (antecedents, levels) =>
      exists u,
        Some node_1 = Some u /\ node_in u (graph_nodes conflict_graph) = true /\
        NoDup antecedents /\
        (forall a, In a antecedents <->
           exists s e, In s (nx_successors conflict_graph u) /\
                       In e (nx_in_edges conflict_graph s) /\
                       a = antecedent e) /\
        strictly_descending levels /\
        (forall x, In x levels <->
           exists s, In s (nx_successors conflict_graph u) /\
             (x = node_level s \/
              exists e, In e (nx_in_edges conflict_graph s) /\
                        x = node_level (source e)))
  | Raise e =>
      e = NetworkXError /\
      (Some node_1 = None \/
       exists u, Some node_1 = Some u /\
                 node_in u (graph_nodes conflict_graph) = false)
  end.
Proof.
  exact (get_conflict_information_result insertion_order insertion_order_perm
           conflict_graph (Some node_1)).
Defined.

Lemma filter_andb {A} (p q : A -> bool) l :
  filter p (filter q l) = filter (fun x => q x && p x) l.
Proof.
  induction l as [|x l IH]; simpl; [reflexivity|].
  destruct (q x); simpl; [|exact IH]. destruct (p x); rewrite IH; reflexivity.
Qed.

Lemma existsb_filter_split {A} (f p q r : A -> bool) l :
  (forall x, p x = q x || r x) ->
  existsb f (filter p l) = existsb f (filter q l) || existsb f (filter r l).
Proof.
  intros H. induction l as [|x l IH]; simpl; [reflexivity|].
  rewrite H. destruct (q x), (r x); simpl; rewrite IH;
    destruct (f x), (existsb f (filter q l)), (existsb f (filter r l)); reflexivity.
Qed.

Lemma level_split k1 k2 (n : Node) :
  Nat.ltb (Nat.min k1 k2) (node_level n) =
  Nat.ltb k1 (node_level n) ||
  Nat.leb (node_level n) k1 && Nat.ltb k2 (node_level n).
Proof.
  destruct (Nat.ltb_spec (Nat.min k1 k2) (node_level n)),
           (Nat.ltb_spec k1 (node_level n)),
           (Nat.leb_spec (node_level n) k1),
           (Nat.ltb_spec k2 (node_level n)); simpl; try reflexivity; lia.
Qed.

Section ClearDecisionsTwice.

Variable set_order : forall A : Type, list A -> list A.
Hypothesis set_order_perm : forall A (l : list A), Permutation (set_order A l) l.

Lemma clear_decisions_edges_eq g st keep :
  graph_edges (fst (clear_decisions set_order g st keep)) =
  filter (fun e =>
            negb (node_in (source e)
                    (filter (fun n => Nat.ltb keep (node_level n)) (graph_nodes g))) &&
            negb (node_in (target e)
                    (filter (fun n => Nat.ltb keep (node_level n)) (graph_nodes g))))
         (graph_edges g).
Proof.
  unfold clear_decisions. simpl. rewrite remove_nodes_edges. simpl.
  apply filter_ext_in'. intros e _. unfold node_in.
  rewrite !(existsb_perm _ _ _ (set_order_perm _ _)). reflexivity.
Qed.

Lemma clear_decisions_decisions g st keep :
  decisions (fst (clear_decisions set_order g st keep)) = firstn keep (decisions g).
Proof.
  unfold clear_decisions. simpl.
  destruct (remove_nodes_decisions
              (set_order _ (filter (fun n => Nat.ltb keep (node_level n)) (graph_nodes g)))
              (mkGraph (graph_nodes g) (graph_edges g)
                 (pop_decisions keep (decisions g)) (conflict_node g) (allocated g)))
    as (-> & _ & _).
  simpl. apply pop_decisions_firstn.
Qed.

(** X8.  Backtracking in two steps is backtracking once to the lower of the
    two levels: when the node objects of the graph are distinct,
    [clear_decisions(k1)] followed by [clear_decisions(k2)] leaves the same
    nodes, edges, decision stack and values as [clear_decisions(min(k1, k2))].
    In particular the method is idempotent. *)
Theorem clear_decisions_twice (g : ImplicationGraph) (st : Store) (k1 k2 : nat) :
  NoDup (map nid (graph_nodes g)) ->
  let r1 := clear_decisions set_order g st k1 in
  let r2 := clear_decisions set_order (fst r1) (snd r1) k2 in
  let r := clear_decisions set_order g st (Nat.min k1 k2) in
  graph_nodes (fst r2) = graph_nodes (fst r) /\
  graph_edges (fst r2) = graph_edges (fst r) /\
  decisions (fst r2) = decisions (fst r) /\
  conflict_node (fst r2) = conflict_node (fst r) /\
  allocated (fst r2) = allocated (fst r) /\
  (forall i, snd r2 i = snd r i).
Proof.
  intros ND. cbv zeta.
  pose proof (clear_decisions_nodes_kept set_order set_order_perm g st k1 ND) as N1.
  assert (ND1 : NoDup (map nid (graph_nodes (fst (clear_decisions set_order g st k1))))).
  { rewrite N1. apply NoDup_map_filter, ND. }
  (* the nodes removed by the second call *)
  assert (D2 : filter (fun n => Nat.ltb k2 (node_level n))
                 (graph_nodes (fst (clear_decisions set_order g st k1))) =
               filter (fun n => Nat.leb (node_level n) k1 && Nat.ltb k2 (node_level n))
                 (graph_nodes g)).
  { rewrite N1. apply filter_andb. }
  split; [|split; [|split; [|split; [|split]]]].
  - rewrite (clear_decisions_nodes_kept set_order set_order_perm _ _ k2 ND1), N1.
    rewrite (clear_decisions_nodes_kept set_order set_order_perm g st _ ND).
    rewrite filter_andb. apply filter_ext_in'. intros n _.
    destruct (Nat.leb_spec (node_level n) k1), (Nat.leb_spec (node_level n) k2),
             (Nat.leb_spec (node_level n) (Nat.min k1 k2)); simpl; try reflexivity; lia.
  - rewrite !clear_decisions_edges_eq, D2, filter_andb.
    apply filter_ext_in'. intros e _. unfold node_in.
    rewrite !(existsb_filter_split _ _ _ _ (graph_nodes g) (level_split k1 k2)).
    destruct (existsb (node_eqb (source e)) (filter _ (graph_nodes g))),
             (existsb (node_eqb (target e)) (filter _ (graph_nodes g)));
      simpl; try reflexivity;
      destruct (existsb (node_eqb (source e)) (filter _ (graph_nodes g)));
      simpl; reflexivity.
  - rewrite !clear_decisions_decisions, firstn_firstn.
    f_equal. apply Nat.min_comm.
  - rewrite !(clear_decisions_conflict_node set_order). reflexivity.
  - rewrite !(clear_decisions_allocated set_order). reflexivity.
  - intros i. rewrite !(clear_decisions_values set_order), D2.
    rewrite (existsb_filter_split _ _ _ _ (graph_nodes g) (level_split k1 k2)).
    destruct (existsb _ (filter (fun n => Nat.ltb k1 (node_level n)) (graph_nodes g)));
      simpl; [|reflexivity].
    destruct (existsb _ _); reflexivity.
Qed.

End ClearDecisionsTwice.

Lemma clear_decisions_twice_witness :
  NoDup (map nid (graph_nodes conflict_graph)) /\
  let r1 := clear_decisions insertion_order conflict_graph conflict_values 1 in
  let r2 := clear_decisions insertion_order (fst r1) (snd r1) 0 in
  let r := clear_decisions insertion_order conflict_graph conflict_values (Nat.min 1 0) in
  graph_nodes (fst r2) = graph_nodes (fst r) /\
  graph_edges (fst r2) = graph_edges (fst r) /\
  decisions (fst r2) = decisions (fst r) /\
  conflict_node (fst r2) = conflict_node (fst r) /\
  allocated (fst r2) = allocated (fst r) /\
  (forall i, snd r2 i = snd r i).
Proof.
  assert (ND : NoDup (map nid (graph_nodes conflict_graph))).
  { simpl. repeat constructor; simpl; intuition discriminate. }
  split; [exact ND|].
  exact (clear_decisions_twice insertion_order insertion_order_perm
           conflict_graph conflict_values 1 0 ND).
Defined.

(* ================================================================== *)
(** * Further properties: the solver's steps (solvers.py)              *)
(* ================================================================== *)

(** The outcomes of [decide]. *)
Lemma decide_facts (h : Heuristic) (s : Solver) :
  match decide h s with
  | Ok (false, s') =>
      s' = s /\ forall c, In c (clauses s) -> is_unresolved (values s) c = false
  | Ok (true, s') =>
      exists a v,
        dlis_candidate (values s) (clauses s) a /\
        s' = with_graph s
               (add_decision (implication_graph s) a v (decision_level s))
               (set_value (values s) a (Some v)) /\
        (h = simple -> v = true)
  | Raise e => False
  end.
Proof.
  destruct h; simpl.
  - unfold decide_simple.
    destruct (find (is_unresolved (values s)) (clauses s)) as [c|] eqn:FC.
    + apply find_some in FC as [Hc Uc].
      destruct (unresolved_has_unassigned _ _ Uc) as [l0 [Hl0 Vl0]].
      destruct (find (fun v => negb (has_value (values s) v)) (literals c))
        as [l|] eqn:FL.
      * apply find_some in FL as [Hl Vl]. apply negb_true_iff in Vl.
        exists (atom l), true. split; [|split; [reflexivity|reflexivity]].
        exists c, l. auto.
      * pose proof (find_none _ _ FL l0 Hl0) as N. simpl in N.
        rewrite Vl0 in N. discriminate.
    + split; [reflexivity|]. intros c Hc. apply (find_none _ _ FC c Hc).
  - destruct (filter (is_unresolved (values s)) (clauses s)) as [|c0 r] eqn:F.
    + rewrite (decide_dlis_nothing s F). split; [reflexivity|].
      intros c Hc. destruct (is_unresolved (values s) c) eqn:U; [|reflexivity].
      assert (In c (filter (is_unresolved (values s)) (clauses s)))
        by (apply filter_In; auto).
      rewrite F in H. destruct H.
    + assert (Hc0 : In c0 (filter (is_unresolved (values s)) (clauses s)))
        by (rewrite F; left; reflexivity).
      apply filter_In in Hc0.
      destruct (decide_dlis_decides s (ex_intro _ c0 Hc0))
        as (chosen & v & R & Cand & _).
      rewrite R. exists chosen, v. split; [exact Cand|].
      split; [reflexivity|discriminate].
Qed.

(** X9.  [decide] never raises.  It returns [False], leaving the state as
    it is, exactly when no clause is unresolved; otherwise it returns [True]
    after assigning one atom, the atom of an unassigned literal of an
    unresolved clause, and pushing a decision node for it at the current
    level.  The simple heuristic always assigns [True]. *)
Theorem decide_result (h : Heuristic) (s : Solver) :
  match decide h s with
  | Ok (false, s') =>
      s' = s /\ forall c, In c (clauses s) -> is_unresolved (values s) c = false
  | Ok (true, s') =>
      exists a v,
        dlis_candidate (values s) (clauses s) a /\
        s' = with_graph s
               (add_decision (implication_graph s) a v (decision_level s))
               (set_value (values s) a (Some v)) /\
        (h = simple -> v = true)
  | Raise e => False
  end.
Proof. apply decide_facts. Qed.

Lemma find_indexed_none {A} (p : A -> bool) l :
  forall i, find_indexed p i l = None -> forall x, In x l -> p x = false.
Proof.
  induction l as [|y l IH]; intros i H x Hx; [destruct Hx|].
  simpl in H. destruct (p y) eqn:P; [discriminate|].
  destruct Hx as [<-|Hx]; [exact P|apply (IH _ H x Hx)].
Qed.

Lemma nx_add_node_fields n g :
  graph_edges (nx_add_node n g) = graph_edges g /\
  decisions (nx_add_node n g) = decisions g /\
  conflict_node (nx_add_node n g) = conflict_node g /\
  allocated (nx_add_node n g) = allocated g.
Proof. unfold nx_add_node. destruct (node_in n (graph_nodes g)); simpl; auto. Qed.

Lemma nx_add_edge_fields u v c g :
  decisions (nx_add_edge u v c g) = decisions g /\
  conflict_node (nx_add_edge u v c g) = conflict_node g /\
  allocated (nx_add_edge u v c g) = allocated g.
Proof.
  unfold nx_add_edge. simpl.
  destruct (nx_add_node_fields v (nx_add_node u g)) as (_ & -> & -> & ->).
  destruct (nx_add_node_fields u g) as (_ & -> & -> & ->). auto.
Qed.

Lemma add_antecedent_edges_fields s ls new c :
  forall g g',
    add_antecedent_edges s ls new c g = Ok g' ->
    decisions g' = decisions g /\ conflict_node g' = conflict_node g /\
    allocated g' = allocated g.
Proof.
  induction ls as [|l ls IH]; intros g g' H; simpl in H.
  - injection H as <-. auto.
  - destruct (previous_decision s g (atom l)) as [p|e]; [|discriminate].
    cbn [bind] in H. destruct (IH _ _ H) as (-> & -> & ->).
    apply nx_add_edge_fields.
Qed.

Lemma add_antecedent_edges_raise s ls new c :
  forall g e, add_antecedent_edges s ls new c g = Raise e -> e = StopIteration s.
Proof.
  induction ls as [|l ls IH]; intros g e H; simpl in H; [discriminate|].
  unfold previous_decision in H.
  destruct (find _ (graph_nodes g)) as [p|]; cbn [bind] in H.
  - apply (IH _ _ H).
  - injection H as <-. reflexivity.
Qed.

Lemma add_forced_decision_fields g a v c cl dl g' :
  add_forced_decision g a v c cl dl = Ok g' ->
  decisions g' = decisions g /\ conflict_node g' = conflict_node g.
Proof.
  unfold add_forced_decision. intros H.
  apply add_antecedent_edges_fields in H as (-> & -> & _).
  destruct (nx_add_node_fields (DecisionNode (allocated g) a v dl)
              (mkGraph (graph_nodes g) (graph_edges g) (decisions g)
                 (conflict_node g) (S (allocated g)))) as (_ & -> & -> & _).
  auto.
Qed.

Lemma add_conflict_fields g a c cl dl g' :
  add_conflict g a c cl dl = Ok g' ->
  decisions g' = decisions g /\
  conflict_node g' = Some (ConflictNode (allocated g) a dl).
Proof.
  unfold add_conflict. intros H.
  apply add_antecedent_edges_fields in H as (-> & -> & _).
  destruct (nx_add_node_fields (ConflictNode (allocated g) a dl)
              (mkGraph (graph_nodes g) (graph_edges g) (decisions g)
                 (Some (ConflictNode (allocated g) a dl)) (S (allocated g))))
    as (_ & -> & -> & _).
  auto.
Qed.

Lemma store_extends_refl st : store_extends st st.
Proof. intros i b H. exact H. Qed.

Lemma store_extends_trans st1 st2 st3 :
  store_extends st1 st2 -> store_extends st2 st3 -> store_extends st1 st3.
Proof. intros H1 H2 i b H. apply H2, H1, H. Qed.

(** The outcomes of [bcp]. *)
Lemma bcp_facts (fuel : nat) (s : Solver) :
  match bcp fuel s with
  | Ok (b, s') =>
      variables s' = variables s /\ clauses s' = clauses s /\
      decision_level s' = decision_level s /\
      decisions (implication_graph s') = decisions (implication_graph s) /\
      store_extends (values s) (values s') /\
      (if b
       then (forall c, In c (clauses s') -> is_unit (values s') c = false) /\
            conflict_node (implication_graph s') = conflict_node (implication_graph s)
       else exists c a n,
              In c (clauses s') /\ is_unsatisfied (values s') c = true /\
              conflict_node (implication_graph s') =
                Some (ConflictNode n a (decision_level s)))
  | Raise e => e <> StopIteration in_bcp
  end.
Proof.
  revert s. induction fuel as [|fuel IH]; intros s; simpl; [discriminate|].
  destruct (find_indexed (is_unit (values s)) 0 (clauses s)) as [[i c]|] eqn:FU.
  2:{ repeat (split; [reflexivity|]). split; [apply store_extends_refl|].
      split; [|reflexivity]. apply (find_indexed_none _ _ _ FU). }
  apply find_indexed_some in FU as [Hc Uc].
  destruct (unit_has_unassigned _ _ Uc) as [l0 [Hl0 Vl0]].
  destruct (find (fun l => negb (has_value (values s) l)) (literals c)) as [l|] eqn:FL.
  2:{ exfalso. pose proof (find_none _ _ FL l0 Hl0) as N. simpl in N.
      rewrite Vl0 in N. discriminate. }
  apply find_some in FL as [Hl Vl]. apply negb_true_iff in Vl.
  assert (E : store_extends (values s)
                (set_value (values s) (atom l) (Some (positive l)))).
  { apply store_extends_set. unfold has_value, atom_has_value in Vl.
    destruct (value (values s) (atom l)); [discriminate|reflexivity]. }
  destruct (add_forced_decision (implication_graph s) (atom l) (positive l) i c
              (decision_level s)) as [g|e] eqn:R1; cbn [bind].
  2:{ apply add_antecedent_edges_raise in R1. rewrite R1. discriminate. }
  apply add_forced_decision_fields in R1 as [D1 C1].
  destruct (find_indexed (is_unsatisfied _) 0 (clauses s)) as [[j c']|] eqn:FC.
  - apply find_indexed_some in FC as [Hc' Uc'].
    destruct (add_conflict g (atom l) j c' (decision_level s)) as [g'|e] eqn:R2;
      cbn [bind].
    2:{ apply add_antecedent_edges_raise in R2. rewrite R2. discriminate. }
    apply add_conflict_fields in R2 as [D2 C2]. simpl.
    repeat (split; [reflexivity|]). split; [congruence|]. split; [exact E|].
    exists c', (atom l), (allocated g). auto.
  - specialize (IH (with_graph s g
                      (set_value (values s) (atom l) (Some (positive l))))).
    destruct (bcp fuel _) as [[b s']|e]; [|exact IH].
    simpl in IH. destruct IH as (V & Cs & L & D & X & B).
    split; [exact V|]. split; [exact Cs|]. split; [exact L|].
    split; [congruence|]. split; [apply (store_extends_trans _ _ _ E X)|].
    destruct b; [|exact B]. destruct B as [B1 B2]. split; [exact B1|congruence].
Qed.

(** X10.  What a call of [bcp] does.  It leaves the clause list, the
    dictionary, the decision level and the decision stack as they are (the
    forced decisions get nodes but are not pushed), and it only assigns atoms
    that had no value.  When it returns [True] no clause is unit any more and
    the graph's conflict node is what it was; when it returns [False] some
    clause is unsatisfied and the graph holds a new conflict node at the
    current level.  The [next] over the unassigned literals of a unit clause
    never raises. *)
Theorem bcp_result (fuel : nat) (s : Solver) :
  match bcp fuel s with
  | Ok (b, s') =>
      variables s' = variables s /\ clauses s' = clauses s /\
      decision_level s' = decision_level s /\
      decisions (implication_graph s') = decisions (implication_graph s) /\
      store_extends (values s) (values s') /\
      (if b
       then (forall c, In c (clauses s') -> is_unit (values s') c = false) /\
            conflict_node (implication_graph s') = conflict_node (implication_graph s)
       else exists c a n,
              In c (clauses s') /\ is_unsatisfied (values s') c = true /\
              conflict_node (implication_graph s') =
                Some (ConflictNode n a (decision_level s)))
  | Raise e => e <> StopIteration in_bcp
  end.
Proof. apply bcp_facts. Qed.

Lemma filter_length_lt {A} (p q : A -> bool) l x :
  (forall y, In y l -> q y = true -> p y = true) ->
  In x l -> p x = true -> q x = false ->
  length (filter q l) < length (filter p l).
Proof.
  induction l as [|y l IH]; intros W Hx Px Qx; [destruct Hx|].
  assert (Le : length (filter q l) <= length (filter p l)).
  { clear - W. induction l as [|z l IHl]; simpl; [lia|].
    assert (W' : forall y0, In y0 (y :: l) -> q y0 = true -> p y0 = true).
    { intros y0 [<-|H]; apply W; [left|right; right]; auto. }
    specialize (IHl W').
    destruct (q z) eqn:Qz.
    - rewrite (W z (or_intror (or_introl eq_refl)) Qz). simpl. lia.
    - destruct (p z); simpl; lia. }
  simpl. destruct Hx as [->|Hx].
  - rewrite Px, Qx. simpl. lia.
  - assert (Lt : length (filter q l) < length (filter p l)).
    { apply IH; auto. intros z Hz. apply W. right. exact Hz. }
    destruct (q y) eqn:Qy.
    + rewrite (W y (or_introl eq_refl) Qy). simpl. lia.
    + destruct (p y); simpl; lia.
Qed.

Lemma unassigned_occurrences_set st cs c l v :
  In c cs -> In l (literals c) -> has_value st l = false ->
  unassigned_occurrences (set_value st (atom l) (Some v)) cs <
  unassigned_occurrences st cs.
Proof.
  intros Hc Hl Vl. unfold unassigned_occurrences.
  apply (filter_length_lt _ _ _ l).
  - intros y _ Q. apply negb_true_iff in Q. apply negb_true_iff.
    destruct (has_value st y) eqn:V; [|reflexivity].
    rewrite (has_value_set_some st (atom l) v y V) in Q. discriminate.
  - apply (in_all_literals _ c); assumption.
  - rewrite Vl. reflexivity.
  - rewrite (proj1 (set_value_this_literal st l v)). reflexivity.
Qed.

(** With fuel above the number of unassigned literal occurrences, [bcp]
    can only fail in the predecessor lookups of the graph. *)
Lemma bcp_raise fuel :
  forall s e,
    unassigned_occurrences (values s) (clauses s) < fuel ->
    bcp fuel s = Raise e -> is_lookup_error e = true.
Proof.
  induction fuel as [|fuel IH]; intros s e M; [lia|]. simpl.
  destruct (find_indexed (is_unit (values s)) 0 (clauses s)) as [[i c]|] eqn:FU;
    [|discriminate].
  apply find_indexed_some in FU as [Hc Uc].
  destruct (unit_has_unassigned _ _ Uc) as [l0 [Hl0 Vl0]].
  destruct (find (fun l => negb (has_value (values s) l)) (literals c)) as [l|] eqn:FL.
  2:{ exfalso. pose proof (find_none _ _ FL l0 Hl0) as N. simpl in N.
      rewrite Vl0 in N. discriminate. }
  apply find_some in FL as [Hl Vl]. apply negb_true_iff in Vl.
  destruct (add_forced_decision (implication_graph s) (atom l) (positive l) i c
              (decision_level s)) as [g|e1] eqn:R1; cbn [bind].
  2:{ apply add_antecedent_edges_raise in R1. intros H. injection H as <-.
      rewrite R1. reflexivity. }
  destruct (find_indexed (is_unsatisfied _) 0 (clauses s)) as [[j c']|] eqn:FC.
  - destruct (add_conflict g (atom l) j c' (decision_level s)) as [g'|e2] eqn:R2;
      cbn [bind]; [discriminate|].
    apply add_antecedent_edges_raise in R2. intros H. injection H as <-.
    rewrite R2. reflexivity.
  - apply IH. simpl.
    pose proof (unassigned_occurrences_set (values s) (clauses s) c l (positive l)
                  Hc Hl Vl).
    lia.
Qed.

(** X11.  [bcp] terminates and returns.  In a state that satisfies the
    invariant of a solver run and has no conflict node, [bcp] needs at most
    one round per literal occurrence without a value, and it returns [True]
    or [False]: none of its lookups raises. *)
Theorem bcp_terminates (fuel : nat) (s : Solver) :
  solver_invariant s ->
  no_conflict_node (implication_graph s) ->
  unassigned_occurrences (values s) (clauses s) < fuel ->
  exists b s', bcp fuel s = Ok (b, s').
Proof.
  intros I N M.
  pose proof (bcp_invariant fuel s I N) as Inv.
  destruct (bcp fuel s) as [[b s']|e] eqn:R.
  - exists b, s'. reflexivity.
  - rewrite (bcp_raise fuel s e M R) in Inv. discriminate.
Qed.

Lemma unit_then_chain_atoms : atoms_are_objects unit_then_chain.
Proof.
  intros l1 l2 H1 H2 E. simpl in H1, H2.
  repeat match goal with
         | H : _ \/ _ |- _ => destruct H as [H|H]
         | H : False |- _ => destruct H
         end; subst; simpl in E; try reflexivity; discriminate E.
Qed.

Lemma bcp_terminates_witness :
  solver_invariant (initial_state unit_then_chain no_values) /\
  no_conflict_node (implication_graph (initial_state unit_then_chain no_values)) /\
  unassigned_occurrences (values (initial_state unit_then_chain no_values))
                         (clauses (initial_state unit_then_chain no_values)) < 4 /\
  exists b s', bcp 4 (initial_state unit_then_chain no_values) = Ok (b, s').
Proof.
  destruct (initial_state_invariant unit_then_chain no_values unit_then_chain_atoms)
    as [I N].
  assert (M : unassigned_occurrences (values (initial_state unit_then_chain no_values))
                (clauses (initial_state unit_then_chain no_values)) < 4).
  { vm_compute. lia. }
  split; [exact I|]. split; [exact N|]. split; [exact M|].
  exact (bcp_terminates 4 _ I N M).
Defined.

Lemma mkLiteral_eta l : mkLiteral (atom l) (positive l) = l.
Proof. destruct l. reflexivity. Qed.

Lemma canonize_literals_shape ls :
  forall vs vs' out,
    dict_wf vs ->
    canonize_literals vs ls = (vs', out) ->
    map literal_signature out = map literal_signature ls /\
    (forall k, dict_get k vs' =
               match dict_get k vs with
               | Some a => Some a
               | None => option_map atom
                           (find (fun l => String.eqb (name (atom l)) k) ls)
               end).
Proof.
  induction ls as [|l rest IH]; intros vs vs' out W H; simpl in H.
  - injection H as <- <-. split; [reflexivity|].
    intros k. destruct (dict_get k vs); reflexivity.
  - destruct (dict_get (name (atom l)) vs) as [canon|] eqn:G.
    + destruct (canonize_literals vs rest) as [vs2 cl] eqn:R.
      injection H as <- <-.
      destruct (IH _ _ _ W R) as [S D]. split.
      * simpl. rewrite S. unfold literal_signature at 1 3. simpl.
        rewrite (W _ _ G). reflexivity.
      * intros k. rewrite D. simpl.
        destruct (dict_get k vs) eqn:Gk; [reflexivity|].
        destruct (String.eqb_spec (name (atom l)) k) as [E|_]; [|reflexivity].
        rewrite E in G. congruence.
    + destruct (canonize_literals (vs ++ [(name (atom l), atom l)]) rest)
        as [vs2 cl] eqn:R.
      injection H as <- <-.
      destruct (IH _ _ _ (dict_wf_add _ _ W) R) as [S D]. split.
      * simpl. rewrite S. reflexivity.
      * intros k. rewrite D, dict_get_app. simpl.
        destruct (dict_get k vs) eqn:Gk; [reflexivity|].
        rewrite (String.eqb_sym k).
        destruct (String.eqb (name (atom l)) k); reflexivity.
Qed.

Lemma find_app {A} (f : A -> bool) l1 l2 :
  find f (l1 ++ l2) = match find f l1 with Some x => Some x | None => find f l2 end.
Proof.
  induction l1 as [|x l1 IH]; simpl; [reflexivity|].
  destruct (f x); [reflexivity|exact IH].
Qed.

Lemma canonize_loop_shape cs :
  forall vs vs' out,
    dict_wf vs ->
    canonize_loop vs cs = (vs', out) ->
    map (fun c => map literal_signature (literals c)) out =
    map (fun c => map literal_signature (literals c)) cs /\
    (forall k, dict_get k vs' =
               match dict_get k vs with
               | Some a => Some a
               | None => option_map atom
                           (find (fun l => String.eqb (name (atom l)) k)
                                 (all_literals cs))
               end).
Proof.
  induction cs as [|c rest IH]; intros vs vs' out W H; simpl in H.
  - injection H as <- <-. split; [reflexivity|].
    intros k. destruct (dict_get k vs); reflexivity.
  - destruct (canonize_literals vs (literals c)) as [vs1 cl] eqn:L.
    destruct (canonize_loop vs1 rest) as [vs2 ncs] eqn:R.
    injection H as <- <-.
    destruct (canonize_literals_facts _ _ _ _ W L) as (W1 & _).
    destruct (canonize_literals_shape _ _ _ _ W L) as [S1 D1].
    destruct (IH _ _ _ W1 R) as [S2 D2]. split.
    + simpl. rewrite S1, S2. reflexivity.
    + intros k. rewrite D2, D1. unfold all_literals. simpl. rewrite find_app.
      destruct (dict_get k vs); [reflexivity|].
      destruct (find _ (literals c)); reflexivity.
Qed.

(** When names determine atoms among the literals [L], and the dictionary
    holds atoms of [L], canonicalising literals of [L] changes nothing. *)
Lemma canonize_literals_fix (L : list Literal) ls :
  (forall l1 l2, In l1 L -> In l2 L ->
                 name (atom l1) = name (atom l2) -> atom l1 = atom l2) ->
  forall vs vs' out,
    incl ls L ->
    (forall k a, dict_get k vs = Some a -> exists l, In l L /\ atom l = a) ->
    dict_wf vs ->
    canonize_literals vs ls = (vs', out) ->
    out = ls /\
    (forall k a, dict_get k vs' = Some a -> exists l, In l L /\ atom l = a).
Proof.
  intros ND. induction ls as [|l rest IH]; intros vs vs' out I F W H; simpl in H.
  - injection H as <- <-. auto.
  - assert (Il : In l L) by (apply I; left; reflexivity).
    assert (Ir : incl rest L) by (intros x Hx; apply I; right; exact Hx).
    destruct (dict_get (name (atom l)) vs) as [canon|] eqn:G.
    + destruct (canonize_literals vs rest) as [vs2 cl] eqn:R.
      injection H as <- <-.
      destruct (IH _ _ _ Ir F W R) as [-> F2]. split; [|exact F2].
      destruct (F _ _ G) as [l' [Hl' E]].
      assert (Q : canon = atom l).
      { rewrite <- E. apply ND; auto. rewrite E. apply (W _ _ G). }
      rewrite Q, mkLiteral_eta. reflexivity.
    + destruct (canonize_literals (vs ++ [(name (atom l), atom l)]) rest)
        as [vs2 cl] eqn:R.
      injection H as <- <-.
      assert (F1 : forall k a,
                 dict_get k (vs ++ [(name (atom l), atom l)]) = Some a ->
                 exists l0, In l0 L /\ atom l0 = a).
      { intros k a. rewrite dict_get_app.
        destruct (dict_get k vs) as [x|] eqn:Gk.
        - intros Q. injection Q as <-. apply (F _ _ Gk).
        - destruct (String.eqb k (name (atom l))); [|discriminate].
          intros Q. injection Q as <-. exists l. auto. }
      destruct (IH _ _ _ Ir F1 (dict_wf_add _ _ W) R) as [-> F2].
      split; [|exact F2]. rewrite mkLiteral_eta. reflexivity.
Qed.

Lemma mkClause_eta c : mkClause (literals c) = c.
Proof. destruct c. reflexivity. Qed.

Lemma canonize_loop_fix (L : list Literal) cs :
  (forall l1 l2, In l1 L -> In l2 L ->
                 name (atom l1) = name (atom l2) -> atom l1 = atom l2) ->
  forall vs vs' out,
    incl (all_literals cs) L ->
    (forall k a, dict_get k vs = Some a -> exists l, In l L /\ atom l = a) ->
    dict_wf vs ->
    canonize_loop vs cs = (vs', out) ->
    out = cs.
Proof.
  intros ND. induction cs as [|c rest IH]; intros vs vs' out I F W H; simpl in H.
  - injection H as <- <-. reflexivity.
  - destruct (canonize_literals vs (literals c)) as [vs1 cl] eqn:Lc.
    destruct (canonize_loop vs1 rest) as [vs2 ncs] eqn:R.
    injection H as <- <-.
    assert (Ic : incl (literals c) L).
    { intros x Hx. apply I. unfold all_literals. simpl. apply in_or_app. auto. }
    assert (Ir : incl (all_literals rest) L).
    { intros x Hx. apply I. unfold all_literals. simpl. apply in_or_app. auto. }
    destruct (canonize_literals_fix L _ ND _ _ _ Ic F W Lc) as [-> F1].
    destruct (canonize_literals_facts _ _ _ _ W Lc) as (W1 & _).
    rewrite (IH _ _ _ Ir F1 W1 R), mkClause_eta. reflexivity.
Qed.

Lemma satisfies_signature sigma cs :
  satisfies sigma cs =
  forallb (existsb (fun p : string * bool => Bool.eqb (sigma (fst p)) (snd p)))
          (map (fun c => map literal_signature (literals c)) cs).
Proof.
  unfold satisfies. induction cs as [|c cs IH]; simpl; [reflexivity|].
  rewrite IH. f_equal.
  induction (literals c) as [|l ls IHl]; simpl; [reflexivity|].
  rewrite IHl. reflexivity.
Qed.

(** X12.  What [canonize_clauses] keeps and what it changes.  The clauses
    it returns have the same shape: the same names and polarities in the same
    places, hence the same truth value under every assignment of the names.
    The dictionary binds each name to the atom of the first literal with that
    name.  The clause list comes back unchanged exactly when each name already
    belongs to one atom object. *)
Theorem canonize_clauses_structure (cs : list Clause) :
  map (fun c => map literal_signature (literals c)) (snd (canonize_clauses cs)) =
    map (fun c => map literal_signature (literals c)) cs /\
  (forall sigma, satisfies sigma (snd (canonize_clauses cs)) = satisfies sigma cs) /\
  (forall k, dict_get k (fst (canonize_clauses cs)) =
             option_map atom
               (find (fun l => String.eqb (name (atom l)) k) (all_literals cs))) /\
  (snd (canonize_clauses cs) = cs <-> names_determine_atoms cs).
Proof.
  unfold canonize_clauses.
  destruct (canonize_loop [] cs) as [vs out] eqn:E. simpl.
  destruct (canonize_loop_shape _ _ _ _ dict_wf_nil E) as [S D].
  split; [exact S|]. split; [|split].
  - intros sigma. rewrite !satisfies_signature, S. reflexivity.
  - intros k. rewrite D. reflexivity.
  - split.
    + intros ->. destruct (canonize_loop_facts _ _ _ _ dict_wf_nil E) as (_ & _ & M & _).
      intros l1 l2 H1 H2 Hn.
      pose proof (M _ H1) as G1. pose proof (M _ H2) as G2.
      rewrite Hn in G1. congruence.
    + intros ND.
      apply (canonize_loop_fix (all_literals cs) cs ND [] vs out).
      * intros x Hx. exact Hx.
      * intros k a Q. discriminate Q.
      * apply dict_wf_nil.
      * exact E.
Qed.

Lemma canonize_clauses_satisfies sigma cs :
  satisfies sigma (snd (canonize_clauses cs)) = satisfies sigma cs.
Proof.
  unfold canonize_clauses.
  destruct (canonize_loop [] cs) as [vs out] eqn:E. simpl.
  destruct (canonize_loop_shape _ _ _ _ dict_wf_nil E) as [S _].
  rewrite !satisfies_signature, S. reflexivity.
Qed.

(** For a literal whose atom has the value that [sigma] gives its name, the
    truth value in the store is the truth value under [sigma]. *)
Lemma literal_bool_holds sigma st l b :
  value st (atom l) = Some b -> sigma (name (atom l)) = b ->
  has_value st l = true /\ literal_bool st l = literal_holds sigma l.
Proof.
  intros V S. unfold has_value, atom_has_value, literal_bool, atom_bool, literal_holds.
  rewrite V, S. destruct b, (positive l); auto.
Qed.

Lemma store_agrees_literal sigma st cs c l :
  store_agrees sigma st cs -> In c cs -> In l (literals c) ->
  has_value st l = true -> literal_bool st l = literal_holds sigma l.
Proof.
  intros A Hc Hl V. unfold has_value, atom_has_value in V.
  destruct (value st (atom l)) as [b|] eqn:E; [|discriminate].
  apply (literal_bool_holds sigma st l b E).
  apply (A l b); [apply (in_all_literals _ c); assumption|exact E].
Qed.

(** Unit propagation keeps the models: from a store that agrees with a
    satisfying assignment, [bcp] does not reach a conflict, and the store it
    leaves agrees with the assignment. *)
Lemma bcp_keeps_models sigma fuel :
  forall s,
    atoms_are_objects (clauses s) ->
    satisfies sigma (clauses s) = true ->
    store_agrees sigma (values s) (clauses s) ->
    match bcp fuel s with
    | Ok (true, s') => store_agrees sigma (values s') (clauses s')
    | Ok (false, _) => False
    | Raise _ => True
    end.
Proof.
  induction fuel as [|fuel IH]; intros s O S A; simpl; [exact I|].
  destruct (find_indexed (is_unit (values s)) 0 (clauses s)) as [[i c]|] eqn:FU;
    [|exact A].
  apply find_indexed_some in FU as [Hc Uc].
  destruct (find (fun l => negb (has_value (values s) l)) (literals c)) as [l|] eqn:FL;
    [|exact I].
  apply find_some in FL as [Hl Vl]. apply negb_true_iff in Vl.
  destruct (add_forced_decision (implication_graph s) (atom l) (positive l) i c
              (decision_level s)) as [g|e]; cbn [bind]; [|exact I].
  unfold satisfies in S. rewrite forallb_forall in S.
  (* the assignment makes the unassigned literal of the unit clause true *)
  assert (T : sigma (name (atom l)) = positive l).
  { pose proof (S c Hc) as Sc. apply existsb_exists in Sc as [l1 [Hl1 T1]].
    destruct (has_value (values s) l1) eqn:V1.
    - rewrite <- (store_agrees_literal sigma _ _ c l1 A Hc Hl1 V1) in T1.
      rewrite (unit_assigned_false _ _ _ Uc Hl1 V1) in T1. discriminate.
    - rewrite (unit_unassigned_unique _ _ _ _ Uc Hl Vl Hl1 V1) in T1.
      apply Bool.eqb_prop in T1. exact T1. }
  set (st' := set_value (values s) (atom l) (Some (positive l))).
  assert (A' : store_agrees sigma st' (clauses s)).
  { intros l2 b H2. unfold st', value, set_value.
    destruct (Nat.eqb_spec (aid (atom l2)) (aid (atom l))) as [E|N].
    - intros Q. injection Q as <-.
      rewrite (O l2 l H2 (in_all_literals _ c _ Hc Hl) E). exact T.
    - apply (A l2 b H2). }
  destruct (find_indexed (is_unsatisfied st') 0 (clauses s)) as [[j c']|] eqn:FC.
  - exfalso. apply find_indexed_some in FC as [Hc' Uc'].
    pose proof (S c' Hc') as Sc. apply existsb_exists in Sc as [l1 [Hl1 T1]].
    pose proof (unsatisfied_all_assigned _ _ _ Uc' Hl1) as V1.
    rewrite <- (store_agrees_literal sigma _ _ c' l1 A' Hc' Hl1 V1) in T1.
    unfold is_unsatisfied in Uc'.
    destruct (forallb (has_value st') (literals c')); simpl in Uc'; [|discriminate].
    apply negb_true_iff in Uc'.
    assert (existsb (literal_bool st') (literals c') = true); [|congruence].
    apply existsb_exists. exists l1. auto.
  - apply (IH (with_graph s g st')).
    + exact O.
    + apply forallb_forall. exact S.
    + exact A'.
Qed.

(** X13.  Unit propagation is sound.  When the atoms of the clause list are
    objects, an assignment of the names satisfies every clause and the store
    agrees with it, [bcp] does not return [False], and a store it leaves on
    returning [True] still agrees with the assignment. *)
Theorem bcp_sound (sigma : string -> bool) (fuel : nat) (s : Solver) :
  atoms_are_objects (clauses s) ->
  satisfies sigma (clauses s) = true ->
  store_agrees sigma (values s) (clauses s) ->
  match bcp fuel s with
  | Ok (true, s') => store_agrees sigma (values s') (clauses s')
  | Ok (false, _) => False
  | Raise _ => True
  end.
Proof. apply bcp_keeps_models. Qed.

Lemma store_agrees_initial sigma cs st :
  atoms_are_objects cs ->
  store_agrees sigma (values (initial_state cs st)) (clauses (initial_state cs st)).
Proof.
  intros O l b Hl. destruct (initial_state_invariant cs st O) as [[C _] _].
  pose proof (inv_literals _ _ C l Hl) as Cl.
  unfold initial_state, value in *. simpl in *.
  rewrite reset_atoms_get.
  replace (existsb _ _) with true; [discriminate|].
  symmetry. apply existsb_exists. exists (atom l). split.
  - apply (dict_get_in_values _ _ _ Cl).
  - apply Nat.eqb_refl.
Qed.

Lemma initial_state_objects cs st :
  atoms_are_objects cs -> atoms_are_objects (clauses (initial_state cs st)).
Proof.
  intros O. destruct (initial_state_invariant cs st O) as [[C _] _].
  intros l1 l2 H1 H2 E.
  apply (inv_objects _ _ C); [apply (inv_literals _ _ C), H1| |exact E].
  apply (inv_literals _ _ C), H2.
Qed.

Lemma bcp_sound_witness :
  atoms_are_objects (clauses (initial_state unit_then_chain no_values)) /\
  satisfies (fun _ => true) (clauses (initial_state unit_then_chain no_values)) = true /\
  store_agrees (fun _ => true) (values (initial_state unit_then_chain no_values))
               (clauses (initial_state unit_then_chain no_values)) /\
  match bcp 4 (initial_state unit_then_chain no_values) with
  | Ok (true, s') => store_agrees (fun _ => true) (values s') (clauses s')
  | Ok (false, _) => False
  | Raise _ => True
  end.
Proof.
  pose proof (initial_state_objects unit_then_chain no_values unit_then_chain_atoms) as O.
  pose proof (store_agrees_initial (fun _ => true) unit_then_chain no_values
                unit_then_chain_atoms) as A.
  assert (S : satisfies (fun _ => true)
                (clauses (initial_state unit_then_chain no_values)) = true)
    by reflexivity.
  split; [exact O|]. split; [exact S|]. split; [exact A|].
  exact (bcp_sound (fun _ => true) 4 _ O S A).
Defined.

Lemma solve_from_initial_state (set_order : forall A : Type, list A -> list A)
    h fuel cs st :
  solve set_order h fuel cs st =
  solve_internal set_order h fuel (initial_state cs st).
Proof.
  unfold solve, initial_state. destruct (canonize_clauses cs). reflexivity.
Qed.

(** X14.  An UNSAT answer before the first decision is right.  When the
    atoms of the input are objects and the first [bcp], at decision level 0,
    ends in a conflict, [solve] answers UNSAT in the state that [bcp] left,
    and no assignment of the names satisfies the input. *)
Theorem unsat_before_first_decision
    (set_order : forall A : Type, list A -> list A)
    (h : Heuristic) (fuel : nat) (cs : list Clause) (st : Store) (s1 : Solver) :
  atoms_are_objects cs ->
  bcp fuel (initial_state cs st) = Ok (false, s1) ->
  solve set_order h fuel cs st = Ok (false, s1) /\
  forall sigma, satisfies sigma cs = false.
Proof.
  intros O B. split.
  - rewrite solve_from_initial_state. unfold solve_internal.
    change (mkSolver (variables (initial_state cs st)) (clauses (initial_state cs st))
              new_graph 0 (solver_conflict_node (initial_state cs st))
              (values (initial_state cs st)))
      with (initial_state cs st).
    rewrite B. cbn [bind].
    pose proof (bcp_facts fuel (initial_state cs st)) as F. rewrite B in F.
    destruct F as (_ & _ & L & _ & _ & c & a & n & _ & _ & CN).
    unfold resolve_conflict. rewrite CN, L. reflexivity.
  - intros sigma. destruct (satisfies sigma cs) eqn:S; [|reflexivity]. exfalso.
    pose proof (bcp_keeps_models sigma fuel (initial_state cs st)
                  (initial_state_objects cs st O)) as K.
    rewrite B in K. apply K.
    + unfold initial_state. simpl. rewrite canonize_clauses_satisfies. exact S.
    + apply store_agrees_initial, O.
Qed.

Lemma one_and_not_one_atoms : atoms_are_objects one_and_not_one.
Proof.
  intros l1 l2 H1 H2 E. simpl in H1, H2.
  repeat match goal with
         | H : _ \/ _ |- _ => destruct H as [H|H]
         | H : False |- _ => destruct H
         end; subst; simpl in E; try reflexivity; discriminate E.
Qed.

Lemma unsat_before_first_decision_witness :
  atoms_are_objects one_and_not_one /\
  exists s1,
    bcp 3 (initial_state one_and_not_one no_values) = Ok (false, s1) /\
    solve insertion_order simple 3 one_and_not_one no_values = Ok (false, s1) /\
    forall sigma, satisfies sigma one_and_not_one = false.
Proof.
  split; [exact one_and_not_one_atoms|].
  destruct (bcp 3 (initial_state one_and_not_one no_values)) as [[b s1]|e] eqn:B.
  - destruct b; [discriminate B|].
    exists s1. split; [reflexivity|].
    exact (unsat_before_first_decision insertion_order simple 3 one_and_not_one
             no_values s1 one_and_not_one_atoms B).
  - discriminate B.
Defined.

Section SolveOutcome.

Variable set_order : forall A : Type, list A -> list A.

Lemma bcp_until_success_no_unit inner fuel :
  forall s s',
    bcp_until_success set_order inner fuel s = Ok (inl s') ->
    forall c, In c (clauses s') -> is_unit (values s') c = false.
Proof.
  induction fuel as [|fuel IH]; intros s s' H; simpl in H; [discriminate|].
  bind_ok H. destruct a as [ok s1].
  pose proof (bcp_facts inner s) as F. rewrite E in F.
  destruct ok.
  - injection H as <-. apply F.
  - bind_ok H. destruct a as [resolved s2].
    destruct resolved; [|discriminate]. apply (IH _ _ H).
Qed.

Lemma main_loop_no_open h inner fuel :
  forall s s',
    (forall c, In c (clauses s) -> is_unit (values s) c = false) ->
    main_loop set_order h inner fuel s = Ok (true, s') ->
    forall c, In c (clauses s') ->
      is_unit (values s') c = false /\ is_unresolved (values s') c = false.
Proof.
  induction fuel as [|fuel IH]; intros s s' U H; simpl in H; [discriminate|].
  bind_ok H. destruct a as [decided s2].
  pose proof (decide_facts h (mkSolver (variables s) (clauses s) (implication_graph s)
                                (decision_level s + 1) (solver_conflict_node s)
                                (values s))) as D.
  rewrite E in D. destruct decided; simpl in H.
  - bind_ok H. destruct a as [s3|s3]; [|discriminate].
    apply (IH _ _ (bcp_until_success_no_unit _ _ _ _ E0) H).
  - injection H as <-. destruct D as [-> D]. simpl in *.
    intros c Hc. split; [apply U, Hc|apply D, Hc].
Qed.

(** After a SAT answer every clause is satisfied or unsatisfied. *)
Lemma solve_sat_no_open (h : Heuristic) (fuel : nat)
    (cs : list Clause) (st : Store) (s : Solver) :
  solve set_order h fuel cs st = Ok (true, s) ->
  forall c, In c (clauses s) ->
    is_unit (values s) c = false /\ is_unresolved (values s) c = false /\
    (is_satisfied (values s) c = true \/ is_unsatisfied (values s) c = true).
Proof.
  intros H.
  assert (Open : forall c, In c (clauses s) ->
            is_unit (values s) c = false /\ is_unresolved (values s) c = false).
  { rewrite solve_from_initial_state in H. unfold solve_internal in H.
    bind_ok H. destruct a as [ok s1].
    match type of E with
    | bcp ?f ?x = _ => pose proof (bcp_facts f x) as F
    end.
    rewrite E in F. destruct F as (_ & _ & L & _ & _ & F). simpl in L.
    bind_ok H. destruct a as [resolved s2].
    destruct resolved; simpl in H; [|discriminate].
    unfold resolve_conflict in E0.
    destruct ok.
    - destruct F as [U CN]. simpl in CN. rewrite CN in E0.
      injection E0 as <-. apply (main_loop_no_open _ _ _ _ _ U H).
    - destruct F as (c & a & n & _ & _ & CN). rewrite CN, L in E0.
      discriminate E0. }
  intros c Hc. destruct (Open c Hc) as [U R]. split; [exact U|]. split; [exact R|].
  pose proof (status_exclusive_exhaustive (values s) c) as P.
  unfold status_count in P. rewrite U, R in P.
  destruct (is_satisfied (values s) c); [left; reflexivity|].
  destruct (is_unsatisfied (values s) c); [right; reflexivity|].
  discriminate P.
Qed.

(** X15.  What a SAT answer means for the clauses.  When [solve] answers
    SAT, no clause of the final clause list is unit or unresolved under the
    final values: each one is satisfied or unsatisfied. *)
Theorem sat_leaves_no_open_clause (h : Heuristic) (fuel : nat)
    (cs : list Clause) (st : Store) (s : Solver) :
  solve set_order h fuel cs st = Ok (true, s) ->
  forall c, In c (clauses s) ->
    is_unit (values s) c = false /\ is_unresolved (values s) c = false /\
    (is_satisfied (values s) c = true \/ is_unsatisfied (values s) c = true).
Proof. apply solve_sat_no_open. Qed.

End SolveOutcome.

Lemma sat_leaves_no_open_clause_witness :
  exists s,
    solve insertion_order simple 10 one_or_two no_values = Ok (true, s) /\
    forall c, In c (clauses s) ->
      is_unit (values s) c = false /\ is_unresolved (values s) c = false /\
      (is_satisfied (values s) c = true \/ is_unsatisfied (values s) c = true).
Proof.
  eexists. split; [reflexivity|].
  apply (sat_leaves_no_open_clause insertion_order simple 10 one_or_two no_values).
  reflexivity.
Defined.

Lemma next_level_invariant s :
  solver_invariant s -> no_conflict_node (implication_graph s) ->
  solver_invariant (next_level s) /\
  no_conflict_node (implication_graph (next_level s)).
Proof.
  intros [C G] N. split; [split|]; [exact C| |exact N].
  simpl. apply graph_invariant_next_level; assumption.
Qed.

Lemma backjump_clauses_atoms : atoms_are_objects backjump_clauses.
Proof.
  intros l1 l2 H1 H2 E. simpl in H1, H2.
  repeat match goal with
         | H : _ \/ _ |- _ => destruct H as [H|H]
         | H : False |- _ => destruct H
         end; subst; simpl in E; try reflexivity; discriminate E.
Qed.

(** One step of a concrete run: the call in [H] is evaluated. *)
Ltac run_step H :=
  match type of H with
  | match ?r with _ => _ end =>
      let E := fresh "E" in
      destruct r as [[? ?]|?] eqn:E; vm_compute in E;
      [injection E as <- <-|discriminate E]
  end.

(** The conflict state is reached by a run, so it satisfies the invariant. *)
Lemma backjump_state_invariant : solver_invariant backjump_state.
Proof.
  destruct (initial_state_invariant backjump_clauses no_values backjump_clauses_atoms)
    as [I0 N0].
  destruct (next_level_invariant _ I0 N0) as [I1 N1].
  pose proof (decide_invariant simple _ I1 N1) as D1. run_step D1.
  destruct D1 as [I2 N2].
  pose proof (bcp_invariant 5 _ I2 N2) as B1. run_step B1.
  destruct B1 as [I3 N3].
  destruct (next_level_invariant _ I3 N3) as [I4 N4].
  pose proof (decide_invariant simple _ I4 N4) as D2. run_step D2.
  destruct D2 as [I5 N5].
  pose proof (bcp_invariant 5 _ I5 N5) as B2. run_step B2.
  exact B2.
Qed.

Lemma find_first_uip_raise g e :
  find_first_uip g = Raise e -> e = NodeNotFound \/ e = StopIteration in_find_uips.
Proof.
  unfold find_first_uip, find_uips, all_simple_paths.
  destruct (conflict_node g) as [cn|]; [|discriminate].
  destruct (rev (decisions g)) as [|ld rest]; [discriminate|].
  destruct (negb (node_in ld (graph_nodes g)) || negb (node_in cn (graph_nodes g))).
  { cbn [bind]. intros H. injection H as <-. auto. }
  destruct (node_eqb ld cn).
  { cbn [bind]. intros H. injection H as <-. auto. }
  cbn [bind]. destruct (simple_paths _ _ _ _ _) as [|first others].
  - cbn [bind]. intros H. injection H as <-. auto.
  - cbn [bind]. destruct (rev _); discriminate.
Qed.

Lemma get_conflict_information_raise
    (set_order : forall A : Type, list A -> list A) g u e :
  get_conflict_information set_order g u = Raise e -> e = NetworkXError.
Proof.
  unfold get_conflict_information. destruct u as [u|].
  - destruct (negb (node_in u (graph_nodes g))).
    + intros H. injection H as <-. reflexivity.
    + destruct (fold_left _ _ _). discriminate.
  - intros H. injection H as <-. reflexivity.
Qed.

Section ConflictOutcome.

Variable set_order : forall A : Type, list A -> list A.
Hypothesis set_order_perm : forall A (l : list A), Permutation (set_order A l) l.

(** The learned clause holds no variable with both polarities. *)
Lemma learn_no_pair cs antecedents :
  has_complementary_pair (learn set_order cs antecedents) = false.
Proof.
  unfold learn.
  apply (fold_left_preserves (fun c => has_complementary_pair c = false)).
  - intros acc i _ _. apply (resolvent_no_pair set_order set_order_perm).
  - reflexivity.
Qed.

(** X16.  What [resolve_conflict] does in a state of a solver run.  Without
    a conflict node it returns [True] and changes nothing.  With one, a
    [True] means: the decision level went down; one clause was appended, made
    of literals of the clause list and free of complementary pairs; the stack
    was cut to that many entries and only nodes up to the new level are left,
    none of them a conflict node; but the graph's [conflict_node] attribute
    still holds the old node, since the method clears an attribute of the
    solver instead.  A [False] leaves the state as it was.  The exceptions
    are those of the path search and of the successor lookup. *)
Theorem resolve_conflict_result (s : Solver) :
  solver_invariant s ->
  match resolve_conflict set_order s with
  | Ok (true, s') =>
      (conflict_node (implication_graph s) = None /\ s' = s) \/
      (exists learned,
         conflict_node (implication_graph s) <> None /\
         decision_level s' < decision_level s /\
         variables s' = variables s /\
         clauses s' = clauses s ++ [learned] /\
         (forall l, In l (literals learned) -> In l (all_literals (clauses s))) /\
         has_complementary_pair learned = false /\
         decisions (implication_graph s') =
           firstn (decision_level s') (decisions (implication_graph s)) /\
         (forall n, In n (graph_nodes (implication_graph s')) ->
                    In n (graph_nodes (implication_graph s)) /\
                    node_level n <= decision_level s') /\
         no_conflict_node (implication_graph s') /\
         conflict_node (implication_graph s') = conflict_node (implication_graph s) /\
         solver_conflict_node s' = None)
  | Ok (false, s') => s' = s /\ conflict_node (implication_graph s) <> None
  | Raise e =>
      e = NodeNotFound \/ e = StopIteration in_find_uips \/ e = NetworkXError
  end.
Proof.
  intros [C G]. unfold resolve_conflict.
  destruct (conflict_node (implication_graph s)) as [cn|] eqn:CN.
  2:{ left. split; reflexivity. }
  destruct (Nat.leb (decision_level s) 0); [split; [reflexivity|discriminate]|].
  destruct (find_first_uip (implication_graph s)) as [u|e] eqn:FU; cbn [bind].
  2:{ destruct (find_first_uip_raise _ _ FU) as [->| ->]; auto. }
  destruct (get_conflict_information set_order (implication_graph s) u)
    as [[antecedents levels]|e] eqn:GI; cbn [bind].
  2:{ rewrite (get_conflict_information_raise _ _ _ _ GI). auto. }
  destruct levels as [|x [|y rest]]; try (split; [reflexivity|discriminate]).
  pose proof (get_conflict_information_levels set_order set_order_perm
                _ _ _ _ _ _ _ _ _ G GI) as Lt.
  destruct (clear_decisions_invariant set_order set_order_perm
              _ _ _ _ (values s) y C G Lt) as [G' NC'].
  pose proof (clear_decisions_decisions set_order (implication_graph s) (values s) y)
    as Dc.
  pose proof (clear_decisions_nodes_kept set_order set_order_perm
                (implication_graph s) (values s) y (inv_node_distinct _ _ _ _ G))
    as Nk.
  pose proof (clear_decisions_conflict_node set_order (implication_graph s)
                (values s) y) as Ck.
  destruct (clear_decisions set_order (implication_graph s) (values s) y)
    as [g' st'].
  simpl in *. right. exists (learn set_order (clauses s) antecedents).
  split; [discriminate|]. split; [exact Lt|]. split; [reflexivity|].
  split; [reflexivity|].
  split; [intros l Hl; apply (learn_literals set_order set_order_perm _ _ _ Hl)|].
  split; [apply learn_no_pair|]. split; [exact Dc|]. split.
  { intros n Hn. rewrite Nk in Hn. apply filter_In in Hn as [Hn L].
    split; [exact Hn|]. apply Nat.leb_le, L. }
  split; [exact NC'|]. split; [rewrite Ck; exact CN|reflexivity].
Qed.

End ConflictOutcome.

Lemma resolve_conflict_result_witness :
  solver_invariant backjump_state /\
  exists s',
    resolve_conflict insertion_order backjump_state = Ok (true, s') /\
    decision_level s' = 1 /\
    clauses s' = backjump_clauses ++ [mkClause [Neg x1; Neg x2]] /\
    graph_nodes (implication_graph s') = [backjump_node_1] /\
    conflict_node (implication_graph s') = Some backjump_conflict /\
    no_conflict_node (implication_graph s').
Proof.
  split; [exact backjump_state_invariant|].
  pose proof (resolve_conflict_result insertion_order insertion_order_perm
                backjump_state backjump_state_invariant) as R.
  destruct (resolve_conflict insertion_order backjump_state) as [[b s']|e] eqn:E;
    vm_compute in E; [|discriminate E].
  injection E as <- <-.
  destruct R as [[R _]|(learned & _ & _ & _ & _ & _ & _ & _ & _ & NC & _)];
    [discriminate R|].
  eexists. split; [reflexivity|].
  repeat (split; [reflexivity|]). exact NC.
Defined.

(* ================================================================== *)
(** * Further properties: BruteForceSatSolver (solvers.py)             *)
(* ================================================================== *)

Lemma set_all_true_get vars st i :
  fold_left (fun st a => set_value st a (Some true)) vars st i =
  if existsb (fun a => Nat.eqb i (aid a)) vars then Some true else st i.
Proof.
  revert st. induction vars as [|v vars IH]; intros st; simpl; [reflexivity|].
  rewrite IH. unfold set_value.
  destruct (Nat.eqb i (aid v)); simpl; [|reflexivity].
  destruct (existsb _ vars); reflexivity.
Qed.

(** With a variable in hand, [assign_next] gives the value [True] to it and
    to all the variables left in the iterator, and then either returns the
    clauses or fails on [None.value]: the second assignment is never tried. *)
Lemma assign_next_all_true cs vars :
  forall fuel v st,
    length vars + 1 < fuel ->
    assign_next fuel cs (Some v) vars st =
    let st' := fold_left (fun st a => set_value st a (Some true)) (v :: vars) st in
    if all_clauses_true st' cs then Ok (Some cs, [], st') else Raise AttributeError.
Proof.
  induction vars as [|v' vars IH]; intros fuel v st F.
  - destruct fuel as [|[|fuel]]; simpl in F; try lia.
    simpl. destruct (all_clauses_true (set_value st v (Some true)) cs); reflexivity.
  - destruct fuel as [|fuel]; simpl in F; [lia|].
    cbn [assign_next andb hd_error tl].
    rewrite (IH fuel v' (set_value st v (Some true))) by lia.
    cbv zeta. cbn [fold_left].
    destruct (all_clauses_true _ cs); reflexivity.
Qed.

Lemma all_true_positive vs out st :
  (forall l, In l (all_literals out) -> In (atom l) (dict_values vs)) ->
  all_clauses_true
    (fold_left (fun st a => set_value st a (Some true)) (dict_values vs) st) out =
  all_clauses_have_positive out.
Proof.
  intros M. unfold all_clauses_true, all_clauses_have_positive.
  apply forallb_ext_in. intros c Hc. apply existsb_ext_in. intros l Hl.
  unfold literal_bool, atom_bool, value. rewrite set_all_true_get.
  replace (existsb _ _) with true; [destruct (positive l); reflexivity|].
  symmetry. apply existsb_exists. exists (atom l). split.
  - apply M, (in_all_literals _ c); assumption.
  - apply Nat.eqb_refl.
Qed.

Lemma all_clauses_have_positive_signature cs :
  all_clauses_have_positive cs =
  forallb (existsb (fun p : string * bool => snd p))
          (map (fun c => map literal_signature (literals c)) cs).
Proof.
  unfold all_clauses_have_positive. induction cs as [|c cs IH]; simpl; [reflexivity|].
  rewrite IH. f_equal.
  induction (literals c) as [|l ls IHl]; simpl; [reflexivity|].
  rewrite IHl. reflexivity.
Qed.

(** X17.  [BruteForceSatSolver] tries one assignment only.  With fuel for
    one call per variable, it gives every variable the value [True]; when
    every clause has a literal without negation it returns the clause list,
    and otherwise the call on [None] raises [AttributeError].  So it never
    gives a variable the value [False] and never returns [None]. *)
Theorem brute_force_solve_outcome (fuel : nat) (cs : list Clause) (st : Store) :
  length (fst (canonize_clauses cs)) + 1 < fuel ->
  brute_force_solve fuel cs st =
  if all_clauses_have_positive cs
  then Ok (Some (snd (canonize_clauses cs)),
           fold_left (fun st a => set_value st a (Some true))
             (dict_values (fst (canonize_clauses cs)))
             (fold_left (fun st var => set_value st var None)
                (dict_values (fst (canonize_clauses cs))) st))
  else Raise AttributeError.
Proof.
  unfold brute_force_solve, canonize_clauses.
  destruct (canonize_loop [] cs) as [vs out] eqn:E. simpl fst. simpl snd.
  intros F.
  destruct (canonize_loop_facts _ _ _ _ dict_wf_nil E) as (_ & _ & M & _).
  destruct (canonize_loop_shape _ _ _ _ dict_wf_nil E) as [S _].
  assert (P : all_clauses_have_positive out = all_clauses_have_positive cs).
  { rewrite !all_clauses_have_positive_signature, S. reflexivity. }
  set (st0 := fold_left (fun st var => set_value st var None) (dict_values vs) st).
  pose proof (all_true_positive vs out st0
                (fun l Hl => dict_get_in_values _ _ _ (M l Hl))) as T.
  rewrite P in T.
  unfold brute_force_solve_internal.
  assert (L : length (dict_values vs) = length vs) by apply length_map.
  destruct (dict_values vs) as [|v vars] eqn:V.
  - (* no variable: the first call is on [None] *)
    destruct fuel as [|fuel]; [simpl in F; lia|].
    simpl in T. simpl. rewrite T.
    destruct (all_clauses_have_positive cs); reflexivity.
  - cbn [hd_error tl].
    rewrite assign_next_all_true by (simpl in L; lia).
    cbv zeta. rewrite T.
    destruct (all_clauses_have_positive cs); reflexivity.
Qed.

Lemma brute_force_solve_outcome_witness :
  length (fst (canonize_clauses only_not1)) + 1 < 3 /\
  brute_force_solve 3 only_not1 no_values = Raise AttributeError /\
  satisfies (fun _ => false) only_not1 = true.
Proof.
  assert (F : length (fst (canonize_clauses only_not1)) + 1 < 3) by (simpl; lia).
  split; [exact F|]. split; [|reflexivity].
  exact (brute_force_solve_outcome 3 only_not1 no_values F).
Defined.

(* ================================================================== *)
(** * Further properties: DimacsParser (parsing.py)                    *)
(* ================================================================== *)

Lemma all_literals_snoc cs cl :
  all_literals (cs ++ [mkClause cl]) = all_literals cs ++ cl.
Proof.
  unfold all_literals. rewrite flat_map_app. simpl. rewrite app_nil_r. reflexivity.
Qed.

Lemma canonical_add V k a b :
  canonical (V ++ [(k, a)]) b ->
  canonical V b \/ (dict_get (name b) V = None /\ b = a).
Proof.
  unfold canonical. rewrite dict_get_app.
  destruct (dict_get (name b) V) as [x|]; [left; assumption|].
  destruct (String.eqb (name b) k); [|discriminate].
  intros H. injection H as <-. right. auto.
Qed.

(** The loop of the parser keeps the dictionary of atoms well formed, with
    one object per name, and builds the clauses from these objects. *)
Lemma parse_loop_invariant matches :
  forall clauses clause atoms next_id,
    dict_entries_ok atoms ->
    (forall a b, canonical atoms a -> canonical atoms b -> aid a = aid b -> a = b) ->
    (forall k a, dict_get k atoms = Some a -> aid a < next_id) ->
    (forall l, In l (all_literals clauses ++ clause) -> canonical atoms (atom l)) ->
    exists atoms',
      clauses_invariant atoms' (parse_loop matches clauses clause atoms next_id).
Proof.
  induction matches as [|z rest IH]; intros clauses clause atoms next_id W O B L.
  - simpl. exists atoms. constructor; [exact W|exact O|].
    intros l Hl. apply L, in_or_app. left. exact Hl.
  - simpl. destruct (Z.eqb z 0).
    + apply IH; auto. intros l Hl. rewrite app_nil_r, all_literals_snoc in Hl.
      apply L, Hl.
    + destruct (dict_get (str_of_abs z) atoms) as [a|] eqn:G.
      * apply IH; auto. intros l Hl. rewrite app_assoc in Hl.
        apply in_app_or in Hl as [Hl|[<-|[]]]; [apply L, Hl|].
        unfold canonical. simpl.
        rewrite (dict_entries_ok_wf _ W _ _ G). exact G.
      * set (a := mkAtom next_id (str_of_abs z)).
        apply IH.
        -- apply (dict_entries_ok_add atoms a W G).
        -- intros x y Cx Cy E.
           apply canonical_add in Cx as [Cx|[_ ->]];
             apply canonical_add in Cy as [Cy|[_ ->]].
           ++ apply O; assumption.
           ++ apply B in Cx. simpl in E. lia.
           ++ apply B in Cy. simpl in E. lia.
           ++ reflexivity.
        -- intros k x. rewrite dict_get_app.
           destruct (dict_get k atoms) as [y|] eqn:Gk.
           ++ intros H. injection H as <-. apply B in Gk. lia.
           ++ destruct (String.eqb k (str_of_abs z)); [|discriminate].
              intros H. injection H as <-. simpl. lia.
        -- intros l Hl. rewrite app_assoc in Hl.
           apply in_app_or in Hl as [Hl|[<-|[]]].
           ++ apply (dict_extends_add atoms (str_of_abs z) a), L, Hl.
           ++ unfold canonical. simpl. rewrite dict_get_app, G, String.eqb_refl.
              reflexivity.
Qed.

Lemma parse_matches_invariant matches next_id :
  exists atoms, clauses_invariant atoms (parse_matches matches next_id).
Proof.
  unfold parse_matches. apply parse_loop_invariant.
  - apply dict_entries_ok_nil.
  - intros a b H. discriminate H.
  - intros k a H. discriminate H.
  - intros l [].
Qed.

Lemma parse_matches_objects matches next_id :
  atoms_are_objects (parse_matches matches next_id).
Proof.
  destruct (parse_matches_invariant matches next_id) as [V C].
  intros l1 l2 H1 H2 E.
  apply (inv_objects _ _ C); [apply (inv_literals _ _ C), H1| |exact E].
  apply (inv_literals _ _ C), H2.
Qed.

(** X18.  The parser shares atoms.  In the clauses that [DimacsParser.parse]
    builds, from any sequence of integers, a name belongs to one atom object
    and an object has one name; so [canonize_clauses] returns these clauses
    as they are. *)
Theorem parse_shares_atoms (matches : list Z) (next_id : nat) :
  names_determine_atoms (parse_matches matches next_id) /\
  atoms_are_objects (parse_matches matches next_id) /\
  snd (canonize_clauses (parse_matches matches next_id)) =
    parse_matches matches next_id.
Proof.
  destruct (parse_matches_invariant matches next_id) as [V C].
  assert (ND : names_determine_atoms (parse_matches matches next_id)).
  { intros l1 l2 H1 H2 E.
    apply (canonical_same_name V); [apply (inv_literals _ _ C), H1| |exact E].
    apply (inv_literals _ _ C), H2. }
  split; [exact ND|]. split; [apply parse_matches_objects|].
  unfold canonize_clauses.
  destruct (canonize_loop [] (parse_matches matches next_id)) as [vs out] eqn:E.
  simpl.
  apply (canonize_loop_fix (all_literals (parse_matches matches next_id)) _ ND
           [] vs out).
  - intros x Hx. exact Hx.
  - intros k a Q. discriminate Q.
  - apply dict_wf_nil.
  - exact E.
Qed.

Lemma parse_loop_shape matches :
  forall clauses clause atoms next_id current,
    dict_wf atoms ->
    map literal_signature clause = map token_signature current ->
    map (fun c => map literal_signature (literals c))
        (parse_loop matches clauses clause atoms next_id) =
    map (fun c => map literal_signature (literals c)) clauses ++
    map (map token_signature) (groups_before_zeros matches current).
Proof.
  induction matches as [|z rest IH]; intros clauses clause atoms next_id current W S.
  - simpl. rewrite app_nil_r. reflexivity.
  - simpl. destruct (Z.eqb z 0).
    + rewrite (IH (clauses ++ [mkClause clause]) [] atoms next_id [] W eq_refl), map_app.
      simpl.
      rewrite S, <- app_assoc. reflexivity.
    + destruct (dict_get (str_of_abs z) atoms) as [a|] eqn:G.
      * apply IH; [exact W|]. rewrite !map_app, S. simpl.
        unfold literal_signature at 1. simpl. rewrite (W _ _ G). reflexivity.
      * apply IH; [apply (dict_wf_add atoms (mkAtom next_id (str_of_abs z)) W)|].
        rewrite !map_app, S. reflexivity.
Qed.

Lemma groups_before_zeros_length matches :
  forall current,
    length (groups_before_zeros matches current) = count_occ Z.eq_dec matches 0%Z.
Proof.
  induction matches as [|z rest IH]; intros current; simpl; [reflexivity|].
  destruct (Z.eqb_spec z 0) as [->|N].
  - simpl. rewrite IH. reflexivity.
  - destruct (Z.eq_dec z 0) as [E|_]; [contradiction|]. apply IH.
Qed.

Lemma parse_loop_no_zero tail :
  forallb (fun z => negb (Z.eqb z 0)) tail = true ->
  forall clauses clause atoms next_id,
    parse_loop tail clauses clause atoms next_id = clauses.
Proof.
  induction tail as [|z rest IH]; intros H clauses clause atoms next_id;
    [reflexivity|].
  simpl in H. apply andb_prop in H as [Hz Hr]. apply negb_true_iff in Hz.
  simpl. rewrite Hz.
  destruct (dict_get (str_of_abs z) atoms); apply (IH Hr).
Qed.

Lemma parse_loop_tail matches tail :
  forallb (fun z => negb (Z.eqb z 0)) tail = true ->
  forall clauses clause atoms next_id,
    parse_loop (matches ++ tail) clauses clause atoms next_id =
    parse_loop matches clauses clause atoms next_id.
Proof.
  intros H. induction matches as [|z rest IH]; intros clauses clause atoms next_id.
  - simpl. apply (parse_loop_no_zero tail H).
  - simpl. destruct (Z.eqb z 0); [apply IH|].
    destruct (dict_get (str_of_abs z) atoms); apply IH.
Qed.

(** X19.  The clauses of the parser.  The clauses are the groups of integers
    that end with a zero, in order: each literal has the decimal numeral of
    the integer's absolute value as its name and is positive when the integer
    is.  There are as many clauses as zeros, and the integers after the last
    zero are dropped. *)
Theorem parse_clauses (matches : list Z) (next_id : nat) :
  map (fun c => map literal_signature (literals c))
      (parse_matches matches next_id) =
    map (map token_signature) (groups_before_zeros matches []) /\
  length (parse_matches matches next_id) = count_occ Z.eq_dec matches 0%Z /\
  (forall tail,
     forallb (fun z => negb (Z.eqb z 0)) tail = true ->
     parse_matches (matches ++ tail) next_id = parse_matches matches next_id).
Proof.
  assert (S : map (fun c => map literal_signature (literals c))
                  (parse_matches matches next_id) =
              map (map token_signature) (groups_before_zeros matches [])).
  { unfold parse_matches.
    rewrite (parse_loop_shape matches [] [] [] next_id [] dict_wf_nil eq_refl).
    reflexivity. }
  split; [exact S|]. split.
  - rewrite <- (length_map (fun c => map literal_signature (literals c))), S.
    rewrite length_map. apply groups_before_zeros_length.
  - intros tail H. unfold parse_matches. apply (parse_loop_tail _ _ H).
Qed.

Lemma findall_ints_blank text :
  forall state,
    findall_ints state (blank_others text) = findall_ints state text.
Proof.
  induction text as [|c rest IH]; intros state; [reflexivity|].
  simpl. unfold in_pattern.
  destruct (digit_of c) as [d|] eqn:D.
  - rewrite D. destruct state; apply IH.
  - destruct (Ascii.eqb c "-"%char) eqn:M.
    + rewrite D, M, IH. reflexivity.
    + simpl. rewrite IH. reflexivity.
Qed.

(** X20.  The parser has no notion of a line, a header or a comment: every
    character that is neither an ASCII digit nor a minus sign only separates
    numbers.  Replacing each such character by a space changes neither the
    integers found nor the clauses. *)
Theorem parse_ignores_other_characters (text : string) (next_id : nat) :
  findall_ints Idle (blank_others text) = findall_ints Idle text /\
  parse (blank_others text) next_id = parse text next_id.
Proof.
  split; [apply findall_ints_blank|].
  unfold parse. rewrite findall_ints_blank. reflexivity.
Qed.

Section ParsedInput.

Variable set_order : forall A : Type, list A -> list A.
Hypothesis set_order_perm : forall A (l : list A), Permutation (set_order A l) l.

(** X21.  The solver on the parser's output, as in [test] of __init__.py.
    Whatever the text, the decision heuristic and the fuel, a run of [solve]
    on the parsed clauses ends in a state that satisfies the invariant of the
    implication graph, or with an exception that is not one of the graph's
    predecessor lookups. *)
Theorem solve_parsed_input (text : string) (next_id : nat) (h : Heuristic)
    (fuel : nat) (st : Store) :
  match solve set_order h fuel (parse text next_id) st with
  | Ok (_, s) => solver_invariant s
  | Raise e => is_lookup_error e = false
  end.
Proof.
  apply (solve_invariant set_order set_order_perm).
  apply parse_matches_objects.
Qed.

End ParsedInput.

Lemma solve_parsed_input_witness :
  match solve insertion_order simple 30 (parse test_instance_string 1) no_values with
  | Ok (_, s) => solver_invariant s
  | Raise e => is_lookup_error e = false
  end.
Proof.
  exact (solve_parsed_input insertion_order insertion_order_perm
           test_instance_string 1 simple 30 no_values).
Defined.

Section SolveAnswer.

Variable set_order : forall A : Type, list A -> list A.

Lemma resolve_conflict_clauses s b s' :
  resolve_conflict set_order s = Ok (b, s') ->
  exists learned, clauses s' = clauses s ++ learned.
Proof.
  unfold resolve_conflict.
  destruct (conflict_node (implication_graph s)).
  - destruct (Nat.leb (decision_level s) 0).
    + intros H. injection H as <- <-. exists []. rewrite app_nil_r. reflexivity.
    + intros H. bind_ok H. bind_ok H. destruct a0 as [ants levels].
      destruct levels as [|l0 [|l1 rest]];
        try (injection H as <- <-; exists []; rewrite app_nil_r; reflexivity).
      destruct (clear_decisions set_order (implication_graph s) (values s) l1)
        as [g st].
      injection H as <- <-. simpl. eexists. reflexivity.
  - intros H. injection H as <- <-. exists []. rewrite app_nil_r. reflexivity.
Qed.

Lemma bcp_until_success_clauses inner fuel :
  forall s r, bcp_until_success set_order inner fuel s = Ok r ->
    exists learned,
      clauses (match r with inl s' | inr s' => s' end) = clauses s ++ learned.
Proof.
  induction fuel as [|fuel IH]; intros s r H; simpl in H; [discriminate|].
  bind_ok H. destruct a as [ok s1].
  pose proof (bcp_facts inner s) as F. rewrite E in F.
  destruct F as (_ & Cs & _).
  destruct ok.
  - injection H as <-. exists []. rewrite app_nil_r. exact Cs.
  - bind_ok H. destruct a as [resolved s2].
    apply resolve_conflict_clauses in E0 as [l1 E0].
    destruct resolved.
    + apply IH in H as [l2 H]. exists (l1 ++ l2).
      rewrite H, E0, Cs, app_assoc. reflexivity.
    + injection H as <-. exists l1. rewrite E0, Cs. reflexivity.
Qed.

Lemma main_loop_clauses h inner fuel :
  forall s b s', main_loop set_order h inner fuel s = Ok (b, s') ->
    exists learned, clauses s' = clauses s ++ learned.
Proof.
  induction fuel as [|fuel IH]; intros s b s' H; simpl in H; [discriminate|].
  bind_ok H. destruct a as [decided s2].
  assert (Cs : clauses s2 = clauses s).
  { match type of E with
    | decide ?h0 ?x = _ => pose proof (decide_facts h0 x) as D
    end.
    rewrite E in D. destruct decided.
    - destruct D as (a & v & _ & -> & _). reflexivity.
    - destruct D as [-> _]. reflexivity. }
  destruct decided; simpl in H.
  - bind_ok H. apply bcp_until_success_clauses in E0 as [l1 E0].
    destruct a as [s3|s3].
    + apply IH in H as [l2 H]. exists (l1 ++ l2).
      rewrite H, E0, Cs, app_assoc. reflexivity.
    + injection H as <- <-. exists l1. rewrite E0, Cs. reflexivity.
  - injection H as <- <-. exists []. rewrite app_nil_r. exact Cs.
Qed.

Lemma solve_clauses h fuel cs st b s :
  solve set_order h fuel cs st = Ok (b, s) ->
  exists learned, clauses s = snd (canonize_clauses cs) ++ learned.
Proof.
  rewrite solve_from_initial_state. unfold solve_internal. intros H.
  bind_ok H. destruct a as [ok s1].
  match type of E with
  | bcp ?f ?x = _ => pose proof (bcp_facts f x) as F
  end.
  rewrite E in F. destruct F as (_ & Cs & _). simpl in Cs.
  bind_ok H. destruct a as [resolved s2].
  apply resolve_conflict_clauses in E0 as [l1 E0].
  destruct resolved; simpl in H.
  - apply main_loop_clauses in H as [l2 H]. exists (l1 ++ l2).
    rewrite H, E0, Cs, app_assoc. reflexivity.
  - injection H as <- <-. exists l1. rewrite E0, Cs. reflexivity.
Qed.

(** X22.  When a SAT answer is right.  The final clause list is the
    canonical input followed by the learned clauses.  When [solve] answers
    SAT and no clause of that list is unsatisfied under the final values, the
    assignment that the final state stands for, with [False] for the
    variables left without value, satisfies every clause of the input. *)
Theorem sat_answer_without_false_clause (h : Heuristic) (fuel : nat)
    (cs : list Clause) (st : Store) (s : Solver) :
  solve set_order h fuel cs st = Ok (true, s) ->
  (exists learned, clauses s = snd (canonize_clauses cs) ++ learned) /\
  ((forall c, In c (clauses s) -> is_unsatisfied (values s) c = false) ->
   satisfies (assignment_of s) cs = true).
Proof.
  intros H.
  destruct (solve_clauses _ _ _ _ _ _ H) as [learned Cs].
  split; [exists learned; exact Cs|].
  intros NU. rewrite <- canonize_clauses_satisfies.
  pose proof (solve_variables set_order _ _ _ _ _ _ H) as Vs.
  unfold satisfies. apply forallb_forall. intros c Hc.
  assert (Hc' : In c (clauses s)) by (rewrite Cs; apply in_or_app; left; exact Hc).
  destruct (solve_sat_no_open set_order h fuel cs st s H c Hc') as (_ & _ & [Sat|Un]).
  - unfold is_satisfied in Sat. apply existsb_exists in Sat as [l [Hl B]].
    apply filter_In in Hl as [Hl _].
    apply existsb_exists. exists l. split; [exact Hl|].
    unfold literal_holds, assignment_of. rewrite Vs.
    unfold canonize_clauses in *.
    destruct (canonize_loop [] cs) as [vs out] eqn:E. simpl in *.
    destruct (canonize_loop_facts _ _ _ _ dict_wf_nil E) as (_ & _ & M & _).
    rewrite (M l (in_all_literals _ _ _ Hc Hl)).
    unfold literal_bool in B.
    destruct (positive l), (atom_bool (values s) (atom l)); auto.
  - rewrite (NU c Hc') in Un. discriminate.
Qed.

End SolveAnswer.

Lemma sat_answer_without_false_clause_witness :
  exists s,
    solve insertion_order simple 10 one_or_two no_values = Ok (true, s) /\
    (forall c, In c (clauses s) -> is_unsatisfied (values s) c = false) /\
    satisfies (assignment_of s) one_or_two = true.
Proof.
  eexists. split; [reflexivity|]. split.
  - intros c [<-|[]]. reflexivity.
  - apply (sat_answer_without_false_clause insertion_order simple 10 one_or_two
             no_values _ eq_refl).
    intros c [<-|[]]. reflexivity.
Defined.

Lemma firstn_by_level (l : list Node) :
  forall a k keep,
    map node_level l = seq a k ->
    filter (fun n => Nat.leb (node_level n) keep) l = firstn (keep + 1 - a) l.
Proof.
  induction l as [|x r IH]; intros a k keep H.
  - rewrite firstn_nil. reflexivity.
  - destruct k as [|k]; [discriminate|]. simpl in H. injection H as Hx Hr.
    specialize (IH (S a) k keep Hr). simpl. rewrite Hx.
    destruct (Nat.leb_spec a keep) as [Le|Gt].
    + replace (keep + 1 - a) with (S (keep + 1 - S a)) by lia.
      simpl. rewrite IH. reflexivity.
    + rewrite IH. replace (keep + 1 - S a) with 0 by lia.
      replace (keep + 1 - a) with 0 by lia. reflexivity.
Qed.

Lemma firstn_seq_prefix k :
  forall a n, k <= n -> firstn k (seq a n) = seq a k.
Proof.
  induction k as [|k IH]; intros a n H; [reflexivity|].
  destruct n as [|n]; [lia|]. simpl. rewrite IH by lia. reflexivity.
Qed.

Lemma bcp_stack fuel s b s' :
  bcp fuel s = Ok (b, s') -> stack_follows_levels s -> stack_follows_levels s'.
Proof.
  intros E. pose proof (bcp_facts fuel s) as F. rewrite E in F.
  destruct F as (_ & _ & L & D & _). unfold stack_follows_levels.
  rewrite L, D. auto.
Qed.

Lemma decide_stack h s s' :
  decide h (next_level s) = Ok (true, s') ->
  stack_follows_levels s -> stack_follows_levels s'.
Proof.
  intros E. pose proof (decide_facts h (next_level s)) as F. rewrite E in F.
  destruct F as (a & v & _ & -> & _). unfold stack_follows_levels. simpl.
  unfold add_decision.
  destruct (nx_add_node_fields
              (DecisionNode (allocated (implication_graph s)) a v (decision_level s + 1))
              (mkGraph (graph_nodes (implication_graph s))
                 (graph_edges (implication_graph s))
                 (decisions (implication_graph s) ++
                  [DecisionNode (allocated (implication_graph s)) a v
                     (decision_level s + 1)])
                 (conflict_node (implication_graph s))
                 (S (allocated (implication_graph s))))) as (_ & -> & _).
  simpl. intros H. rewrite map_app, H. simpl.
  rewrite Nat.add_1_r, seq_S. reflexivity.
Qed.

Section DecisionStack.

Variable set_order : forall A : Type, list A -> list A.
Hypothesis set_order_perm : forall A (l : list A), Permutation (set_order A l) l.

Lemma resolve_conflict_stack s b s' :
  solver_invariant s ->
  resolve_conflict set_order s = Ok (b, s') ->
  stack_follows_levels s -> stack_follows_levels s'.
Proof.
  intros [C G]. unfold resolve_conflict.
  destruct (conflict_node (implication_graph s)) as [cn|].
  2:{ intros H. injection H as <- <-. auto. }
  destruct (Nat.leb (decision_level s) 0).
  { intros H. injection H as <- <-. auto. }
  intros H. bind_ok H. bind_ok H. destruct a0 as [antecedents levels].
  destruct levels as [|x [|y rest]];
    [injection H as <- <-; auto | injection H as <- <-; auto |].
  pose proof (get_conflict_information_levels set_order set_order_perm
                _ _ _ _ _ _ _ _ _ G E0) as Lt.
  pose proof (clear_decisions_decisions set_order (implication_graph s) (values s) y)
    as Dc.
  injection H as <- <-. unfold stack_follows_levels. simpl.
  unfold clear_decisions in Dc. simpl in Dc.
  intros S. rewrite Dc, <- firstn_map, S.
  apply firstn_seq_prefix. lia.
Qed.

Lemma bcp_until_success_stack inner fuel :
  forall s r,
    solver_invariant s -> no_conflict_node (implication_graph s) ->
    stack_follows_levels s ->
    bcp_until_success set_order inner fuel s = Ok r ->
    stack_follows_levels (match r with inl s' | inr s' => s' end) /\
    solver_invariant (match r with inl s' | inr s' => s' end) /\
    match r with
    | inl s' => no_conflict_node (implication_graph s')
    | inr _ => True
    end.
Proof.
  induction fuel as [|fuel IH]; intros s r I N S H; simpl in H; [discriminate|].
  bind_ok H. destruct a as [ok s1].
  pose proof (bcp_invariant inner s I N) as B. rewrite E in B.
  pose proof (bcp_stack _ _ _ _ E S) as S1.
  destruct ok.
  - injection H as <-. destruct B as [I1 N1]. auto.
  - bind_ok H. destruct a as [resolved s2].
    pose proof (resolve_conflict_invariant set_order set_order_perm s1 B) as R.
    rewrite E0 in R.
    pose proof (resolve_conflict_stack _ _ _ B E0 S1) as S2.
    destruct resolved.
    + destruct R as [I2 N2]. apply (IH _ _ I2 N2 S2 H).
    + injection H as <-. auto.
Qed.

Lemma main_loop_stack h inner fuel :
  forall s b s',
    solver_invariant s -> no_conflict_node (implication_graph s) ->
    stack_follows_levels s ->
    main_loop set_order h inner fuel s = Ok (b, s') ->
    if b then map node_level (decisions (implication_graph s')) =
              seq 1 (decision_level s' - 1)
    else stack_follows_levels s'.
Proof.
  induction fuel as [|fuel IH]; intros s b s' I N S H; simpl in H; [discriminate|].
  fold (next_level s) in H.
  destruct (next_level_invariant s I N) as [I1 N1].
  bind_ok H. destruct a as [decided s2].
  pose proof (decide_invariant h _ I1 N1) as D. rewrite E in D.
  destruct D as [I2 N2].
  destruct decided; simpl in H.
  - pose proof (decide_stack _ _ _ E S) as S2.
    bind_ok H.
    destruct (bcp_until_success_stack _ _ _ _ I2 N2 S2 E0) as (S3 & I3 & N3).
    destruct a as [s3|s3].
    + apply (IH _ _ _ I3 N3 S3 H).
    + injection H as <- <-. exact S3.
  - injection H as <- <-.
    pose proof (decide_facts h (next_level s)) as F. rewrite E in F.
    destruct F as [-> _]. simpl. rewrite Nat.add_sub. exact S.
Qed.

(** X23.  The decision stack in a run.  When the atoms of the input are
    objects, the stack holds one decision node per level: [bcp] and
    [resolve_conflict] keep it that way, [decide] adds the node of the new
    level, and a run of [solve] ends with the levels 1 to the current level
    on the stack (after UNSAT) or 1 to the level before (after SAT, where the
    last [decide] found nothing to decide).  On such a stack the cut that
    [clear_decisions] makes by counting entries is the cut by level. *)
Theorem decision_stack_in_run (h : Heuristic) (fuel : nat) (cs : list Clause)
    (st : Store) :
  atoms_are_objects cs ->
  (forall k s b s', bcp k s = Ok (b, s') ->
     stack_follows_levels s -> stack_follows_levels s') /\
  (forall s s', decide h (next_level s) = Ok (true, s') ->
     stack_follows_levels s -> stack_follows_levels s') /\
  (forall s b s', solver_invariant s -> resolve_conflict set_order s = Ok (b, s') ->
     stack_follows_levels s -> stack_follows_levels s') /\
  match solve set_order h fuel cs st with
  | Ok (true, s) =>
      map node_level (decisions (implication_graph s)) = seq 1 (decision_level s - 1)
  | Ok (false, s) => stack_follows_levels s
  | Raise _ => True
  end /\
  (forall s st' keep,
     stack_follows_levels s ->
     decisions (fst (clear_decisions set_order (implication_graph s) st' keep)) =
     filter (fun n => Nat.leb (node_level n) keep) (decisions (implication_graph s))).
Proof.
  intros O.
  split; [intros k s b s'; apply bcp_stack|].
  split; [intros s s'; apply decide_stack|].
  split; [intros s b s'; apply resolve_conflict_stack|].
  split.
  - destruct (initial_state_invariant cs st O) as [I0 N0].
    assert (S0 : stack_follows_levels (initial_state cs st)) by reflexivity.
    rewrite solve_from_initial_state. unfold solve_internal.
    change (mkSolver (variables (initial_state cs st)) (clauses (initial_state cs st))
              new_graph 0 (solver_conflict_node (initial_state cs st))
              (values (initial_state cs st)))
      with (initial_state cs st).
    pose proof (bcp_invariant fuel _ I0 N0) as B.
    destruct (bcp fuel (initial_state cs st)) as [[ok s1]|e] eqn:E; cbn [bind];
      [|exact I].
    pose proof (bcp_stack _ _ _ _ E S0) as S1.
    assert (I1 : solver_invariant s1) by (destruct ok; [apply B|exact B]).
    pose proof (resolve_conflict_invariant set_order set_order_perm s1 I1) as R.
    destruct (resolve_conflict set_order s1) as [[resolved s2]|e] eqn:E1;
      cbn [bind]; [|exact I].
    pose proof (resolve_conflict_stack _ _ _ I1 E1 S1) as S2.
    destruct resolved; simpl; [|exact S2].
    destruct R as [I2 N2].
    pose proof (main_loop_stack h fuel fuel s2) as M.
    destruct (main_loop set_order h fuel fuel s2) as [[b s3]|e]; [|exact I].
    apply (M b s3 I2 N2 S2 eq_refl).
  - intros s st' keep S.
    rewrite (clear_decisions_decisions set_order).
    rewrite (firstn_by_level _ 1 (decision_level s) keep S).
    f_equal. lia.
Qed.

End DecisionStack.

Lemma decision_stack_in_run_witness :
  atoms_are_objects not1_implies_both /\
  match solve insertion_order simple 10 not1_implies_both no_values with
  | Ok (true, s) =>
      map node_level (decisions (implication_graph s)) = seq 1 (decision_level s - 1)
  | Ok (false, s) => stack_follows_levels s
  | Raise _ => True
  end.
Proof.
  split; [exact not1_implies_both_atoms|].
  destruct (decision_stack_in_run insertion_order insertion_order_perm
              simple 10 not1_implies_both no_values not1_implies_both_atoms)
    as (_ & _ & _ & S & _).
  exact S.
Defined.
